(** * minify-literals: the placeholder-substitution protocol

    A shallow embedding of the default strategy of
    [packages/minify-literals/lib/strategy.ts] ([getPlaceholder],
    [combineHTMLStrings], [minifyHTML], [minifyCSS],
    [splitHTMLByPlaceholder], with [adjustMinifyCSSOptions] and
    [fixCleanCssTidySelectors]) and of the orchestrator
    [minifyHTMLLiterals] with its defaults, followed by the properties of
    the protocol.  The strategy file also holds an older variant with a
    single-string placeholder only; the embedding is of the current one.

    Conventions of the embedding.
    - A JavaScript string is the list of its code units.  The model carries
      the code units U+0000..U+00FF, one [ascii] each; every operation the
      program uses ([indexOf], [split], [slice], ...) works on code units.
    - The regular expressions of the program are values of a small
      backtracking matcher, written atom by atom as in the source.
    - An outcome is a [Result]: a value, a thrown [Error] with its
      message, or [Exhausted] when a loop on random draws has used up the
      draws it was given.
    - Randomness ([randomBytes], [randomInt]) is an explicit input, the
      [Entropy] a call consumes.
    - The external minifiers, the literal parser and the edit buffer are
      parameters.  An object with methods is its constructor (a record of
      functions) and a state.
    - The [async] callbacks of the orchestrator share one buffer and await
      nothing but the external minifiers; they are run one after the
      other.  What is written to the console is left out. *)

From Stdlib Require Import String.
From Stdlib Require Import List Ascii Bool Arith NArith Lia.
From Stdlib Require Numbers.DecimalString.
Import Corelib.Init.Datatypes.
Import ListNotations.

Set Implicit Arguments.

(* ================================================================== *)
(** * Strings and their primitives *)
(* ================================================================== *)

Module Js.

Definition str := list ascii.

(** A string literal of the source. *)
Definition lit (s : string) : str := list_ascii_of_string s.

Definition codeUnit (c : ascii) : nat := nat_of_ascii c.

(** [s.startsWith(t)], on the suffix [s]. *)
Fixpoint startsWith (s t : str) {struct t} : bool :=
  match t with
  | [] => true
  | b :: t' =>
      match s with
      | [] => false
      | a :: s' => Ascii.eqb a b && startsWith s' t'
      end
  end.

(** [s.endsWith(t)]. *)
Definition endsWith (s t : str) : bool :=
  (length t <=? length s) && startsWith (skipn (length s - length t) s) t.

(** The first index [>= i] at which [t] occurs, [s] being the suffix
    that starts at index [i]. *)
Fixpoint indexOfFrom (s t : str) (i : nat) : option nat :=
  if startsWith s t then Some i
  else match s with
       | [] => None
       | _ :: s' => indexOfFrom s' t (S i)
       end.

(** [s.indexOf(t, pos)]; [None] is the source's [-1].  The start
    position is clamped to the length, as the language does. *)
Definition indexOf (s t : str) (pos : nat) : option nat :=
  let p := Nat.min pos (length s) in
  indexOfFrom (skipn p s) t p.

(** [s.includes(t)]. *)
Definition includes (s t : str) : bool :=
  match indexOf s t 0 with Some _ => true | None => false end.

(** [s.slice(a, b)] and [s.slice(a)] for non-negative arguments. *)
Definition slice (s : str) (a b : nat) : str := firstn (b - a) (skipn a s).
Definition sliceFrom (s : str) (a : nat) : str := skipn a s.

(** [s.substring(a, b)]: the arguments are swapped when [a > b]. *)
Definition substring (s : str) (a b : nat) : str :=
  slice s (Nat.min a b) (Nat.max a b).
Definition substringFrom (s : str) (a : nat) : str := skipn a s.

(** [s.split(sep)] for a non-empty separator: cut at the leftmost
    occurrence, go on after it.  Every round consumes a code unit, so
    [length s] rounds are enough. *)
Fixpoint splitFrom (fuel : nat) (s sep : str) : list str :=
  match fuel with
  | 0 => [s]
  | S fuel' =>
      match indexOf s sep 0 with
      | None => [s]
      | Some i => firstn i s :: splitFrom fuel' (skipn (i + length sep) s) sep
      end
  end.

(** [s.split(sep)].  An empty separator splits between all code units
    (and the empty string into no piece at all). *)
Definition split (s sep : str) : list str :=
  match sep with
  | [] => map (fun c => [c]) s
  | _ :: _ => splitFrom (length s) s sep
  end.

(** [xs.join(sep)]. *)
Fixpoint join (xs : list str) (sep : str) : str :=
  match xs with
  | [] => []
  | [x] => x
  | x :: xs' => x ++ sep ++ join xs' sep
  end.

(** [s.replaceAll(pat, rep)] with a string pattern; [rep] holds no [$]
    at any call site, so it is inserted as it is. *)
Fixpoint replaceAllFrom (fuel : nat) (s pat rep : str) : str :=
  match fuel with
  | 0 => s
  | S fuel' =>
      match indexOf s pat 0 with
      | None => s
      | Some i =>
          firstn i s ++ rep ++ replaceAllFrom fuel' (skipn (i + length pat) s) pat rep
      end
  end.

Definition replaceAll (s pat rep : str) : str :=
  match pat with
  | [] => rep ++ flat_map (fun c => c :: rep) s
  | _ :: _ => replaceAllFrom (length s) s pat rep
  end.

(** White space and line terminators: the class [\s] and what [trim]
    removes. *)
Definition isSpace (c : ascii) : bool :=
  let n := codeUnit c in
  (n =? 9) || (n =? 10) || (n =? 11) || (n =? 12) || (n =? 13)
  || (n =? 32) || (n =? 160).

(** The class [\w]. *)
Definition isWord (c : ascii) : bool :=
  let n := codeUnit c in
  ((48 <=? n) && (n <=? 57)) || ((65 <=? n) && (n <=? 90))
  || ((97 <=? n) && (n <=? 122)) || (n =? 95).

(** The class [.]: anything but a line terminator. *)
Definition isDot (c : ascii) : bool :=
  let n := codeUnit c in negb ((n =? 10) || (n =? 13)).

Fixpoint dropWhile (p : ascii -> bool) (s : str) : str :=
  match s with
  | [] => []
  | c :: s' => if p c then dropWhile p s' else s
  end.

(** [s.trim()]. *)
Definition trim (s : str) : str :=
  rev (dropWhile isSpace (rev (dropWhile isSpace s))).

(** [s.toLowerCase()] on the carried code units. *)
Definition lowerUnit (c : ascii) : ascii :=
  let n := codeUnit c in
  if ((65 <=? n) && (n <=? 90))
     || ((192 <=? n) && (n <=? 222) && negb (n =? 215))
  then ascii_of_nat (n + 32) else c.

Definition toLowerCase (s : str) : str := map lowerUnit s.

(** [`${n}`] for a non-negative integer. *)
Definition decimal (n : N) : str :=
  lit (DecimalString.NilZero.string_of_uint (N.to_uint n)).

(** [s === t]. *)
Fixpoint strictEq (s t : str) : bool :=
  match s, t with
  | [], [] => true
  | a :: s', b :: t' => Ascii.eqb a b && strictEq s' t'
  | _, _ => false
  end.

Definition LF : ascii := ascii_of_nat 10.
Definition CR : ascii := ascii_of_nat 13.

(** [GetSubstitution] for a string pattern (no capture): [$$], [$&],
    [$`] and [$'] in the replacement text. *)
Fixpoint getSubstitution (matched before after rep : str) : str :=
  match rep with
  | [] => []
  | c :: rep' =>
      match rep' with
      | d :: rep'' =>
          if Ascii.eqb c "$" then
            if Ascii.eqb d "$" then "$"%char :: getSubstitution matched before after rep''
            else if Ascii.eqb d "&" then matched ++ getSubstitution matched before after rep''
            else if Ascii.eqb d "`" then before ++ getSubstitution matched before after rep''
            else if Ascii.eqb d "'" then after ++ getSubstitution matched before after rep''
            else c :: getSubstitution matched before after rep'
          else c :: getSubstitution matched before after rep'
      | [] => [c]
      end
  end.

(** [s.replace(pat, rep)] with a string pattern: the first occurrence. *)
Definition replaceFirst (s pat rep : str) : str :=
  match indexOf s pat 0 with
  | None => s
  | Some i =>
      let before := firstn i s in
      let after := skipn (i + length pat) s in
      before ++ getSubstitution pat before after rep ++ after
  end.

(** [all.splice(i, 1, ...items)]. *)
Definition splice1 (all : list str) (i : nat) (items : list str) : list str :=
  firstn i all ++ items ++ skipn (S i) all.

End Js.

Import Js.

(** Outcomes: a call returns, throws an [Error] with a message, or is
    still looping when the random draws it was given have run out. *)
Inductive Result (A : Type) : Type :=
| Ok (a : A)
| Throw (message : str)
| Exhausted.

Arguments Ok {A} a.
Arguments Throw {A} message.
Arguments Exhausted {A}.

Definition bind {A B : Type} (r : Result A) (k : A -> Result B) : Result B :=
  match r with
  | Ok a => k a
  | Throw m => Throw m
  | Exhausted => Exhausted
  end.

Notation "x <- r ;; k" := (bind r (fun x => k))
  (at level 61, r at next level, right associativity).

(* ================================================================== *)
(** * Regular expressions *)
(* ================================================================== *)

(** The fragment the program's regular expressions are written in, with
    the backtracking order of the language: a literal code unit, a class,
    a greedy or lazy [*] over a class, a greedy [?] on a code unit, the two
    anchors (no regular expression with an anchor has the [m] flag), and
    [Mark], which records the current index (the borders of a capture
    group).  [x+] is written [x x*]. *)
Module Regex.

Inductive atom : Type :=
| Chr (c : ascii)
| Cls (p : ascii -> bool)
| Star (greedy : bool) (p : ascii -> bool)
| Opt (c : ascii)
| Bol
| Eol
| Mark.

Definition regex := list atom.

(** A literal run of code units. *)
Definition chars (s : string) : regex := map Chr (lit s).

Definition orElse {A : Type} (x y : option A) : option A :=
  match x with
  | Some _ => x
  | None => y
  end.

Section Run.

Variable R : Type.

(** [p*] and [p*?] followed by the continuation [k]; [i] is the index of
    the first code unit of [s]. *)
Fixpoint star (greedy : bool) (p : ascii -> bool)
    (k : nat -> str -> option R) (i : nat) (s : str) : option R :=
  match s with
  | [] => k i []
  | c :: s' =>
      if p c then
        if greedy then orElse (star greedy p k (S i) s') (k i s)
        else orElse (k i s) (star greedy p k (S i) s')
      else k i s
  end.

End Run.

(** Match [r] at index [i], [s] being the input from [i] on: the end index
    and the recorded marks of the first match in backtracking order. *)
Fixpoint exec (r : regex) (marks : list nat) (i : nat) (s : str)
    : option (nat * list nat) :=
  match r with
  | [] => Some (i, marks)
  | a :: r' =>
      match a with
      | Chr c =>
          match s with
          | [] => None
          | c' :: s' => if Ascii.eqb c' c then exec r' marks (S i) s' else None
          end
      | Cls p =>
          match s with
          | [] => None
          | c' :: s' => if p c' then exec r' marks (S i) s' else None
          end
      | Star greedy p => star greedy p (fun j t => exec r' marks j t) i s
      | Opt c =>
          match s with
          | [] => exec r' marks i s
          | c' :: s' =>
              if Ascii.eqb c' c
              then orElse (exec r' marks (S i) s') (exec r' marks i s)
              else exec r' marks i s
          end
      | Bol => if i =? 0 then exec r' marks i s else None
      | Eol => match s with [] => exec r' marks i s | _ :: _ => None end
      | Mark => exec r' (marks ++ [i]) i s
      end
  end.

Record found : Type := Found { index : nat; stop : nat; marks : list nat }.

(** The leftmost match at an index [>= i]. *)
Fixpoint searchFrom (r : regex) (i : nat) (s : str) : option found :=
  match exec r [] i s with
  | Some (e, ms) => Some (Found i e ms)
  | None =>
      match s with
      | [] => None
      | _ :: s' => searchFrom r (S i) s'
      end
  end.

(** [r.exec(s)] with [lastIndex = from]. *)
Definition search (r : regex) (s : str) (from : nat) : option found :=
  if from <=? length s then searchFrom r from (skipn from s) else None.

(** [r.test(s)] for a regular expression without the [g] flag, and the
    truth of [s.match(r)]. *)
Definition test (r : regex) (s : str) : bool :=
  match search r s 0 with Some _ => true | None => false end.

(** [s.replace(r, rep)] with the [g] flag; [i] is the index of the first
    code unit of [s], and [rep] holds no [$].  After an empty match the
    scan moves one code unit on. *)
Fixpoint replaceFrom (fuel : nat) (r : regex) (rep : str) (i : nat) (s : str) : str :=
  match fuel with
  | 0 => s
  | S fuel' =>
      match searchFrom r i s with
      | None => s
      | Some m =>
          let before := firstn (index m - i) s in
          if stop m =? index m then
            match skipn (index m - i) s with
            | [] => before ++ rep
            | c :: rest => before ++ rep ++ c :: replaceFrom fuel' r rep (S (index m)) rest
            end
          else before ++ rep ++ replaceFrom fuel' r rep (stop m) (skipn (stop m - i) s)
      end
  end.

Definition replace (r : regex) (rep : str) (s : str) : str :=
  replaceFrom (S (length s)) r rep 0 s.

(** The start indices of [s.matchAll(r)]. *)
Fixpoint matchAllFrom (fuel : nat) (r : regex) (i : nat) (s : str) : list nat :=
  match fuel with
  | 0 => []
  | S fuel' =>
      match searchFrom r i s with
      | None => []
      | Some m =>
          if stop m =? index m then
            match skipn (index m - i) s with
            | [] => [index m]
            | _ :: rest => index m :: matchAllFrom fuel' r (S (index m)) rest
            end
          else index m :: matchAllFrom fuel' r (stop m) (skipn (stop m - i) s)
      end
  end.

Definition matchAll (r : regex) (s : str) : list nat :=
  matchAllFrom (S (length s)) r 0 s.

End Regex.

Import Regex.

(* ================================================================== *)
(** * The default strategy (strategy.ts) *)
(* ================================================================== *)

(** [TemplatePart] of parse-literals: the raw text of a literal segment
    and its offsets in the source. *)
Record TemplatePart : Type := Part { text : str; start : nat; end_ : nat }.

(** [string | string[]]. *)
Inductive Placeholder : Type :=
| Single (token : str)
| Multi (tokens : list str).

(** What one call of [getPlaceholder] draws from [node:crypto]: the six
    bytes of [randomBytes(6)] and the successive results of
    [randomInt(281474976710655)]. *)
Record Entropy : Type := { randomBytes : list Byte.byte; randomInt : list N }.

Definition randomIntBound : N := 281474976710655.

Definition hexDigit (d : N) : ascii :=
  nth (N.to_nat d) (lit "0123456789abcdef") "0"%char.

(** [buffer.toString("hex")]. *)
Definition toHex (bytes : list Byte.byte) : str :=
  flat_map (fun b => let n := Byte.to_N b in [hexDigit (n / 16); hexDigit (n mod 16)])
           bytes.

(** [/\/\*[\s\S]*?\*\//g] *)
Definition comment : regex :=
  chars "/*" ++ [Star false (fun _ => true)] ++ chars "*/".

(** [/^\s*\{/] *)
Definition selectorRe : regex := [Bol; Star true isSpace; Chr "{"].
(** [/^\s*:/] *)
Definition keyRe : regex := [Bol; Star true isSpace; Chr ":"].
(** [/\}\s*$/] *)
Definition ruleRe : regex := [Chr "}"; Star true isSpace; Eol].
(** [/^\w+/] *)
Definition unitRe : regex := [Bol; Cls isWord; Star true isWord].
(** [/:\s*$/] *)
Definition valueRe : regex := [Chr ":"; Star true isSpace; Eol].

(** The [while (true)] of the numeric-unit case: draw until the numeral is
    not in [beforeFull]. *)
Fixpoint drawNum (ints : list N) (beforeFull : str) : Result (str * list N) :=
  match ints with
  | [] => Exhausted
  | n :: ints' =>
      let num := decimal n in
      if negb (includes beforeFull num) then Ok (num, ints')
      else drawNum ints' beforeFull
  end.

(** The [for] loop of the stylesheet branch, at the boundary between
    [before = parts[i - 1]] and the head of [rest = parts[i..]]. *)
Fixpoint cssLoop (random : str) (ints : list N) (before : TemplatePart)
    (rest : list TemplatePart) (placeholder : list str) : Result Placeholder :=
  match rest with
  | [] => Ok (Multi placeholder)
  | after :: rest' =>
      let beforeFull := text before in
      let beforeCss := replace comment [] beforeFull in
      let afterFull := text after in
      let afterCss := replace comment [] afterFull in
      let isSelector := test selectorRe afterCss in
      if isSelector then
        cssLoop random ints after rest' (placeholder ++ [lit "#" ++ random])
      else
      let isKey := test keyRe afterCss in
      if isKey then
        cssLoop random ints after rest' (placeholder ++ [lit "--" ++ random])
      else
      let isRule := test ruleRe beforeCss || (length (trim beforeCss) =? 0) in
      if isRule then
        Ok (Single (lit "@" ++ random ++ lit "();"))
      else
      let isUnit := test unitRe afterCss in
      if isUnit then
        r <- drawNum ints beforeFull ;;
        cssLoop random (snd r) after rest' (placeholder ++ [fst r])
      else
      let isValue := test valueRe beforeCss in
      if isValue then
        cssLoop random ints after rest' (placeholder ++ [lit "var(--" ++ random ++ lit ")"])
      else
        cssLoop random ints after rest' (placeholder ++ [lit "var(--" ++ random ++ lit ")"])
  end.

(** The [while] of the markup branch.  A candidate longer than every part
    is in none of them, so the loop ends; [fuel] counts its rounds. *)
Fixpoint markupLoop (fuel : nat) (parts : list TemplatePart)
    (placeholder suffix : str) : Result str :=
  match fuel with
  | 0 => Exhausted
  | S fuel' =>
      if existsb (fun part => includes (text part) (placeholder ++ suffix)) parts
      then markupLoop fuel' parts (placeholder ++ lit "_") suffix
      else Ok placeholder
  end.

Definition markupFuel (parts : list TemplatePart) : nat :=
  S (list_max (map (fun part => length (text part)) parts)).

(** [tag?.toLowerCase().includes("css")] *)
Definition isCssTag (tag : option str) : bool :=
  match tag with
  | Some t => includes (toLowerCase t) (lit "css")
  | None => false
  end.

Definition getPlaceholder (rnd : Entropy) (parts : list TemplatePart)
    (tag : option str) : Result Placeholder :=
  let isCss := isCssTag tag in
  if isCss then
    let random := lit "tmp_" ++ toHex (randomBytes rnd) in
    match parts with
    | [] => Ok (Multi [])
    | first :: rest => cssLoop random (randomInt rnd) first rest []
    end
  else
    let suffix := lit "();" in
    placeholder <- markupLoop (markupFuel parts) parts (lit "@TEMPLATE_EXPRESSION") suffix ;;
    Ok (Single (placeholder ++ suffix)).

(** [xs.map((x, i) => f(x, i))], counting from [i]. *)
Fixpoint mapi {A B : Type} (f : A -> nat -> B) (i : nat) (xs : list A) : list B :=
  match xs with
  | [] => []
  | x :: xs' => f x i :: mapi f (S i) xs'
  end.

Definition combineHTMLStrings (parts : list TemplatePart) (placeholder : Placeholder) : str :=
  match placeholder with
  | Single token => join (map text parts) token
  | Multi tokens =>
      join (mapi (fun part i => text part ++ nth i tokens []) 0 parts) []
  end.

(** The [for (i = parts.length - 1; i >= 0; i--)] of the splitter, [n]
    being [i + 1]. *)
Fixpoint spliceLoop (n : nat) (parts : list str) (withoutSemicolon : str) : list str :=
  match n with
  | 0 => parts
  | S i =>
      let pieces :=
        match nth_error parts i with
        | Some p => split p withoutSemicolon
        | None => []
        end in
      spliceLoop i (splice1 parts i pieces) withoutSemicolon
  end.

(** The [for (const ph of placeholder)] of the splitter. *)
Fixpoint scanTokens (html : str) (placeholder : list str) (pos : nat)
    (parts : list str) : Result (list str) :=
  match placeholder with
  | [] => Ok (parts ++ [sliceFrom html pos])
  | ph :: rest =>
      match indexOf html ph pos with
      | None =>
          Throw (lit "placeholder " ++ ph ++ lit " not found in html " ++ html)
      | Some index =>
          scanTokens html rest (index + length ph) (parts ++ [slice html pos index])
      end
  end.

Definition splitHTMLByPlaceholder (html : str) (placeholder : Placeholder)
    : Result (list str) :=
  match placeholder with
  | Single token =>
      let parts := split html token in
      if endsWith token (lit ";") then
        let withoutSemicolon := substring token 0 (length token - 1) in
        Ok (spliceLoop (length parts) parts withoutSemicolon)
      else Ok parts
  | Multi tokens => scanTokens html tokens 0 []
  end.

(** [Plugin] of clean-css, as far as [adjustMinifyCSSOptions] builds it:
    [level1.value(name, value)]. *)
Record Plugin : Type := { level1_value : str -> str -> str }.

(** [{ ...options, level, plugins: [plugin] }]; [level] is the one of
    [options]. *)
Record AdjustedCSSOptions (C : Type) : Type :=
  { cssOptions : C; plugins : list Plugin }.

(** [Output] of clean-css. *)
Record CleanCSSOutput : Type :=
  { errors : list str; warnings : list str; styles : str }.

(** [HTMLOptions["minifyCSS"]]: absent, a boolean, a function or the
    options of clean-css. *)
Inductive MinifyCSSOption (C : Type) : Type :=
| CssUndefined
| CssBool (b : bool)
| CssFunction (f : str -> str)
| CssObject (o : C).

Arguments CssUndefined {C}.
Arguments CssBool {C} b.
Arguments CssFunction {C} f.
Arguments CssObject {C} o.

(** The options of html-minifier-terser that the repository names. *)
Record HTMLOptions (C : Type) : Type := {
  caseSensitive : bool;
  collapseWhitespace : bool;
  decodeEntities : bool;
  minifyCSS_option : MinifyCSSOption C;
  minifyJS : bool;
  processConditionalComments : bool;
  removeAttributeQuotes : bool;
  removeComments : bool;
  removeEmptyAttributes : bool;
  removeScriptTypeAttributes : bool;
  removeStyleLinkTypeAttributes : bool;
  useShortDoctype : bool
}.

Definition templateExpressionValue (value : str) : str :=
  if negb (startsWith value (lit "@TEMPLATE_EXPRESSION")) || endsWith value (lit ";")
  then value
  else value ++ lit ";".

Definition adjustMinifyCSSOptions {C : Type} (options : C) : AdjustedCSSOptions C :=
  let plugin := {| level1_value := fun _name value => templateExpressionValue value |} in
  {| cssOptions := options; plugins := [plugin] |}.

(** [/(::?.+\((.* )\))[\s\r\n]*{/gm] (there is no blank before the inner
    closing parenthesis in the source); the marks are the borders of
    group 1 (first and last) and of group 2 (the two in the middle). *)
Definition pseudoClassRe : regex :=
  [Mark; Chr ":"; Opt ":"; Cls isDot; Star true isDot; Chr "("; Mark;
   Star true isDot; Mark; Chr ")"; Mark; Star true isSpace; Chr "{"].

(** [/\s/] *)
Definition spaceRe : regex := [Cls isSpace].

(** The [while ((match = regex.exec(original)) != null)] of
    [fixCleanCssTidySelectors]; a match is never empty, so [lastIndex]
    grows with every round. *)
Fixpoint tidyLoop (fuel : nat) (original : str) (lastIndex : nat) (result : str) : str :=
  match fuel with
  | 0 => result
  | S fuel' =>
      match search pseudoClassRe original lastIndex with
      | None => result
      | Some m =>
          let pseudoClass := slice original (nth 0 (marks m) 0) (nth 3 (marks m) 0) in
          let parameters := slice original (nth 1 (marks m) 0) (nth 2 (marks m) 0) in
          if negb (test spaceRe parameters) then
            tidyLoop fuel' original (stop m) result
          else
            let parametersWithoutSpaces := replace spaceRe [] parameters in
            let resultPseudoClass :=
              replaceFirst pseudoClass parameters parametersWithoutSpaces in
            match indexOf result resultPseudoClass 0 with
            | None => tidyLoop fuel' original (stop m) result
            | Some resultStartIndex =>
                let resultEndIndex := resultStartIndex + length resultPseudoClass in
                tidyLoop fuel' original (stop m)
                  (substring result 0 resultStartIndex ++ pseudoClass
                   ++ substringFrom result resultEndIndex)
            end
      end
  end.

Definition fixCleanCssTidySelectors (original result : str) : str :=
  tidyLoop (S (length original)) original 0 result.

(** [/<!--(.*?)@TEMPLATE_EXPRESSION\(\);(.*?)-->/g] *)
Definition commentExpressionRe : regex :=
  chars "<!--" ++ [Mark; Star false isDot; Mark]
  ++ chars "@TEMPLATE_EXPRESSION();"
  ++ [Mark; Star false isDot; Mark] ++ chars "-->".

(** [/<svg/g] *)
Definition svgRe : regex := chars "<svg".
(** [/\r?\n/g] *)
Definition newlineRe : regex := [Opt CR; Chr LF].
(** [/(\n)|(\r)/g]: either of two code units, a class. *)
Definition lineBreakRe : regex :=
  [Cls (fun c => Ascii.eqb c LF || Ascii.eqb c CR)].
(** [/@TEMPLATE_EXPRESSION\(\);:/g] *)
Definition templateKeyRe : regex := chars "@TEMPLATE_EXPRESSION();:".

(** The [for (const match of matches)] of [minifyHTML]; [matches] are the
    start indices of [<svg], the last one first. *)
Definition svgLoop (matches : list nat) (result : str) : str :=
  fold_left
    (fun result startTagIndex =>
       match indexOf result (lit "</svg") startTagIndex with
       | None => result
       | Some closeTagIndex =>
           let start := substring result 0 startTagIndex in
           let svg := substring result startTagIndex closeTagIndex in
           let end' := substringFrom result closeTagIndex in
           start ++ replace newlineRe [] svg ++ end'
       end)
    matches result.

Section Minifiers.

(** The options of clean-css, and [{}]. *)
Variable C : Type.
Variable emptyCSSOptions : C.

(** [minify] of html-minifier-terser, called with
    [{ ...options, minifyCSS: adjusted }] ([None] is [false]). *)
Variable minify : str -> HTMLOptions C -> option (AdjustedCSSOptions C) -> Result str.

(** [new CleanCSS({ ...options, returnPromise: true }).minify(css)]. *)
Variable cleanCSS : AdjustedCSSOptions C -> str -> Result CleanCSSOutput.

Definition defaultMinifyCSSOptions : C := emptyCSSOptions.

Definition defaultMinifyOptions : HTMLOptions C := {|
  caseSensitive := true;
  collapseWhitespace := true;
  decodeEntities := true;
  minifyCSS_option := CssObject defaultMinifyCSSOptions;
  minifyJS := true;
  processConditionalComments := true;
  removeAttributeQuotes := false;
  removeComments := true;
  removeEmptyAttributes := true;
  removeScriptTypeAttributes := true;
  removeStyleLinkTypeAttributes := true;
  useShortDoctype := true
|}.

Definition minifyHTML (html : str) (options : HTMLOptions C) : Result str :=
  if test commentExpressionRe html then Ok html
  else
    let html := replaceAll html (lit "<@TEMPLATE_EXPRESSION();") (lit "<TEMPLATE_EXPRESSION___") in
    let html := replaceAll html (lit "</@TEMPLATE_EXPRESSION();") (lit "</TEMPLATE_EXPRESSION___") in
    let minifyCSSOptions : option C :=
      match minifyCSS_option options with
      | CssObject o => Some o
      | CssBool true | CssFunction _ => Some emptyCSSOptions
      | CssBool false | CssUndefined => None
      end in
    let adjustedMinifyCSSOptions :=
      match minifyCSSOptions with
      | Some o => Some (adjustMinifyCSSOptions o)
      | None => None
      end in
    result <- minify html options adjustedMinifyCSSOptions ;;
    let result := replaceAll result (lit "<TEMPLATE_EXPRESSION___") (lit "<@TEMPLATE_EXPRESSION();") in
    let result := replaceAll result (lit "</TEMPLATE_EXPRESSION___") (lit "</@TEMPLATE_EXPRESSION();") in
    let result :=
      if collapseWhitespace options
      then svgLoop (rev (matchAll svgRe result)) result
      else result in
    Ok (fixCleanCssTidySelectors html result).

(** [options] is [None] where the caller passes [undefined]. *)
Definition minifyCSS (css : str) (options : option C) : Result str :=
  let options := match options with Some o => o | None => emptyCSSOptions end in
  let adjustedOptions := adjustMinifyCSSOptions options in
  let css := replace templateKeyRe (lit "--TEMPLATE-EXPRESSION:") css in
  output <- cleanCSS adjustedOptions css ;;
  if negb (length (errors output) =? 0) then
    Throw (join (errors output) [LF; LF])
  else if negb (length (warnings output) =? 0) then
    Ok (replace lineBreakRe [] css)
  else
    let styles := replaceAll (styles output) (lit "--TEMPLATE-EXPRESSION:")
                             (lit "@TEMPLATE_EXPRESSION();:") in
    Ok (fixCleanCssTidySelectors css styles).

End Minifiers.

(** The [Strategy] interface.  [getPlaceholder] is given the entropy of
    its call; every member may throw.  The options of [minifyHTML] are the
    merged [minifyOptions] of the orchestrator. *)
Module Strategy.

Record Strategy (C : Type) : Type := {
  getPlaceholder : Entropy -> list TemplatePart -> option str -> Result Placeholder;
  combineHTMLStrings : list TemplatePart -> Placeholder -> str;
  minifyHTML : str -> HTMLOptions C -> Result str;
  minifyCSS : option (str -> option C -> Result str);
  splitHTMLByPlaceholder : str -> Placeholder -> Result (list str)
}.

End Strategy.

Definition defaultStrategy (C : Type) (emptyCSSOptions : C)
    (minify : str -> HTMLOptions C -> option (AdjustedCSSOptions C) -> Result str)
    (cleanCSS : AdjustedCSSOptions C -> str -> Result CleanCSSOutput)
    : Strategy.Strategy C := {|
  Strategy.getPlaceholder := getPlaceholder;
  Strategy.combineHTMLStrings := combineHTMLStrings;
  Strategy.minifyHTML := minifyHTML emptyCSSOptions minify;
  Strategy.minifyCSS := Some (minifyCSS emptyCSSOptions cleanCSS);
  Strategy.splitHTMLByPlaceholder := splitHTMLByPlaceholder
|}.

(* ================================================================== *)
(** * The orchestrator *)
(* ================================================================== *)

(** [Template] of parse-literals. *)
Record Template : Type := { parts : list TemplatePart; tag : option str }.

(** The [Validation] interface. *)
Record Validation : Type := {
  ensurePlaceholderValid : Placeholder -> Result unit;
  ensureHTMLPartsValid : list TemplatePart -> list str -> Result unit
}.

Definition defaultShouldMinify (template : Template) : bool :=
  match tag template with
  | None => false
  | Some t =>
      let tag := toLowerCase t in
      negb (length tag =? 0)
      && (includes tag (lit "html") || includes tag (lit "svg"))
  end.

Definition defaultShouldMinifyCSS (template : Template) : bool :=
  match tag template with
  | None => false
  | Some t => if negb (includes (toLowerCase t) (lit "css")) then false else true
  end.

(** [defaultValidation].  The placeholder is what the [Strategy] interface
    lets [getPlaceholder] return, a string or an array of strings. *)
Definition defaultValidation : Validation := {|
  ensurePlaceholderValid := fun placeholder =>
    match placeholder with
    | Single token =>
        if 0 <? length token then Ok tt
        else Throw (lit "getPlaceholder() must return a non-empty string | string[]")
    | Multi tokens =>
        if forallb (fun ph => 0 <? length ph) tokens then Ok tt
        else Throw (lit "getPlaceholder() must return a non-empty string | string[]")
    end;
  ensureHTMLPartsValid := fun parts htmlParts =>
    if negb (length parts =? length htmlParts) then
      Throw (lit "splitHTMLByPlaceholder() must return same number of strings as template parts")
    else Ok tt
|}.

(** [Partial<typeof defaultMinifyOptions>]: [None] is an absent key. *)
Record PartialHTMLOptions (C : Type) : Type := {
  caseSensitive' : option bool;
  collapseWhitespace' : option bool;
  decodeEntities' : option bool;
  minifyCSS' : option (MinifyCSSOption C);
  minifyJS' : option bool;
  processConditionalComments' : option bool;
  removeAttributeQuotes' : option bool;
  removeComments' : option bool;
  removeEmptyAttributes' : option bool;
  removeScriptTypeAttributes' : option bool;
  removeStyleLinkTypeAttributes' : option bool;
  useShortDoctype' : option bool
}.

Definition orDefault {A : Type} (x : option A) (d : A) : A :=
  match x with Some a => a | None => d end.

(** [{ ...defaults, ...given }]. *)
Definition mergeOptions {C : Type} (defaults : HTMLOptions C)
    (given : option (PartialHTMLOptions C)) : HTMLOptions C :=
  match given with
  | None => defaults
  | Some g => {|
      caseSensitive := orDefault (caseSensitive' g) (caseSensitive defaults);
      collapseWhitespace := orDefault (collapseWhitespace' g) (collapseWhitespace defaults);
      decodeEntities := orDefault (decodeEntities' g) (decodeEntities defaults);
      minifyCSS_option := orDefault (minifyCSS' g) (minifyCSS_option defaults);
      minifyJS := orDefault (minifyJS' g) (minifyJS defaults);
      processConditionalComments :=
        orDefault (processConditionalComments' g) (processConditionalComments defaults);
      removeAttributeQuotes := orDefault (removeAttributeQuotes' g) (removeAttributeQuotes defaults);
      removeComments := orDefault (removeComments' g) (removeComments defaults);
      removeEmptyAttributes := orDefault (removeEmptyAttributes' g) (removeEmptyAttributes defaults);
      removeScriptTypeAttributes :=
        orDefault (removeScriptTypeAttributes' g) (removeScriptTypeAttributes defaults);
      removeStyleLinkTypeAttributes :=
        orDefault (removeStyleLinkTypeAttributes' g) (removeStyleLinkTypeAttributes defaults);
      useShortDoctype := orDefault (useShortDoctype' g) (useShortDoctype defaults)
    |}
  end.

(** [Partial<SourceMapOptions>] as [defaultGenerateSourceMap] fills it. *)
Record SourceMapOptions : Type := { file : str; source : str; hires : bool }.

(** A constructor of [MagicStringLike] objects: the state of an object and
    its three methods.  [overwrite] returns the updated object. *)
Record MagicStringLike (SourceMap : Type) : Type := {
  buffer : Type;
  new : str -> buffer;
  generateMap : buffer -> SourceMapOptions -> SourceMap;
  overwrite : buffer -> nat -> nat -> str -> Result buffer;
  toString : buffer -> str
}.

(** An option that is a function, [false], or absent. *)
Inductive OrFalse (A : Type) : Type :=
| Absent
| False_
| Given (a : A).

Arguments Absent {A}.
Arguments False_ {A}.
Arguments Given {A} a.

(** [Partial<ParseLiteralsOptions>]: [fileName] and the other keys. *)
Record ParseLiteralsOptions (P : Type) : Type :=
  { pl_fileName : option str; pl_more : option P }.

(** [Result] of the orchestrator. *)
Record MinifyResult (SourceMap : Type) : Type :=
  { code : str; map : option SourceMap }.

Section Orchestrator.

Variable C : Type.
Variable emptyCSSOptions : C.
Variable minify : str -> HTMLOptions C -> option (AdjustedCSSOptions C) -> Result str.
Variable cleanCSS : AdjustedCSSOptions C -> str -> Result CleanCSSOutput.

Variable SourceMap : Type.
Variable P : Type.

(** The imports [MagicString] and [parseLiterals]. *)
Variable MagicString_import : MagicStringLike SourceMap.
Variable parseLiterals_import :
  str -> ParseLiteralsOptions P -> Result (list Template).

Record Options : Type := {
  fileName : option str;
  generateSourceMap :
    OrFalse (forall cls : MagicStringLike SourceMap, buffer cls -> str -> option SourceMap);
  MagicString : option (MagicStringLike SourceMap);
  parseLiterals : option (str -> ParseLiteralsOptions P -> Result (list Template));
  parseLiteralsOptions : option (ParseLiteralsOptions P);
  shouldMinify : option (Template -> bool);
  shouldMinifyCSS : option (Template -> bool);
  validate : OrFalse Validation;
  minifyOptions : option (PartialHTMLOptions C);
  strategy : option (Strategy.Strategy C)
}.

Definition defaultGenerateSourceMap (cls : MagicStringLike SourceMap)
    (ms : buffer cls) (fileName : str) : SourceMap :=
  generateMap cls ms {| file := fileName ++ lit ".map"; source := fileName; hires := true |}.

(** The [for (const [index, part] of template.parts.entries())]. *)
Fixpoint overwriteParts (cls : MagicStringLike SourceMap) (ms : buffer cls)
    (index : nat) (parts : list TemplatePart) (minParts : list str)
    : Result (buffer cls) :=
  match parts with
  | [] => Ok ms
  | part :: parts' =>
      if start part <? end_ part then
        ms' <- overwrite cls ms (start part) (end_ part) (nth index minParts []) ;;
        overwriteParts cls ms' (S index) parts' minParts
      else overwriteParts cls ms (S index) parts' minParts
  end.

Section Templates.

Variable cls : MagicStringLike SourceMap.
Variable strategy' : Strategy.Strategy C.
Variable shouldMinify' shouldMinifyCSS' : Template -> bool.
Variable validate' : option Validation.
Variable skipCSS skipHTML : bool.
Variable minifyOptions' : HTMLOptions C.

(** Whether the callback goes past its [if (!(minifyHTML || minifyCSS))
    return]. *)
Definition qualifies (template : Template) : bool :=
  let minifyHTML := negb skipHTML && shouldMinify' template in
  let minifyCSS :=
    negb skipCSS
    && match Strategy.minifyCSS strategy' with Some _ => true | None => false end
    && shouldMinifyCSS' template in
  minifyHTML || minifyCSS.

(** The callback of [templates.map(async (template) => ...)]. *)
Definition minifyTemplate (rnd : Entropy) (ms : buffer cls) (template : Template)
    : Result (buffer cls) :=
  let minifyHTML := negb skipHTML && shouldMinify' template in
  let minifyCSS :=
    negb skipCSS
    && match Strategy.minifyCSS strategy' with Some _ => true | None => false end
    && shouldMinifyCSS' template in
  if negb (minifyHTML || minifyCSS) then Ok ms
  else
    placeholder <- Strategy.getPlaceholder strategy' rnd (parts template) (tag template) ;;
    _ <- match validate' with
         | Some v => ensurePlaceholderValid v placeholder
         | None => Ok tt
         end ;;
    let combined := Strategy.combineHTMLStrings strategy' (parts template) placeholder in
    min <- (if minifyCSS then
              match minifyCSS_option minifyOptions' with
              | CssFunction f => Ok (f combined)
              | CssBool false => Ok combined
              | other =>
                  let cssOptions :=
                    match other with CssObject o => Some o | _ => None end in
                  match Strategy.minifyCSS strategy' with
                  | Some f => f combined cssOptions
                  | None => Ok combined
                  end
              end
            else Strategy.minifyHTML strategy' combined minifyOptions') ;;
    minParts <- Strategy.splitHTMLByPlaceholder strategy' min placeholder ;;
    _ <- match validate' with
         | Some v => ensureHTMLPartsValid v (parts template) minParts
         | None => Ok tt
         end ;;
    overwriteParts cls ms 0 (parts template) minParts.

(** [await Promise.all(templates.map(...))].  The callbacks share the one
    buffer, and nothing but the external minifiers is awaited: they are
    run one after the other here, the [i]-th with the entropy [rnd i]. *)
Fixpoint minifyTemplates (rnd : nat -> Entropy) (i : nat) (ms : buffer cls)
    (templates : list Template) : Result (buffer cls) :=
  match templates with
  | [] => Ok ms
  | template :: templates' =>
      ms' <- minifyTemplate (rnd i) ms template ;;
      minifyTemplates rnd (S i) ms' templates'
  end.

End Templates.

(** The settings [minifyHTMLLiterals] resolves before it starts. *)
Definition resolveMagicString (options : Options) : MagicStringLike SourceMap :=
  orDefault (MagicString options) MagicString_import.

Definition resolveMinifyOptions (options : Options) : HTMLOptions C :=
  mergeOptions (defaultMinifyOptions emptyCSSOptions) (minifyOptions options).

Definition resolveParseLiteralsOptions (options : Options) : ParseLiteralsOptions P :=
  match parseLiteralsOptions options with
  | None => {| pl_fileName := fileName options; pl_more := None |}
  | Some given =>
      {| pl_fileName :=
           match pl_fileName given with
           | Some name => Some name
           | None => fileName options
           end;
         pl_more := pl_more given |}
  end.

Definition resolveStrategy (options : Options) : Strategy.Strategy C :=
  orDefault (strategy options) (defaultStrategy emptyCSSOptions minify cleanCSS).

Definition resolveValidation (options : Options) : option Validation :=
  match validate options with
  | False_ => None
  | Absent => Some defaultValidation
  | Given v => Some v
  end.

Definition skipCSSFor (source : str) (options : Options) : bool :=
  match Strategy.minifyCSS (resolveStrategy options) with
  | Some _ => true
  | None => false
  end
  && includes source (lit "unsafeCSS").

Definition skipHTMLFor (source : str) : bool := includes source (lit "unsafeHTML").

(** [options.parseLiterals(source, options.parseLiteralsOptions)]. *)
Definition parsedTemplates (source : str) (options : Options) : Result (list Template) :=
  orDefault (parseLiterals options) parseLiterals_import
            source (resolveParseLiteralsOptions options).

(** Whether a template goes through minification under [options]. *)
Definition templateQualifies (source : str) (options : Options) (template : Template) : bool :=
  qualifies (resolveStrategy options)
    (orDefault (shouldMinify options) defaultShouldMinify)
    (orDefault (shouldMinifyCSS options) defaultShouldMinifyCSS)
    (skipCSSFor source options) (skipHTMLFor source) template.

(** The buffer once [await Promise.all(promises)] is over. *)
Definition minifiedBuffer (rnd : nat -> Entropy) (source : str) (options : Options)
    : Result (buffer (resolveMagicString options)) :=
  templates <- parsedTemplates source options ;;
  let ms := new (resolveMagicString options) source in
  minifyTemplates (resolveMagicString options) (resolveStrategy options)
    (orDefault (shouldMinify options) defaultShouldMinify)
    (orDefault (shouldMinifyCSS options) defaultShouldMinifyCSS)
    (resolveValidation options)
    (skipCSSFor source options) (skipHTMLFor source)
    (resolveMinifyOptions options) rnd 0 ms templates.

Definition minifyHTMLLiterals (rnd : nat -> Entropy) (source : str) (options : Options)
    : Result (option (MinifyResult SourceMap)) :=
  ms <- minifiedBuffer rnd source options ;;
  let sourceMin := toString (resolveMagicString options) ms in
  if strictEq source sourceMin then Ok None
  else
    let map :=
      match generateSourceMap options with
      | False_ => None
      | Absent =>
          Some (defaultGenerateSourceMap (resolveMagicString options) ms
                  (orDefault (fileName options) []))
      | Given generateSourceMap =>
          generateSourceMap (resolveMagicString options) ms
            (orDefault (fileName options) [])
      end in
    Ok (Some {| code := sourceMin; map := map |}).

End Orchestrator.

(* ================================================================== *)
(** * The notions the properties are stated with *)
(* ================================================================== *)

(** [t] occurs in [s] at index [i]. *)
Definition occursAt (s t : str) (i : nat) : Prop :=
  exists before after, s = before ++ t ++ after /\ length before = i.

(** [t] is a substring of [s]. *)
Definition occursIn (s t : str) : Prop := exists i, occursAt s t i.

(** [i] is the next occurrence of [t] in [s] from the cursor on. *)
Definition nextOccurrence (s t : str) (cursor i : nat) : Prop :=
  cursor <= i /\ occursAt s t i
  /\ forall j, cursor <= j -> j < i -> ~ occursAt s t j.

(** The scan of the multi-token splitter, in the words of its
    description: from [cursor], every token in order is located at its next
    occurrence, which leaves the cursor behind that occurrence; [segments]
    are the texts passed over, [cursor'] is the cursor behind the last
    token. *)
Inductive Located (html : str) : nat -> list str -> nat -> list str -> Prop :=
| Located_nil cursor : Located html cursor [] cursor []
| Located_cons cursor ph i tokens cursor' segments :
    nextOccurrence html ph cursor i ->
    Located html (i + length ph) tokens cursor' segments ->
    Located html cursor (ph :: tokens) cursor' (slice html cursor i :: segments).

(** The placeholders the validator is to reject: an empty string, or an
    array with an empty string in it. *)
Definition hasEmptyToken (placeholder : Placeholder) : Prop :=
  match placeholder with
  | Single token => token = []
  | Multi tokens => In [] tokens
  end.

(** The random base string of one call in stylesheet mode. *)
Definition cssRandom (rnd : Entropy) : str := lit "tmp_" ++ toHex (randomBytes rnd).

(** The texts on the two sides of boundary [i], between [parts[i - 1]] and
    [parts[i]], with the stylesheet comments stripped. *)
Definition beforeCssAt (parts : list TemplatePart) (i : nat) : str :=
  replace comment [] (text (nth (i - 1) parts (Part [] 0 0))).
Definition afterCssAt (parts : list TemplatePart) (i : nat) : str :=
  replace comment [] (text (nth i parts (Part [] 0 0))).

Definition blank (s : str) : Prop := Forall (fun a => isSpace a = true) s.

(** [s] starts with [c], optionally preceded by white space. *)
Definition followedBy (c : ascii) (s : str) : Prop :=
  exists ws rest, s = ws ++ c :: rest /\ blank ws.

(** [s] ends with [c], optionally followed by white space. *)
Definition precededBy (c : ascii) (s : str) : Prop :=
  exists front ws, s = front ++ c :: ws /\ blank ws.

(** The positions of a boundary the classifier tells apart first. *)
Definition selectorPosition (parts : list TemplatePart) (i : nat) : Prop :=
  followedBy "{" (afterCssAt parts i).
Definition keyPosition (parts : list TemplatePart) (i : nat) : Prop :=
  followedBy ":" (afterCssAt parts i).
Definition rulePosition (parts : list TemplatePart) (i : nat) : Prop :=
  precededBy "}" (beforeCssAt parts i) \/ blank (beforeCssAt parts i).

(** The text of a part with the stylesheet comments stripped, and the
    test of the rule position as the loop writes it. *)
Definition stripped (part : TemplatePart) : str := replace comment [] (text part).

Definition isRuleTest (before : TemplatePart) : bool :=
  test ruleRe (stripped before) || (length (trim (stripped before)) =? 0).

(** The length of the longest part. *)
Definition longest (parts : list TemplatePart) : nat :=
  list_max (List.map (fun part => length (text part)) parts).

(** Inputs of the examples: a stylesheet template [css`${selector} {
    color: red; }`], and draws of the random source. *)
Definition selectorTemplate : list TemplatePart :=
  [Part [] 4 4; Part (lit " { color: red; }") 15 31].

Definition zeroBytes : list Byte.byte :=
  [Byte.x00; Byte.x00; Byte.x00; Byte.x00; Byte.x00; Byte.x00].

Definition zeroEntropy : Entropy := {| randomBytes := zeroBytes; randomInt := [] |}.

Definition otherEntropy : Entropy :=
  {| randomBytes := [Byte.x00; Byte.x00; Byte.x00; Byte.x00; Byte.x00; Byte.x01];
     randomInt := [] |}.

(** [css`a { color: ${value}; }`] *)
Definition valueTemplate : list TemplatePart :=
  [Part (lit "a { color: ") 4 15; Part (lit "; }") 23 26].

(** [css`#tmp_000000000000 { color: blue; } ${selector} { color: red; }`] *)
Definition collidingTemplate : list TemplatePart :=
  [Part (lit "#tmp_000000000000 { color: blue; } ") 4 39;
   Part (lit " { color: red; }") 50 66].

(** [css`a { width: ${width}px; height: 5px; }`], and a random source
    whose [randomInt] returns 5. *)
Definition unitTemplate : list TemplatePart :=
  [Part (lit "a { width: ") 4 15; Part (lit "px; height: 5px; }") 23 41].

Definition fiveEntropy : Entropy := {| randomBytes := zeroBytes; randomInt := [5%N] |}.

(** [s] without its line breaks. *)
Definition withoutLineBreaks (s : str) : str :=
  filter (fun c => negb (Ascii.eqb c LF || Ascii.eqb c CR)) s.

(** A stylesheet minifier that reports one warning and no error. *)
Definition warningCleanCSS (options : AdjustedCSSOptions unit) (css : str)
    : Result CleanCSSOutput :=
  Ok {| errors := []; warnings := [lit "Invalid property name"]; styles := css |}.

(** [token] lies inside a markup comment of [html]: behind an opening
    [<!--] with no closing [-->] in between, and before the closing one. *)
Definition insideMarkupComment (html token : str) : Prop :=
  exists front inner inner' back,
    html = front ++ lit "<!--" ++ inner ++ token ++ inner' ++ lit "-->" ++ back
    /\ ~ occursIn (inner ++ token) (lit "-->").

(** [html`<!--\n${expression}\n-->`], combined. *)
Definition commentedExpression : str :=
  lit "<!--" ++ [LF] ++ lit "@TEMPLATE_EXPRESSION();" ++ [LF] ++ lit "-->".

(** A markup minifier that removes comments, as far as the example needs
    it: a document that is one comment becomes empty. *)
Definition commentRemovingMinify (html : str) (options : HTMLOptions unit)
    (minifyCSS : option (AdjustedCSSOptions unit)) : Result str :=
  if startsWith html (lit "<!--") && endsWith html (lit "-->") then Ok [] else Ok html.

(** The number of indices at which [t] occurs in [s]. *)
Definition countOccurrences (s t : str) : nat :=
  length (filter (fun i => startsWith (skipn i s) t) (seq 0 (S (length s)))).

(** The tokens the combiner inserts for a template of [n] parts. *)
Definition insertedTokens (placeholder : Placeholder) (n : nat) : list str :=
  match placeholder with
  | Single token => repeat token (n - 1)
  | Multi tokens => tokens
  end.

(** A call-style token: [@], a body without [@], and the final semicolon. *)
Definition callToken (token : str) : Prop :=
  exists body, token = "@"%char :: body ++ [";"%char] /\ ~ In "@"%char body.

(** [html`<code>@TEMPLATE_EXPRESSION()</code>${expression}`] *)
Definition semicolonlessTemplate : list TemplatePart :=
  [Part (lit "<code>@TEMPLATE_EXPRESSION()</code>") 5 40; Part [] 53 53].

(** A plain edit buffer for the examples: the source and the overwrites,
    addressed by offsets of the source; [toString] reads the source with
    every overwritten range replaced. *)
Record Edit : Type := { from : nat; upto : nat; content : str }.

Fixpoint render (fuel : nat) (edits : list Edit) (i : nat) (s : str) : str :=
  match fuel with
  | 0 => s
  | S fuel' =>
      match find (fun e => (from e =? i) && (i <? upto e)) edits with
      | Some e => content e ++ render fuel' edits (upto e) (skipn (upto e - i) s)
      | None =>
          match s with
          | [] => []
          | c :: s' => c :: render fuel' edits (S i) s'
          end
      end
  end.

Definition plainBuffer : MagicStringLike unit := {|
  buffer := (str * list Edit)%type;
  new := fun source => (source, []);
  generateMap := fun _ _ => tt;
  overwrite := fun ms a b text => Ok (fst ms, snd ms ++ [{| from := a; upto := b; content := text |}]);
  toString := fun ms => render (S (length (fst ms))) (snd ms) 0 (fst ms)
|}.

(** [render(html`<p>  hi  </p>`)], its one template, and a markup minifier
    that drops white space. *)
Definition exampleSource : str := lit "render(html`<p>  hi  </p>`)".

Definition exampleParse (source : str) (options : ParseLiteralsOptions unit)
    : Result (list Template) :=
  Ok [{| parts := [Part (lit "<p>  hi  </p>") 12 25]; tag := Some (lit "html") |}].

Definition spaceDroppingMinify (html : str) (options : HTMLOptions unit)
    (minifyCSS : option (AdjustedCSSOptions unit)) : Result str :=
  Ok (filter (fun c => negb (isSpace c)) html).

Definition exampleOptions : Options unit unit unit := {|
  fileName := None;
  generateSourceMap := False_;
  MagicString := Some plainBuffer;
  parseLiterals := Some exampleParse;
  parseLiteralsOptions := None;
  shouldMinify := None;
  shouldMinifyCSS := None;
  validate := Absent;
  minifyOptions := None;
  strategy := None
|}.

(** Segments and tokens in turn: [s0 t0 s1 t1 ... sk]. *)
Fixpoint interleave (segments tokens : list str) : str :=
  match segments, tokens with
  | [], _ => []
  | segment :: _, [] => segment
  | segment :: segments', ph :: tokens' => segment ++ ph ++ interleave segments' tokens'
  end.

(* ================================================================== *)
(** * The older variant of the strategy *)
(* ================================================================== *)

(** The second half of [strategy.ts]: the strategy with a single-string
    placeholder.  Its [minifyHTML], [minifyCSS], [adjustMinifyCSSOptions]
    and [fixCleanCssTidySelectors] are those of the current variant but for
    the text of a warning. *)
Module Legacy.

Definition getPlaceholder (parts : list TemplatePart) : Result str :=
  let suffix := lit "();" in
  placeholder <- markupLoop (markupFuel parts) parts (lit "@TEMPLATE_EXPRESSION") suffix ;;
  Ok (placeholder ++ suffix).

Definition combineHTMLStrings (parts : list TemplatePart) (placeholder : str) : str :=
  join (List.map text parts) placeholder.

Definition splitHTMLByPlaceholder (html placeholder : str) : list str :=
  let parts := split html placeholder in
  if endsWith placeholder (lit ";") then
    let withoutSemicolon := substring placeholder 0 (length placeholder - 1) in
    spliceLoop (length parts) parts withoutSemicolon
  else parts.

End Legacy.

(* ================================================================== *)
(** * Further notions *)
(* ================================================================== *)

(** The candidates of the markup loop: the base token with [k] filler
    characters and the suffix. *)
Definition markupCandidate (k : nat) : str :=
  lit "@TEMPLATE_EXPRESSION" ++ repeat "_"%char k ++ lit "();".

(** [s] starts with a word character. *)
Definition startsWithWord (s : str) : Prop :=
  exists c rest, s = c :: rest /\ isWord c = true.

Definition unitPosition (parts : list TemplatePart) (i : nat) : Prop :=
  startsWithWord (afterCssAt parts i).

(** No line terminator in [s]. *)
Definition oneLine (s : str) : Prop := Forall (fun c => isDot c = true) s.

(** The base token between [<!--] and [-->] with no line terminator in
    between: what the pre-flight test of [minifyHTML] looks for. *)
Definition commentOnOneLine (html : str) : Prop :=
  exists front inner inner' back,
    html = front ++ lit "<!--" ++ inner ++ lit "@TEMPLATE_EXPRESSION();"
                 ++ inner' ++ lit "-->" ++ back
    /\ oneLine inner /\ oneLine inner'.

(** [token] does not occur in [segment ++ token] before its end. *)
Definition firstAtEnd (segment token : str) : Prop :=
  forall j, j < length segment -> ~ occursAt (segment ++ token) token j.

(** Segments with their tokens, segment by segment. *)
Inductive FirstAtEnds : list str -> list str -> Prop :=
| FirstAtEnds_nil (segments : list str) : FirstAtEnds segments []
| FirstAtEnds_cons (segment : str) (segments : list str) (ph : str) (tokens : list str) :
    firstAtEnd segment ph -> FirstAtEnds segments tokens ->
    FirstAtEnds (segment :: segments) (ph :: tokens).

(** The separators a markup minifier leaves of the inserted tokens: each
    one whole, or without its final semicolon when the text behind it does
    not start with a semicolon. *)
Inductive Stripped (token : str) : list str -> list str -> Prop :=
| Stripped_last (segment : str) : Stripped token [segment] []
| Stripped_whole (segment : str) (segments : list str) (separators : list str) :
    Stripped token segments separators ->
    Stripped token (segment :: segments) (token :: separators)
| Stripped_short (segment next : str) (segments : list str) (separators : list str) :
    Stripped token (next :: segments) separators ->
    startsWith next (lit ";") = false ->
    Stripped token (segment :: next :: segments) (removelast token :: separators).

(* ================================================================== *)
(** * Facts about the string primitives *)
(* ================================================================== *)

Unset Implicit Arguments.

Lemma ascii_eqb_true (a b : ascii) : Ascii.eqb a b = true <-> a = b.
Proof. apply Ascii.eqb_eq. Qed.

Lemma startsWith_app (t after : str) : startsWith (t ++ after) t = true.
Proof.
  induction t as [|b t IH]; simpl; [reflexivity|].
  now rewrite Ascii.eqb_refl, IH.
Qed.

Lemma startsWith_inv (s t : str) :
  startsWith s t = true -> exists after, s = t ++ after.
Proof.
  revert s; induction t as [|b t IH]; intros s H; simpl in *.
  - now exists s.
  - destruct s as [|a s]; [discriminate|].
    apply andb_true_iff in H as [Hab Hst].
    apply Ascii.eqb_eq in Hab; subst b.
    destruct (IH _ Hst) as [after ->]. now exists after.
Qed.

Lemma startsWith_iff (s t : str) :
  startsWith s t = true <-> exists after, s = t ++ after.
Proof.
  split; [apply startsWith_inv|].
  intros [after ->]. apply startsWith_app.
Qed.

Lemma occursAt_iff (s t : str) (i : nat) :
  occursAt s t i <-> i <= length s /\ startsWith (skipn i s) t = true.
Proof.
  split.
  - intros (before & after & -> & <-). split.
    + rewrite length_app. lia.
    + rewrite skipn_app, skipn_all, Nat.sub_diag. simpl. apply startsWith_app.
  - intros [Hle H]. apply startsWith_inv in H as [after Hafter].
    exists (firstn i s), after. split.
    + rewrite <- Hafter. symmetry. apply firstn_skipn.
    + apply firstn_length_le. exact Hle.
Qed.

Lemma occursAt_bound (s t : str) (i : nat) :
  occursAt s t i -> i + length t <= length s.
Proof.
  intros (before & after & -> & <-). rewrite !length_app. lia.
Qed.

(** [indexOfFrom] finds the first index of the suffix at which the
    pattern starts. *)
Lemma indexOfFrom_Some (s t : str) (i j : nat) :
  indexOfFrom s t i = Some j ->
  exists k, j = i + k /\ k <= length s
            /\ startsWith (skipn k s) t = true
            /\ forall k', k' < k -> startsWith (skipn k' s) t = false.
Proof.
  revert i; induction s as [|a s IH]; intros i H.
  - simpl in H. destruct (startsWith [] t) eqn:E; [|discriminate].
    injection H as <-. exists 0.
    split; [lia|]. split; [simpl; lia|]. split; [exact E|].
    intros k' Hk'. lia.
  - cbn [indexOfFrom] in H. destruct (startsWith (a :: s) t) eqn:E.
    + injection H as <-. exists 0.
      split; [lia|]. split; [simpl; lia|]. split; [exact E|].
      intros k' Hk'. lia.
    + apply IH in H as (k & -> & Hk & Hs & Hmin).
      exists (S k).
      split; [lia|]. split; [simpl; lia|]. split; [exact Hs|].
      intros [|k'] Hk'; simpl; [exact E|]. apply Hmin. lia.
Qed.

Lemma indexOfFrom_None (s t : str) (i : nat) :
  indexOfFrom s t i = None ->
  forall k, k <= length s -> startsWith (skipn k s) t = false.
Proof.
  revert i; induction s as [|a s IH]; intros i H k Hk.
  - simpl in *. destruct k; simpl; destruct (startsWith [] t); congruence || lia.
  - cbn [indexOfFrom] in H. destruct (startsWith (a :: s) t) eqn:E; [discriminate|].
    destruct k as [|k]; simpl; [exact E|].
    apply (IH _ H). simpl in Hk. lia.
Qed.

Lemma skipn_skipn_add (A : Type) (a b : nat) (l : list A) :
  skipn a (skipn b l) = skipn (b + a) l.
Proof.
  revert l; induction b as [|b IH]; intros l; simpl; [reflexivity|].
  destruct l; simpl; [now rewrite skipn_nil|]. apply IH.
Qed.

(** [indexOf] returns the next occurrence from the (clamped) position. *)
Lemma indexOf_Some (s t : str) (pos i : nat) :
  pos <= length s ->
  indexOf s t pos = Some i -> nextOccurrence s t pos i.
Proof.
  intros Hpos H. unfold indexOf in H.
  rewrite Nat.min_l in H by exact Hpos.
  apply indexOfFrom_Some in H as (k & -> & Hk & Hs & Hmin).
  rewrite length_skipn in Hk. rewrite skipn_skipn_add in Hs.
  split; [|split].
  - lia.
  - apply occursAt_iff. split; [lia|exact Hs].
  - intros j Hj1 Hj2 Hocc. apply occursAt_iff in Hocc as [_ Hocc].
    specialize (Hmin (j - pos) ltac:(lia)).
    rewrite skipn_skipn_add in Hmin.
    replace (pos + (j - pos)) with j in Hmin by lia. congruence.
Qed.

Lemma indexOf_None (s t : str) (pos : nat) :
  pos <= length s ->
  indexOf s t pos = None -> forall i, pos <= i -> ~ occursAt s t i.
Proof.
  intros Hpos H i Hi Hocc. unfold indexOf in H.
  rewrite Nat.min_l in H by exact Hpos.
  apply occursAt_iff in Hocc as [Hle Hocc].
  pose proof (indexOfFrom_None _ _ _ H (i - pos)) as Hn.
  rewrite length_skipn, skipn_skipn_add in Hn.
  replace (pos + (i - pos)) with i in Hn by lia.
  rewrite Hn in Hocc by lia. discriminate.
Qed.

Lemma nextOccurrence_unique (s t : str) (c i j : nat) :
  nextOccurrence s t c i -> nextOccurrence s t c j -> i = j.
Proof.
  intros (Hi1 & Hi2 & Hi3) (Hj1 & Hj2 & Hj3).
  destruct (Nat.lt_trichotomy i j) as [H|[H|H]]; [|exact H|].
  - exfalso. exact (Hj3 i Hi1 H Hi2).
  - exfalso. exact (Hi3 j Hj1 H Hj2).
Qed.

(** The converse: a next occurrence is what [indexOf] returns. *)
Lemma indexOf_complete (s t : str) (pos i : nat) :
  nextOccurrence s t pos i -> indexOf s t pos = Some i.
Proof.
  intros Hn.
  assert (Hpos : pos <= length s).
  { destruct Hn as (H1 & H2 & _). apply occursAt_bound in H2. lia. }
  destruct (indexOf s t pos) as [j|] eqn:E.
  - f_equal. eapply nextOccurrence_unique; [|exact Hn].
    now apply indexOf_Some.
  - exfalso. destruct Hn as (H1 & H2 & _).
    exact (indexOf_None _ _ _ Hpos E _ H1 H2).
Qed.

(* ================================================================== *)
(** * The multi-token splitter *)
(* ================================================================== *)

Lemma occursAt_skipn (s t : str) (i : nat) :
  occursAt s t i -> skipn i s = t ++ skipn (i + length t) s.
Proof.
  intros (before & after & -> & <-).
  rewrite skipn_app, skipn_all, Nat.sub_diag. simpl.
  rewrite skipn_app, skipn_all2 by lia. simpl.
  replace (length before + length t - length before) with (length t) by lia.
  rewrite skipn_app, skipn_all, Nat.sub_diag. reflexivity.
Qed.

Lemma slice_skipn (s : str) (c i : nat) :
  c <= i -> skipn c s = slice s c i ++ skipn i s.
Proof.
  intros Hci. unfold slice.
  replace (skipn i s) with (skipn (i - c) (skipn c s)).
  - symmetry. apply firstn_skipn.
  - rewrite skipn_skipn_add. f_equal. lia.
Qed.

Lemma Located_cursor (html : str) (c : nat) (tokens : list str) (c' : nat)
    (segments : list str) :
  Located html c tokens c' segments ->
  c <= length html -> c <= c' /\ c' <= length html.
Proof.
  induction 1 as [c|c ph i tokens c' segments Hnext _ IH]; intros Hc; [lia|].
  destruct Hnext as (Hci & Hocc & _).
  apply occursAt_bound in Hocc. specialize (IH ltac:(lia)). lia.
Qed.

Lemma Located_length (html : str) (c : nat) (tokens : list str) (c' : nat)
    (segments : list str) :
  Located html c tokens c' segments -> length segments = length tokens.
Proof. induction 1; simpl; congruence. Qed.

(** What the scan passes over, with the tokens put back, is the input from
    the cursor on. *)
Lemma Located_interleave (html : str) (c : nat) (tokens : list str) (c' : nat)
    (segments : list str) :
  Located html c tokens c' segments ->
  interleave (segments ++ [sliceFrom html c']) tokens = skipn c html.
Proof.
  induction 1 as [c|c ph i tokens c' segments Hnext _ IH]; [reflexivity|].
  destruct Hnext as (Hci & Hocc & _).
  simpl. rewrite IH, (slice_skipn html c i Hci), (occursAt_skipn _ _ _ Hocc).
  reflexivity.
Qed.

Lemma Located_functional (html : str) (c : nat) (tokens : list str)
    (c1 c2 : nat) (segs1 segs2 : list str) :
  Located html c tokens c1 segs1 -> Located html c tokens c2 segs2 ->
  c1 = c2 /\ segs1 = segs2.
Proof.
  intros H1; revert c2 segs2.
  induction H1 as [c|c ph i tokens c1 segs1 Hnext _ IH]; intros c2 segs2 H2;
    inversion H2; subst.
  - split; reflexivity.
  - match goal with
    | Hn : nextOccurrence html ph c ?j |- _ =>
        pose proof (nextOccurrence_unique _ _ _ _ _ Hnext Hn); subst j
    end.
    match goal with
    | Hl : Located html (i + length ph) tokens c2 ?s |- _ =>
        destruct (IH _ _ Hl) as [-> ->]
    end.
    split; reflexivity.
Qed.

(** The loop of the splitter computes the scan. *)
Lemma scanTokens_Located (html : str) (tokens : list str) (pos : nat)
    (acc : list str) (c : nat) (segments : list str) :
  Located html pos tokens c segments ->
  scanTokens html tokens pos acc = Ok (acc ++ segments ++ [sliceFrom html c]).
Proof.
  intros H; revert acc.
  induction H as [c|c ph i tokens c' segments Hnext _ IH]; intros acc; simpl.
  - reflexivity.
  - rewrite (indexOf_complete _ _ _ _ Hnext), IH, <- app_assoc. reflexivity.
Qed.

Lemma scanTokens_Ok (html : str) (tokens : list str) (pos : nat)
    (acc result : list str) :
  pos <= length html ->
  scanTokens html tokens pos acc = Ok result ->
  exists c segments,
    Located html pos tokens c segments
    /\ result = acc ++ segments ++ [sliceFrom html c].
Proof.
  revert pos acc; induction tokens as [|ph tokens IH]; intros pos acc Hpos H; simpl in H.
  - injection H as <-. exists pos, []. split; [constructor|reflexivity].
  - destruct (indexOf html ph pos) as [i|] eqn:E; [|discriminate].
    pose proof (indexOf_Some _ _ _ _ Hpos E) as Hnext.
    assert (Hb : i + length ph <= length html).
    { destruct Hnext as (_ & Hocc & _). now apply occursAt_bound. }
    destruct (IH _ _ Hb H) as (c & segments & Hloc & ->).
    exists c, (slice html pos i :: segments). split.
    + now constructor.
    + rewrite <- app_assoc. reflexivity.
Qed.

Lemma scanTokens_Throw (html : str) (tokens : list str) (pos : nat)
    (acc : list str) (message : str) :
  pos <= length html ->
  scanTokens html tokens pos acc = Throw message ->
  exists before ph after c segments,
    tokens = before ++ ph :: after
    /\ Located html pos before c segments
    /\ (forall i, c <= i -> ~ occursAt html ph i)
    /\ message = lit "placeholder " ++ ph ++ lit " not found in html " ++ html.
Proof.
  revert pos acc; induction tokens as [|ph tokens IH]; intros pos acc Hpos H; simpl in H.
  - discriminate.
  - destruct (indexOf html ph pos) as [i|] eqn:E.
    + pose proof (indexOf_Some _ _ _ _ Hpos E) as Hnext.
      assert (Hb : i + length ph <= length html).
      { destruct Hnext as (_ & Hocc & _). now apply occursAt_bound. }
      destruct (IH _ _ Hb H) as (before & ph' & after & c & segments & -> & Hloc & Hno & ->).
      exists (ph :: before), ph', after, c, (slice html pos i :: segments).
      split; [reflexivity|]. split; [now constructor|]. split; [exact Hno|reflexivity].
    + injection H as <-.
      exists [], ph, tokens, pos, [].
      split; [reflexivity|]. split; [constructor|].
      split; [exact (indexOf_None _ _ _ Hpos E)|reflexivity].
Qed.

Lemma scanTokens_missing (html : str) (before : list str) (ph : str)
    (after : list str) (pos c : nat) (segments acc : list str) :
  pos <= length html ->
  Located html pos before c segments ->
  (forall i, c <= i -> ~ occursAt html ph i) ->
  scanTokens html (before ++ ph :: after) pos acc
  = Throw (lit "placeholder " ++ ph ++ lit " not found in html " ++ html).
Proof.
  intros Hpos Hloc Hno; revert acc.
  induction Hloc as [c|c ph0 i tokens c' segments Hnext _ IH]; intros acc; simpl.
  - destruct (indexOf html ph c) as [i|] eqn:E; [|reflexivity].
    exfalso.
    destruct (indexOf_Some _ _ _ _ Hpos E) as (Hci & Hocc & _). exact (Hno i Hci Hocc).
  - rewrite (indexOf_complete _ _ _ _ Hnext). apply IH; [|exact Hno].
    destruct Hnext as (_ & Hocc & _). now apply occursAt_bound.
Qed.

Lemma scanTokens_not_Exhausted (html : str) (tokens : list str) (pos : nat)
    (acc : list str) :
  scanTokens html tokens pos acc <> Exhausted.
Proof.
  revert pos acc; induction tokens as [|ph tokens IH]; intros pos acc; simpl.
  - discriminate.
  - destruct (indexOf html ph pos); [apply IH|discriminate].
Qed.

(** C7. In multi-token mode the splitter is the left-to-right scan: it
    returns exactly when every token, in order, is located at its next
    occurrence from the cursor left behind the previous one (the segments
    being the texts passed over and the rest of the input), and it throws
    if and only if some token of the sequence has no occurrence at or after
    the cursor the tokens before it have left. *)
Theorem splitHTMLByPlaceholder_multi_scan (html : str) (tokens : list str) :
  (forall result,
      splitHTMLByPlaceholder html (Multi tokens) = Ok result
      <-> exists cursor segments,
            Located html 0 tokens cursor segments
            /\ result = segments ++ [sliceFrom html cursor])
  /\ ((exists message, splitHTMLByPlaceholder html (Multi tokens) = Throw message)
      <-> exists before ph after cursor segments,
            tokens = before ++ ph :: after
            /\ Located html 0 before cursor segments
            /\ forall i, cursor <= i -> ~ occursAt html ph i)
  /\ splitHTMLByPlaceholder html (Multi tokens) <> Exhausted.
Proof.
  unfold splitHTMLByPlaceholder. split; [|split].
  - intros result. split.
    + intros H. apply scanTokens_Ok in H; [|lia].
      destruct H as (c & segments & Hloc & ->). now exists c, segments.
    + intros (c & segments & Hloc & ->).
      now rewrite (scanTokens_Located _ _ _ [] _ _ Hloc).
  - split.
    + intros [message H]. apply scanTokens_Throw in H; [|lia].
      destruct H as (before & ph & after & c & segments & -> & Hloc & Hno & _).
      now exists before, ph, after, c, segments.
    + intros (before & ph & after & c & segments & -> & Hloc & Hno).
      eexists. apply (scanTokens_missing _ _ _ _ _ _ _ _ (Nat.le_0_l _) Hloc Hno).
  - apply scanTokens_not_Exhausted.
Qed.

(** C10. In multi-token mode, whenever the splitter returns, it returns
    one segment more than there are tokens, and the segments with the
    tokens put back between them, in order, are the input. *)
Theorem splitHTMLByPlaceholder_multi_lossless (html : str) (tokens : list str)
    (segments : list str) :
  splitHTMLByPlaceholder html (Multi tokens) = Ok segments ->
  length segments = length tokens + 1
  /\ interleave segments tokens = html.
Proof.
  unfold splitHTMLByPlaceholder. intros H.
  apply scanTokens_Ok in H; [|lia].
  destruct H as (c & segs & Hloc & ->). simpl. split.
  - rewrite length_app, (Located_length _ _ _ _ _ Hloc). reflexivity.
  - now rewrite (Located_interleave _ _ _ _ _ Hloc).
Qed.

Lemma splitHTMLByPlaceholder_multi_lossless_witness :
  splitHTMLByPlaceholder (lit "a{--t:1;b:var(--t)}") (Multi [lit "--t"; lit "var(--t)"])
  = Ok [lit "a{"; lit ":1;b:"; lit "}"]
  /\ length [lit "a{"; lit ":1;b:"; lit "}"] = length [lit "--t"; lit "var(--t)"] + 1
  /\ interleave [lit "a{"; lit ":1;b:"; lit "}"] [lit "--t"; lit "var(--t)"]
     = lit "a{--t:1;b:var(--t)}".
Proof.
  split; [reflexivity|].
  apply (splitHTMLByPlaceholder_multi_lossless
           (lit "a{--t:1;b:var(--t)}") [lit "--t"; lit "var(--t)"]).
  reflexivity.
Defined.

(* ================================================================== *)
(** * The validator *)
(* ================================================================== *)

Lemma forallb_nonempty (tokens : list str) :
  forallb (fun ph => 0 <? length ph) tokens = false <-> In [] tokens.
Proof.
  induction tokens as [|ph tokens IH]; simpl.
  - split; [discriminate|tauto].
  - destruct ph as [|c ph]; simpl.
    + split; auto.
    + rewrite IH. split; [auto|]. intros [H|H]; [discriminate|exact H].
Qed.

Lemma ensurePlaceholderValid_nonempty (placeholder : Placeholder) :
  ~ hasEmptyToken placeholder ->
  ensurePlaceholderValid defaultValidation placeholder = Ok tt.
Proof.
  destruct placeholder as [token|tokens]; simpl.
  - destruct token; [congruence|reflexivity].
  - intros H. destruct (forallb (fun ph => 0 <? length ph) tokens) eqn:E; [reflexivity|].
    apply forallb_nonempty in E. contradiction.
Qed.

(** C8. [ensurePlaceholderValid] throws exactly for a placeholder that is
    an empty string or an array with an empty string in it, and returns
    for every other placeholder. *)
Theorem ensurePlaceholderValid_exact (placeholder : Placeholder) :
  (hasEmptyToken placeholder <->
   ensurePlaceholderValid defaultValidation placeholder
   = Throw (lit "getPlaceholder() must return a non-empty string | string[]"))
  /\ (~ hasEmptyToken placeholder <->
      ensurePlaceholderValid defaultValidation placeholder = Ok tt).
Proof.
  assert (Hcases :
    (hasEmptyToken placeholder
     /\ ensurePlaceholderValid defaultValidation placeholder
        = Throw (lit "getPlaceholder() must return a non-empty string | string[]"))
    \/ (~ hasEmptyToken placeholder
        /\ ensurePlaceholderValid defaultValidation placeholder = Ok tt)).
  { destruct placeholder as [token|tokens]; simpl.
    - destruct token as [|c token]; simpl.
      + left. split; reflexivity.
      + right. split; [discriminate|reflexivity].
    - destruct (forallb (fun ph => 0 <? length ph) tokens) eqn:E.
      + right. split; [|reflexivity].
        intros H. apply forallb_nonempty in H. congruence.
      + left. split; [|reflexivity]. now apply forallb_nonempty. }
  destruct Hcases as [[H1 H2]|[H1 H2]]; rewrite H2.
  - split; split; intros; try reflexivity; try assumption;
      try discriminate; try contradiction.
  - split; split; intros; try reflexivity; try assumption;
      try discriminate; try contradiction.
Qed.

(* ================================================================== *)
(** * The orchestrator: signalling that nothing changed *)
(* ================================================================== *)

Lemma strictEq_spec (s t : str) : strictEq s t = true <-> s = t.
Proof.
  revert t; induction s as [|a s IH]; intros [|b t]; simpl;
    try (split; [discriminate|congruence]); [tauto|].
  rewrite andb_true_iff, Ascii.eqb_eq, IH.
  split; [intros [-> ->]; reflexivity|intros H; injection H; auto].
Qed.

Section NoChange.

Variable C : Type.
Variable emptyCSSOptions : C.
Variable minify : str -> HTMLOptions C -> option (AdjustedCSSOptions C) -> Result str.
Variable cleanCSS : AdjustedCSSOptions C -> str -> Result CleanCSSOutput.
Variable SourceMap : Type.
Variable P : Type.
Variable MagicString_import : MagicStringLike SourceMap.
Variable parseLiterals_import : str -> ParseLiteralsOptions P -> Result (list Template).

Abbreviation Options := (Options C SourceMap P).
Abbreviation run := (minifyHTMLLiterals emptyCSSOptions minify cleanCSS
                   MagicString_import parseLiterals_import).
Abbreviation finalBuffer := (minifiedBuffer emptyCSSOptions minify cleanCSS
                           MagicString_import parseLiterals_import).
Abbreviation bufferOf := (resolveMagicString MagicString_import).

(** A template that does not qualify leaves the buffer as it is. *)
Lemma minifyTemplates_none_qualifies (cls : MagicStringLike SourceMap)
    (strategy : Strategy.Strategy C) (shouldMinify shouldMinifyCSS : Template -> bool)
    (validate : option Validation) (skipCSS skipHTML : bool)
    (minifyOptions : HTMLOptions C) (rnd : nat -> Entropy) (templates : list Template) :
  Forall (fun template =>
            qualifies strategy shouldMinify shouldMinifyCSS skipCSS skipHTML template
            = false) templates ->
  forall (i : nat) (ms : buffer cls),
    minifyTemplates cls strategy shouldMinify shouldMinifyCSS validate
      skipCSS skipHTML minifyOptions rnd i ms templates = Ok ms.
Proof.
  induction 1 as [|template templates Hq _ IH]; intros i ms; simpl; [reflexivity|].
  unfold minifyTemplate. unfold qualifies in Hq. rewrite Hq. simpl. apply IH.
Qed.

(** C9. Whatever the source and the options: when the run reaches its
    end with a buffer whose text is the source, the result is [null]; when
    the text differs, the result carries that text as its [code], which is
    not the source; and when no template qualifies for minification (the
    buffer of an untouched source reading back as the source), the result
    is [null] as well.  A result is never a copy of the source. *)
Theorem minifyHTMLLiterals_no_change (rnd : nat -> Entropy) (source : str)
    (options : Options) :
  (forall ms,
      finalBuffer rnd source options = Ok ms ->
      (toString (bufferOf options) ms = source -> run rnd source options = Ok None)
      /\ (toString (bufferOf options) ms <> source ->
          exists result,
            run rnd source options = Ok (Some result)
            /\ code result = toString (bufferOf options) ms
            /\ code result <> source))
  /\ (forall templates,
         parsedTemplates parseLiterals_import source options = Ok templates ->
         Forall (fun template =>
                   templateQualifies emptyCSSOptions minify cleanCSS source options template
                   = false) templates ->
         toString (bufferOf options) (new (bufferOf options) source) = source ->
         run rnd source options = Ok None)
  /\ (forall result,
         run rnd source options = Ok (Some result) -> code result <> source).
Proof.
  assert (Hrun : forall ms,
    finalBuffer rnd source options = Ok ms ->
    (toString (bufferOf options) ms = source -> run rnd source options = Ok None)
    /\ (toString (bufferOf options) ms <> source ->
        exists result,
          run rnd source options = Ok (Some result)
          /\ code result = toString (bufferOf options) ms
          /\ code result <> source)).
  { intros ms Hms. unfold minifyHTMLLiterals. rewrite Hms. simpl. split.
    - intros Heq.
      destruct (strictEq source (toString (bufferOf options) ms)) eqn:E; [reflexivity|].
      assert (strictEq source (toString (bufferOf options) ms) = true)
        by (apply strictEq_spec; congruence).
      congruence.
    - intros Hne.
      destruct (strictEq source (toString (bufferOf options) ms)) eqn:E.
      + apply strictEq_spec in E. congruence.
      + eexists. split; [reflexivity|]. simpl. split; [reflexivity|exact Hne]. }
  split; [exact Hrun|]. split.
  - intros templates Hparse Hnone Hfresh.
    apply (Hrun (new (bufferOf options) source)); [|exact Hfresh].
    unfold minifiedBuffer. rewrite Hparse. simpl.
    apply minifyTemplates_none_qualifies. exact Hnone.
  - intros result Hres. unfold minifyHTMLLiterals in Hres.
    destruct (finalBuffer rnd source options) as [ms| |] eqn:Hms; simpl in Hres;
      try discriminate.
    destruct (strictEq source (toString (bufferOf options) ms)) eqn:E; [discriminate|].
    injection Hres as <-. simpl. intros Heq.
    assert (strictEq source (toString (bufferOf options) ms) = true)
      by (apply strictEq_spec; congruence).
    congruence.
Qed.

End NoChange.

(* ================================================================== *)
(** * Facts about the regular expressions *)
(* ================================================================== *)

Lemma orElse_some {A : Type} (x y : option A) :
  orElse x y <> None <-> x <> None \/ y <> None.
Proof. destruct x, y; simpl; split; intros; try tauto; try (left; discriminate);
       try (right; discriminate); try discriminate; intuition congruence. Qed.

(** [p*] followed by [k] matches exactly when [k] matches behind some run
    of [p]; greedy or lazy only changes which match is the first. *)
Lemma star_some {R : Type} (greedy : bool) (p : ascii -> bool)
    (k : nat -> str -> option R) (i : nat) (s : str) :
  star greedy p k i s <> None
  <-> exists run rest,
        s = run ++ rest /\ Forall (fun a => p a = true) run
        /\ k (i + length run) rest <> None.
Proof.
  revert i; induction s as [|c s IH]; intros i; simpl.
  - split.
    + intros H. exists [], []. simpl. rewrite Nat.add_0_r. auto.
    + intros (run & rest & Hs & _ & Hk).
      symmetry in Hs. apply app_eq_nil in Hs as [-> ->].
      simpl in Hk. now rewrite Nat.add_0_r in Hk.
  - assert (Hzero : k i (c :: s) <> None ->
              exists run rest, c :: s = run ++ rest
                /\ Forall (fun a => p a = true) run /\ k (i + length run) rest <> None).
    { intros H. exists [], (c :: s). simpl. rewrite Nat.add_0_r. auto. }
    assert (Hmore : p c = true -> star greedy p k (S i) s <> None ->
              exists run rest, c :: s = run ++ rest
                /\ Forall (fun a => p a = true) run /\ k (i + length run) rest <> None).
    { intros Hc H. apply IH in H as (run & rest & -> & Hrun & Hk).
      exists (c :: run), rest. simpl.
      replace (i + S (length run)) with (S i + length run) by lia. auto. }
    assert (Hback : (exists run rest, c :: s = run ++ rest
                /\ Forall (fun a => p a = true) run /\ k (i + length run) rest <> None) ->
              k i (c :: s) <> None \/ (p c = true /\ star greedy p k (S i) s <> None)).
    { intros (run & rest & Hs & Hrun & Hk). destruct run as [|a run]; simpl in *.
      - subst rest. rewrite Nat.add_0_r in Hk. now left.
      - injection Hs as <- ->. inversion Hrun; subst. right. split; [assumption|].
        apply IH. exists run, rest.
        replace (S i + length run) with (i + S (length run)) by lia. auto. }
    destruct (p c) eqn:Hc.
    + destruct greedy; rewrite orElse_some; split;
        try (intros [H|H]; auto);
        try (intros H; apply Hback in H as [H|[_ H]]; auto).
    + split; [exact Hzero|].
      intros H. apply Hback in H as [H|[H _]]; [exact H|discriminate].
Qed.

Lemma searchFrom_some (r : regex) (i : nat) (s : str) :
  searchFrom r i s <> None
  <-> exists k, k <= length s /\ exec r [] (i + k) (skipn k s) <> None.
Proof.
  revert i; induction s as [|c s IH]; intros i; cbn [searchFrom].
  - destruct (exec r [] i []) as [[e ms]|] eqn:E.
    + split; [|discriminate]. intros _. exists 0. simpl. rewrite Nat.add_0_r, E.
      split; [lia|discriminate].
    + split; [congruence|]. intros (k & Hk & H). simpl in Hk.
      assert (k = 0) by lia. subst k. simpl in H. rewrite Nat.add_0_r in H. congruence.
  - destruct (exec r [] i (c :: s)) as [[e ms]|] eqn:E.
    + split; [|discriminate]. intros _. exists 0. simpl. rewrite Nat.add_0_r, E.
      split; [lia|discriminate].
    + rewrite IH. split.
      * intros (k & Hk & H). exists (S k). rewrite Nat.add_succ_r.
        split; [simpl; lia|exact H].
      * intros (k & Hk & H). destruct k as [|k].
        -- simpl in H. rewrite Nat.add_0_r in H. congruence.
        -- exists k. rewrite Nat.add_succ_r in H.
           split; [simpl in Hk; lia|exact H].
Qed.

Lemma test_some (r : regex) (s : str) :
  test r s = true
  <-> exists k, k <= length s /\ exec r [] k (skipn k s) <> None.
Proof.
  unfold test, search. simpl.
  pose proof (searchFrom_some r 0 s) as H. simpl in H.
  destruct (searchFrom r 0 s); split; intros H'; try reflexivity; try discriminate.
  - apply H. discriminate.
  - apply H in H'. congruence.
Qed.

(** [/^\s*c/] for a code unit [c]. *)
Lemma test_followedBy (c : ascii) (s : str) :
  test [Bol; Star true isSpace; Chr c] s = true <-> followedBy c s.
Proof.
  rewrite test_some. split.
  - intros (k & Hk & H). cbn [exec] in H.
    destruct k as [|k]; simpl in H; [|congruence].
    apply star_some in H as (ws & rest & Hs & Hws & H).
    destruct rest as [|c' rest]; [congruence|].
    destruct (Ascii.eqb c' c) eqn:E; [|congruence].
    apply Ascii.eqb_eq in E. subst c'. now exists ws, rest.
  - intros (ws & rest & -> & Hws). exists 0. split; [lia|].
    cbn [exec skipn]. simpl. apply star_some.
    exists ws, (c :: rest). split; [reflexivity|]. split; [exact Hws|].
    rewrite Ascii.eqb_refl. discriminate.
Qed.

(** [/c\s*$/] for a code unit [c]. *)
Lemma test_precededBy (c : ascii) (s : str) :
  test [Chr c; Star true isSpace; Eol] s = true <-> precededBy c s.
Proof.
  rewrite test_some. split.
  - intros (k & Hk & H). cbn [exec] in H.
    destruct (skipn k s) as [|c' rest] eqn:Hs; [congruence|].
    destruct (Ascii.eqb c' c) eqn:E; [|congruence].
    apply Ascii.eqb_eq in E. subst c'.
    apply star_some in H as (ws & rest' & -> & Hws & H).
    destruct rest'; [|congruence].
    exists (firstn k s), ws. split; [|exact Hws].
    rewrite <- (firstn_skipn k s) at 1. rewrite Hs, app_nil_r. reflexivity.
  - intros (front & ws & -> & Hws). exists (length front). split.
    + rewrite length_app. lia.
    + rewrite skipn_app, skipn_all, Nat.sub_diag. cbn [exec skipn app].
      rewrite Ascii.eqb_refl. apply star_some.
      exists ws, []. split; [now rewrite app_nil_r|]. split; [exact Hws|discriminate].
Qed.

Lemma dropWhile_nil (p : ascii -> bool) (s : str) :
  dropWhile p s = [] <-> Forall (fun a => p a = true) s.
Proof.
  induction s as [|c s IH]; simpl.
  - split; auto.
  - destruct (p c) eqn:E.
    + rewrite IH. split; [auto|]. now inversion 1.
    + split; [discriminate|]. inversion 1; congruence.
Qed.

(** [s.trim().length === 0] *)
Lemma trim_blank (s : str) : (length (trim s) =? 0) = true <-> blank s.
Proof.
  unfold trim, blank. rewrite Nat.eqb_eq, length_rev, length_zero_iff_nil.
  split.
  - intros H. apply dropWhile_nil.
    destruct (dropWhile isSpace s) as [|c t] eqn:E; [reflexivity|].
    exfalso. apply dropWhile_nil in H.
    apply Forall_rev in H. rewrite rev_involutive in H.
    assert (Hc : isSpace c = true) by now inversion H.
    clear H. induction s as [|a s IH]; simpl in E; [discriminate|].
    destruct (isSpace a) eqn:Ea; [now apply IH|]. congruence.
  - intros H. apply dropWhile_nil in H. rewrite H. reflexivity.
Qed.

(* ================================================================== *)
(** * The placeholder generator, stylesheet mode *)
(* ================================================================== *)

Ltac css_step H :=
  cbn [cssLoop] in H; cbv zeta in H;
  repeat match type of H with
         | context [replace comment [] (text ?p)] =>
             change (replace comment [] (text p)) with (stripped p) in H
         end.

(** When the loop returns an array, it holds one token for each boundary,
    and the token of a boundary in selector position is [#] and the random
    base. *)
Lemma cssLoop_Multi (random : str) (rest : list TemplatePart) :
  forall (ints : list N) (before : TemplatePart) (acc tokens : list str),
    cssLoop random ints before rest acc = Ok (Multi tokens) ->
    exists fresh,
      tokens = acc ++ fresh /\ length fresh = length rest
      /\ forall j after,
           nth_error rest j = Some after ->
           test selectorRe (stripped after) = true ->
           nth_error fresh j = Some (lit "#" ++ random).
Proof.
  induction rest as [|after rest IH]; intros ints before acc tokens H.
  - simpl in H. injection H as <-. exists []. rewrite app_nil_r.
    split; [reflexivity|]. split; [reflexivity|]. intros [|j] a Hj; discriminate.
  - css_step H.
    assert (Hgo : forall ints' tok,
              cssLoop random ints' after rest (acc ++ [tok]) = Ok (Multi tokens) ->
              (test selectorRe (stripped after) = true -> tok = lit "#" ++ random) ->
              exists fresh,
                tokens = acc ++ fresh /\ length fresh = length (after :: rest)
                /\ forall j a,
                     nth_error (after :: rest) j = Some a ->
                     test selectorRe (stripped a) = true ->
                     nth_error fresh j = Some (lit "#" ++ random)).
    { intros ints' tok Hloop Htok.
      destruct (IH _ _ _ _ Hloop) as (fresh & -> & Hlen & Hsel).
      exists (tok :: fresh). rewrite <- app_assoc. split; [reflexivity|].
      split; [simpl; congruence|].
      intros [|j] a Hj Ha; simpl in *.
      - injection Hj as <-. now rewrite Htok.
      - now apply Hsel with (after := a). }
    destruct (test selectorRe (stripped after)) eqn:Esel.
    { apply (Hgo _ _ H). reflexivity. }
    destruct (test keyRe (stripped after)) eqn:Ekey.
    { apply (Hgo _ _ H). discriminate. }
    destruct (test ruleRe (stripped before) || (length (trim (stripped before)) =? 0)).
    { discriminate. }
    destruct (test unitRe (stripped after)).
    { unfold bind in H. destruct (drawNum ints (text before)) as [[num ints']| |];
        try discriminate.
      apply (Hgo _ _ H). discriminate. }
    destruct (test valueRe (stripped before)); apply (Hgo _ _ H); discriminate.
Qed.

(** The loop returns a single token only from a boundary in rule
    position that is neither in selector nor in key position. *)
Lemma cssLoop_Single (random : str) (rest : list TemplatePart) :
  forall (ints : list N) (before : TemplatePart) (acc : list str) (token : str),
    cssLoop random ints before rest acc = Ok (Single token) ->
    token = lit "@" ++ random ++ lit "();"
    /\ exists j b a,
         nth_error (before :: rest) j = Some b /\ nth_error rest j = Some a
         /\ test selectorRe (stripped a) = false
         /\ test keyRe (stripped a) = false
         /\ isRuleTest b = true.
Proof.
  induction rest as [|after rest IH]; intros ints before acc token H.
  - discriminate.
  - css_step H.
    assert (Hgo : forall ints' acc',
              cssLoop random ints' after rest acc' = Ok (Single token) ->
              token = lit "@" ++ random ++ lit "();"
              /\ exists j b a,
                   nth_error (before :: after :: rest) j = Some b
                   /\ nth_error (after :: rest) j = Some a
                   /\ test selectorRe (stripped a) = false
                   /\ test keyRe (stripped a) = false
                   /\ isRuleTest b = true).
    { intros ints' acc' Hloop.
      destruct (IH _ _ _ _ Hloop) as (-> & j & b & a & Hb & Ha & Hrest).
      split; [reflexivity|]. now exists (S j), b, a. }
    destruct (test selectorRe (stripped after)) eqn:Esel; [now apply (Hgo _ _ H)|].
    destruct (test keyRe (stripped after)) eqn:Ekey; [now apply (Hgo _ _ H)|].
    destruct (test ruleRe (stripped before) || (length (trim (stripped before)) =? 0))
      eqn:Erule.
    { injection H as <-. split; [reflexivity|].
      exists 0, before, after. simpl. auto. }
    destruct (test unitRe (stripped after)).
    { unfold bind in H. destruct (drawNum ints (text before)) as [[num ints']| |];
        try discriminate.
      now apply (Hgo _ _ H). }
    destruct (test valueRe (stripped before)); now apply (Hgo _ _ H).
Qed.

Lemma cssLoop_selectors (random : str) (rest : list TemplatePart) :
  Forall (fun after => test selectorRe (stripped after) = true) rest ->
  forall (ints : list N) (before : TemplatePart) (acc : list str),
    cssLoop random ints before rest acc
    = Ok (Multi (acc ++ repeat (lit "#" ++ random) (length rest))).
Proof.
  induction 1 as [|after rest Hsel _ IH]; intros ints before acc.
  - simpl. now rewrite app_nil_r.
  - cbn [cssLoop]. cbv zeta. unfold stripped in Hsel. rewrite Hsel, IH, <- app_assoc.
    reflexivity.
Qed.

Lemma isRuleTest_position (parts : list TemplatePart) (i : nat) (b : TemplatePart) :
  nth_error parts (i - 1) = Some b ->
  isRuleTest b = true -> rulePosition parts i.
Proof.
  intros Hb H. unfold rulePosition, beforeCssAt.
  rewrite (nth_error_nth _ _ _ Hb). fold (stripped b).
  unfold isRuleTest in H. apply orb_true_iff in H as [H|H].
  - left. now apply test_precededBy.
  - right. now apply trim_blank.
Qed.

Lemma selector_test_position (parts : list TemplatePart) (i : nat) (a : TemplatePart) :
  nth_error parts i = Some a ->
  test selectorRe (stripped a) = true <-> selectorPosition parts i.
Proof.
  intros Ha. unfold selectorPosition, afterCssAt.
  rewrite (nth_error_nth _ _ _ Ha). apply test_followedBy.
Qed.

Lemma key_test_position (parts : list TemplatePart) (i : nat) (a : TemplatePart) :
  nth_error parts i = Some a ->
  test keyRe (stripped a) = true <-> keyPosition parts i.
Proof.
  intros Ha. unfold keyPosition, afterCssAt.
  rewrite (nth_error_nth _ _ _ Ha). apply test_followedBy.
Qed.

(** C4, as the code has it.  In stylesheet mode a boundary in selector
    position (followed by an opening brace, optionally preceded by white
    space, comments stripped) does not end the classification: in the
    returned array its token is [#] followed by the random base, and when
    all boundaries are in selector position the array holds that token once
    for each.  The single call-style token, [@], the random base and [();],
    comes from a boundary in rule position that is neither in selector nor
    in key position. *)
Theorem getPlaceholder_selector_token (rnd : Entropy) (parts : list TemplatePart)
    (tag : option str) :
  isCssTag tag = true ->
  (forall tokens,
      getPlaceholder rnd parts tag = Ok (Multi tokens) ->
      length tokens = length parts - 1
      /\ forall i, 1 <= i < length parts -> selectorPosition parts i ->
                   nth_error tokens (i - 1) = Some (lit "#" ++ cssRandom rnd))
  /\ (forall token,
         getPlaceholder rnd parts tag = Ok (Single token) ->
         token = lit "@" ++ cssRandom rnd ++ lit "();"
         /\ exists i, 1 <= i < length parts
                      /\ rulePosition parts i
                      /\ ~ selectorPosition parts i /\ ~ keyPosition parts i)
  /\ ((forall i, 1 <= i < length parts -> selectorPosition parts i) ->
      getPlaceholder rnd parts tag
      = Ok (Multi (repeat (lit "#" ++ cssRandom rnd) (length parts - 1)))).
Proof.
  intros Hcss. unfold getPlaceholder. rewrite Hcss. fold (cssRandom rnd).
  destruct parts as [|first rest].
  - split; [|split].
    + intros tokens H. injection H as <-. split; [reflexivity|]. simpl. lia.
    + discriminate.
    + reflexivity.
  - split; [|split].
    + intros tokens H. apply cssLoop_Multi in H as (fresh & -> & Hlen & Hsel).
      simpl. split; [lia|].
      intros i Hi Hpos.
      destruct (nth_error rest (i - 1)) as [a|] eqn:Ha.
      * apply (Hsel _ _ Ha).
        apply (selector_test_position (first :: rest) i a); [|exact Hpos].
        destruct i as [|i]; [lia|]. simpl in *. now rewrite Nat.sub_0_r in Ha.
      * apply nth_error_None in Ha. simpl in Hi. lia.
    + intros token H.
      apply cssLoop_Single in H as (-> & j & b & a & Hb & Ha & Hsel & Hkey & Hrule).
      split; [reflexivity|]. exists (S j).
      assert (Hj : j < length rest) by (apply nth_error_Some; congruence).
      split; [simpl; lia|]. split; [|split].
      * apply (isRuleTest_position _ _ b); [|exact Hrule].
        simpl. now rewrite Nat.sub_0_r.
      * intros Hpos. apply (selector_test_position (first :: rest) (S j) a) in Hpos;
          [congruence|exact Ha].
      * intros Hpos. apply (key_test_position (first :: rest) (S j) a) in Hpos;
          [congruence|exact Ha].
    + intros Hall. simpl. rewrite Nat.sub_0_r.
      apply (cssLoop_selectors (cssRandom rnd) rest).
      apply Forall_forall. intros a Hin.
      apply In_nth_error in Hin as [j Hj].
      assert (Hlt : j < length rest) by (apply nth_error_Some; congruence).
      apply (selector_test_position (first :: rest) (S j) a); [exact Hj|].
      apply Hall. simpl. lia.
Qed.

Lemma getPlaceholder_selector_token_witness :
  isCssTag (Some (lit "css")) = true
  /\ getPlaceholder zeroEntropy selectorTemplate (Some (lit "css"))
     = Ok (Multi (repeat (lit "#" ++ cssRandom zeroEntropy) (length selectorTemplate - 1))).
Proof.
  split; [reflexivity|].
  apply (getPlaceholder_selector_token zeroEntropy selectorTemplate (Some (lit "css")));
    [reflexivity|].
  intros i Hi. assert (i = 1) by (simpl in Hi; lia). subst i.
  apply (selector_test_position selectorTemplate 1 (Part (lit " { color: red; }") 15 31));
    reflexivity.
Defined.

(** C4 as stated fails: the boundary of [selectorTemplate] is
    in selector position, and the generator returns an array with the
    selector-shaped token, not a single call-style token. *)
Lemma selector_short_circuit_counterexample :
  isCssTag (Some (lit "css")) = true
  /\ selectorPosition selectorTemplate 1
  /\ getPlaceholder zeroEntropy selectorTemplate (Some (lit "css"))
     = Ok (Multi [lit "#tmp_000000000000"])
  /\ ~ exists token,
         getPlaceholder zeroEntropy selectorTemplate (Some (lit "css"))
         = Ok (Single token).
Proof.
  split; [reflexivity|]. split; [|split].
  - apply (selector_test_position selectorTemplate 1 (Part (lit " { color: red; }") 15 31));
      reflexivity.
  - reflexivity.
  - intros [token H]. vm_compute in H. discriminate.
Qed.

(* ================================================================== *)
(** * The placeholder generator, markup mode *)
(* ================================================================== *)

Lemma includes_occursIn (s t : str) : includes s t = true <-> occursIn s t.
Proof.
  unfold includes, occursIn. destruct (indexOf s t 0) as [i|] eqn:E.
  - split; [|reflexivity]. intros _. exists i.
    apply (indexOf_Some s t 0 i (Nat.le_0_l _) E).
  - split; [discriminate|]. intros [i Hi].
    exfalso. exact (indexOf_None s t 0 (Nat.le_0_l _) E i (Nat.le_0_l _) Hi).
Qed.

Lemma occursIn_length (s t : str) : occursIn s t -> length t <= length s.
Proof. intros [i Hi]. apply occursAt_bound in Hi. lia. Qed.

Lemma longest_bound (parts : list TemplatePart) (part : TemplatePart) :
  In part parts -> length (text part) <= longest parts.
Proof.
  intros Hin. unfold longest.
  assert (H : Forall (fun n => n <= list_max (List.map (fun part => length (text part)) parts))
                     (List.map (fun part => length (text part)) parts))
    by (apply list_max_le; lia).
  rewrite Forall_forall in H. apply H.
  apply (in_map (fun part => length (text part))). exact Hin.
Qed.

(** A candidate longer than every part ends the loop. *)
Lemma existsb_includes_long (parts : list TemplatePart) (candidate : str) :
  longest parts < length candidate ->
  existsb (fun part => includes (text part) candidate) parts = false.
Proof.
  intros Hlong. apply not_true_is_false. intros H.
  apply existsb_exists in H as (part & Hin & Hinc).
  apply includes_occursIn, occursIn_length in Hinc.
  pose proof (longest_bound _ _ Hin). lia.
Qed.

Lemma markupLoop_returns (parts : list TemplatePart) (suffix : str) (fuel : nat) :
  forall placeholder,
    longest parts < length (placeholder ++ suffix) + fuel ->
    exists result, markupLoop (S fuel) parts placeholder suffix = Ok result.
Proof.
  induction fuel as [|fuel IH]; intros placeholder Hlen; cbn [markupLoop].
  - rewrite existsb_includes_long by lia. now exists placeholder.
  - destruct (existsb _ parts); [|now exists placeholder].
    apply IH. rewrite !length_app in *. simpl. lia.
Qed.

(** What the loop returns is the first candidate that is in no part. *)
Lemma markupLoop_Ok (parts : list TemplatePart) (suffix : str) (fuel : nat) :
  forall placeholder result,
    markupLoop fuel parts placeholder suffix = Ok result ->
    (exists k, result = placeholder ++ repeat "_"%char k)
    /\ existsb (fun part => includes (text part) (result ++ suffix)) parts = false.
Proof.
  induction fuel as [|fuel IH]; intros placeholder result H; cbn [markupLoop] in H.
  - discriminate.
  - destruct (existsb _ parts) eqn:E.
    + apply IH in H as [[k ->] Hfree]. split; [|exact Hfree].
      exists (S k). rewrite <- app_assoc. reflexivity.
    + injection H as <-. split; [|exact E]. exists 0. now rewrite app_nil_r.
Qed.

(** More rounds than needed change nothing. *)
Lemma markupLoop_more_fuel (parts : list TemplatePart) (suffix : str) (fuel extra : nat) :
  forall placeholder result,
    markupLoop fuel parts placeholder suffix = Ok result ->
    markupLoop (fuel + extra) parts placeholder suffix = Ok result.
Proof.
  induction fuel as [|fuel IH]; intros placeholder result H; cbn [markupLoop] in H.
  - discriminate.
  - cbn [Nat.add markupLoop]. destruct (existsb _ parts); [now apply IH|exact H].
Qed.

(** In markup mode the generator returns, whatever the random source, the
    base token with as many filler characters as it takes for the token to
    be in no part. *)
Lemma getPlaceholder_markup (rnd : Entropy) (parts : list TemplatePart)
    (tag : option str) :
  isCssTag tag = false ->
  exists k,
    getPlaceholder rnd parts tag
    = Ok (Single (lit "@TEMPLATE_EXPRESSION" ++ repeat "_"%char k ++ lit "();"))
    /\ forall part, In part parts ->
         ~ occursIn (text part)
             (lit "@TEMPLATE_EXPRESSION" ++ repeat "_"%char k ++ lit "();").
Proof.
  intros Hcss. unfold getPlaceholder. rewrite Hcss.
  destruct (markupLoop_returns parts (lit "();") (longest parts)
              (lit "@TEMPLATE_EXPRESSION")) as [result Hres].
  { rewrite length_app. simpl. lia. }
  unfold markupFuel. fold (longest parts). rewrite Hres. simpl.
  apply markupLoop_Ok in Hres as [[k ->] Hfree].
  exists k. rewrite <- app_assoc. split; [reflexivity|].
  intros part Hin Hocc. apply includes_occursIn in Hocc.
  assert (existsb (fun part => includes (text part)
            ((lit "@TEMPLATE_EXPRESSION" ++ repeat "_"%char k) ++ lit "();")) parts = true).
  { apply existsb_exists. exists part. rewrite <- app_assoc. auto. }
  congruence.
Qed.

Lemma getPlaceholder_markup_deterministic (rnd1 rnd2 : Entropy)
    (parts : list TemplatePart) (tag : option str) :
  isCssTag tag = false ->
  getPlaceholder rnd1 parts tag = getPlaceholder rnd2 parts tag.
Proof. intros Hcss. unfold getPlaceholder. now rewrite Hcss. Qed.

(* ================================================================== *)
(** * The placeholder generator: what the random tokens do not ensure *)
(* ================================================================== *)

(** C2 at a failing input.  The stylesheet branch tests no token built on
    the random base against the text: when [randomBytes] returns six zero
    bytes, the token of [collidingTemplate] occurs in its first part, and
    the splitter cuts the combined string inside that part. *)
Theorem getPlaceholder_css_collision :
  getPlaceholder zeroEntropy collidingTemplate (Some (lit "css"))
  = Ok (Multi [lit "#tmp_000000000000"])
  /\ occursIn (text (nth 0 collidingTemplate (Part [] 0 0))) (lit "#tmp_000000000000")
  /\ splitHTMLByPlaceholder
       (combineHTMLStrings collidingTemplate (Multi [lit "#tmp_000000000000"]))
       (Multi [lit "#tmp_000000000000"])
     = Ok [[]; lit " { color: blue; } #tmp_000000000000 { color: red; }"].
Proof.
  split; [reflexivity|]. split; [|reflexivity].
  apply includes_occursIn. reflexivity.
Qed.

(** The numeral of the numeric-unit case is tested against the part before
    its boundary only: when [randomInt] returns 5, the token of
    [unitTemplate] occurs in the part behind the boundary. *)
Lemma getPlaceholder_numeral_collision :
  getPlaceholder fiveEntropy unitTemplate (Some (lit "css")) = Ok (Multi [lit "5"])
  /\ occursIn (text (nth 1 unitTemplate (Part [] 0 0))) (lit "5").
Proof.
  split; [reflexivity|]. apply includes_occursIn. reflexivity.
Qed.

(** C3 at a failing input.  Two calls with the same parts and the same tag
    return different placeholders when [randomBytes] returns different
    bytes. *)
Theorem getPlaceholder_css_not_deterministic :
  getPlaceholder zeroEntropy valueTemplate (Some (lit "css"))
  = Ok (Multi [lit "var(--tmp_000000000000)"])
  /\ getPlaceholder otherEntropy valueTemplate (Some (lit "css"))
     = Ok (Multi [lit "var(--tmp_000000000001)"])
  /\ getPlaceholder zeroEntropy valueTemplate (Some (lit "css"))
     <> getPlaceholder otherEntropy valueTemplate (Some (lit "css")).
Proof.
  split; [reflexivity|]. split; [reflexivity|]. vm_compute. discriminate.
Qed.

(* ================================================================== *)
(** * The minifier adapter *)
(* ================================================================== *)

Section Adapter.

Variable C : Type.
Variable emptyCSSOptions : C.
Variable minify : str -> HTMLOptions C -> option (AdjustedCSSOptions C) -> Result str.
Variable cleanCSS : AdjustedCSSOptions C -> str -> Result CleanCSSOutput.

(** When the pre-flight test finds the base token inside a comment on one
    line, [minifyHTML] returns its input and the minifier is not called. *)
Lemma minifyHTML_preflight (html : str) (options : HTMLOptions C) :
  test commentExpressionRe html = true ->
  minifyHTML emptyCSSOptions minify html options = Ok html.
Proof. intros H. unfold minifyHTML. now rewrite H. Qed.

(** On warnings without errors, [minifyCSS] returns the text it passed to
    the minifier, that is the input after the rewrite of the
    [@TEMPLATE_EXPRESSION();:] shape, with the line breaks removed. *)
Lemma minifyCSS_warnings (css : str) (options : option C) (output : CleanCSSOutput) :
  cleanCSS (adjustMinifyCSSOptions (orDefault options emptyCSSOptions))
           (replace templateKeyRe (lit "--TEMPLATE-EXPRESSION:") css) = Ok output ->
  errors output = [] ->
  warnings output <> [] ->
  minifyCSS emptyCSSOptions cleanCSS css options
  = Ok (replace lineBreakRe []
          (replace templateKeyRe (lit "--TEMPLATE-EXPRESSION:") css)).
Proof.
  intros Hout Herr Hwarn. unfold minifyCSS.
  replace (match options with Some o => o | None => emptyCSSOptions end)
    with (orDefault options emptyCSSOptions) by reflexivity.
  rewrite Hout. simpl. rewrite Herr. simpl.
  destruct (warnings output); [congruence|reflexivity].
Qed.

End Adapter.

(** C5 at a failing input.  The minifier reports a warning and no error,
    and [minifyCSS] returns the rewritten text, in which the placeholder
    is lost, not the input without its line breaks. *)
Theorem minifyCSS_warning_returns_rewritten :
  minifyCSS tt warningCleanCSS (lit "a{@TEMPLATE_EXPRESSION();:red}") None
  = Ok (lit "a{--TEMPLATE-EXPRESSION:red}")
  /\ withoutLineBreaks (lit "a{@TEMPLATE_EXPRESSION();:red}")
     = lit "a{@TEMPLATE_EXPRESSION();:red}"
  /\ minifyCSS tt warningCleanCSS (lit "a{@TEMPLATE_EXPRESSION();:red}") None
     <> Ok (withoutLineBreaks (lit "a{@TEMPLATE_EXPRESSION();:red}")).
Proof.
  split; [reflexivity|]. split; [reflexivity|]. vm_compute. discriminate.
Qed.

(** C6 at a failing input.  The placeholder is inside a comment that runs
    over several lines; the pre-flight test does not see it, the minifier is
    called, and what it returns comes back instead of the input. *)
Theorem minifyHTML_multiline_comment_not_skipped :
  insideMarkupComment commentedExpression (lit "@TEMPLATE_EXPRESSION();")
  /\ test commentExpressionRe commentedExpression = false
  /\ minifyHTML tt commentRemovingMinify commentedExpression (defaultMinifyOptions tt)
     = Ok []
  /\ minifyHTML tt commentRemovingMinify commentedExpression (defaultMinifyOptions tt)
     <> Ok commentedExpression.
Proof.
  split; [|split; [reflexivity|split; [reflexivity|vm_compute; discriminate]]].
  exists [], [LF], [LF], []. split; [reflexivity|].
  intros H. apply includes_occursIn in H. vm_compute in H. discriminate.
Qed.

(* ================================================================== *)
(** * The round trip *)
(* ================================================================== *)

Lemma startsWith_app_long (u w t : str) :
  startsWith (u ++ w) t = true -> length t <= length u -> startsWith u t = true.
Proof.
  revert u; induction t as [|b t IH]; intros u H Hlen; simpl in *; [reflexivity|].
  destruct u as [|a u]; simpl in *; [lia|].
  apply andb_true_iff in H as [Hab H]. rewrite Hab. simpl.
  apply IH; [exact H|lia].
Qed.

Lemma startsWith_app_short (u w t : str) :
  startsWith (u ++ w) t = true -> length u <= length t ->
  exists v, t = u ++ v /\ startsWith w v = true.
Proof.
  revert t; induction u as [|a u IH]; intros t H Hlen; simpl in *.
  - now exists t.
  - destruct t as [|b t]; simpl in *; [lia|].
    apply andb_true_iff in H as [Hab H]. apply Ascii.eqb_eq in Hab. subst b.
    destruct (IH t H ltac:(lia)) as (v & -> & Hv). now exists v.
Qed.

Lemma occursIn_prefix (s t t' : str) : occursIn s (t ++ t') -> occursIn s t.
Proof.
  intros (i & before & after & -> & <-).
  exists (length before), before, (t' ++ after). now rewrite <- app_assoc.
Qed.

(** The token is set off by its first code unit: in a segment without the
    token followed by the token, the first occurrence is the one put
    there. *)
Lemma indexOf_first_token (segment token rest : str) (c : ascii) (body : str) :
  token = c :: body -> ~ In c body -> ~ occursIn segment token ->
  indexOf (segment ++ token ++ rest) token 0 = Some (length segment).
Proof.
  intros Htok Hc Hfree. apply indexOf_complete. split; [lia|]. split.
  - now exists segment, rest.
  - intros j _ Hj Hocc. apply occursAt_iff in Hocc as [_ Hocc].
    rewrite skipn_app in Hocc.
    replace (j - length segment) with 0 in Hocc by lia. simpl in Hocc.
    destruct (Nat.le_gt_cases (length token) (length (skipn j segment))) as [Hl|Hl].
    + apply startsWith_app_long in Hocc; [|exact Hl].
      apply Hfree. exists j. apply occursAt_iff. split; [lia|exact Hocc].
    + apply startsWith_app_short in Hocc as (v & Hv & Hstart); [|lia].
      assert (Hu : length (skipn j segment) > 0) by (rewrite length_skipn; lia).
      destruct (skipn j segment) as [|a u]; [simpl in Hu; lia|].
      destruct v as [|c' v].
      { rewrite Hv, app_nil_r in Hl. lia. }
      rewrite Htok in Hstart. simpl in Hstart.
      apply andb_true_iff in Hstart as [Hcc _]. apply Ascii.eqb_eq in Hcc. subst c'.
      rewrite Htok in Hv. simpl in Hv. injection Hv as _ Hbody.
      apply Hc. rewrite Hbody. apply in_or_app. right. now left.
Qed.

Lemma indexOf_absent (s t : str) : ~ occursIn s t -> indexOf s t 0 = None.
Proof.
  intros Hfree. destruct (indexOf s t 0) as [i|] eqn:E; [|reflexivity].
  exfalso. apply Hfree. exists i.
  apply (indexOf_Some s t 0 i (Nat.le_0_l _) E).
Qed.

Lemma splitFrom_absent (fuel : nat) (s t : str) :
  ~ occursIn s t -> splitFrom fuel s t = [s].
Proof.
  intros Hfree. destruct fuel; simpl; [reflexivity|].
  now rewrite indexOf_absent.
Qed.

Lemma split_absent (s t : str) : t <> [] -> ~ occursIn s t -> split s t = [s].
Proof.
  intros Ht Hfree. destruct t as [|b t]; [congruence|].
  unfold split. now apply splitFrom_absent.
Qed.

Lemma join_cons (x : str) (xs : list str) (sep : str) :
  xs <> [] -> join (x :: xs) sep = x ++ sep ++ join xs sep.
Proof. destruct xs; [congruence|reflexivity]. Qed.

(** Splitting what was joined with a token of that kind gives the
    segments back. *)
Lemma splitFrom_join (token : str) (c : ascii) (body : str) (segments : list str) :
  token = c :: body -> ~ In c body ->
  Forall (fun segment => ~ occursIn segment token) segments ->
  segments <> [] ->
  forall fuel, length (join segments token) <= fuel ->
    splitFrom fuel (join segments token) token = segments.
Proof.
  intros Htok Hc Hfree. induction Hfree as [|segment segments Hseg Hfree IH];
    intros Hne fuel Hfuel; [congruence|].
  destruct segments as [|segment' segments].
  - simpl. now apply splitFrom_absent.
  - rewrite join_cons in * by discriminate.
    specialize (IH ltac:(discriminate)).
    remember (join (segment' :: segments) token) as joined eqn:Hj. clear Hj.
    assert (Hlen : 0 < length token) by (rewrite Htok; simpl; lia).
    destruct fuel as [|fuel].
    { rewrite !length_app in Hfuel. lia. }
    cbn [splitFrom].
    rewrite (indexOf_first_token _ _ _ c body Htok Hc Hseg).
    rewrite firstn_app, firstn_all, Nat.sub_diag, firstn_0, app_nil_r.
    f_equal.
    replace (skipn (length segment + length token) (segment ++ token ++ joined))
      with joined.
    + apply IH. rewrite !length_app in Hfuel. lia.
    + rewrite <- skipn_skipn_add.
      rewrite (skipn_app (length segment)), skipn_all, Nat.sub_diag, skipn_O.
      cbn [app].
      rewrite skipn_app, skipn_all, Nat.sub_diag, skipn_O. reflexivity.
Qed.

(** The backwards loop of the splitter splits every part in place. *)
Lemma spliceLoop_flat_map (w : str) (parts : list str) :
  forall tail,
    spliceLoop (length parts) (parts ++ tail) w
    = flat_map (fun p => split p w) parts ++ tail.
Proof.
  induction parts as [|p parts IH] using rev_ind; intros tail; [reflexivity|].
  rewrite length_app. cbn [length]. rewrite Nat.add_1_r. cbn [spliceLoop].
  rewrite <- app_assoc. cbn [app].
  rewrite nth_error_app2, Nat.sub_diag by lia. cbn [nth_error].
  unfold splice1.
  rewrite firstn_app, firstn_all, Nat.sub_diag, firstn_0, app_nil_r.
  assert (Hskip : skipn (S (length parts)) (parts ++ p :: tail) = tail).
  { rewrite skipn_app, skipn_all2 by lia.
    replace (S (length parts) - length parts) with 1 by lia. reflexivity. }
  rewrite Hskip, IH, flat_map_app. cbn [flat_map].
  rewrite app_nil_r, <- app_assoc. reflexivity.
Qed.

Lemma flat_map_singleton (f : str -> list str) (xs : list str) :
  Forall (fun x => f x = [x]) xs -> flat_map f xs = xs.
Proof. induction 1 as [|x xs Hx _ IH]; simpl; [reflexivity|]. now rewrite Hx, IH. Qed.

Lemma endsWith_last (front : str) (c : ascii) : endsWith (front ++ [c]) [c] = true.
Proof.
  unfold endsWith. rewrite length_app. simpl.
  replace (length front + 1 - 1) with (length front) by lia.
  rewrite skipn_app, skipn_all, Nat.sub_diag. simpl.
  rewrite Ascii.eqb_refl. destruct (length front + 1) eqn:E; [lia|].
  reflexivity.
Qed.

Lemma substring_front (front : str) (c : ascii) :
  substring (front ++ [c]) 0 (length (front ++ [c]) - 1) = front.
Proof.
  unfold substring, slice. cbn [Nat.min Nat.max skipn].
  rewrite Nat.sub_0_r, length_app. cbn [length].
  replace (length front + 1 - 1) with (length front) by lia.
  rewrite firstn_app, firstn_all, Nat.sub_diag, firstn_0. apply app_nil_r.
Qed.

Lemma removelast_last (front : str) (c : ascii) : removelast (front ++ [c]) = front.
Proof. apply removelast_last. Qed.

(** Single-token mode on segments joined by a call-style token: the
    segments come back when none of them holds the token without its
    semicolon. *)
Lemma splitHTMLByPlaceholder_join (token : str) (segments : list str) :
  callToken token -> segments <> [] ->
  Forall (fun segment => ~ occursIn segment (removelast token)) segments ->
  splitHTMLByPlaceholder (join segments token) (Single token) = Ok segments.
Proof.
  intros (body & Htok & Hat) Hne Hfree.
  assert (Hshort : removelast token = "@"%char :: body).
  { rewrite Htok. change ("@"%char :: body ++ [";"%char])
      with (("@"%char :: body) ++ [";"%char]). apply removelast_last. }
  assert (Hfree' : Forall (fun segment => ~ occursIn segment token) segments).
  { eapply Forall_impl; [|exact Hfree]. intros segment Hs Hocc. apply Hs.
    rewrite Hshort. rewrite Htok in Hocc.
    change ("@"%char :: body ++ [";"%char])
      with (("@"%char :: body) ++ [";"%char]) in Hocc.
    now apply occursIn_prefix in Hocc. }
  assert (Hsplit : split (join segments token) token = segments).
  { rewrite Htok at 2. unfold split. rewrite <- Htok.
    apply (splitFrom_join token "@"%char (body ++ [";"%char]) segments Htok);
      try assumption; [|lia].
    intros Hin. apply in_app_or in Hin as [Hin|[Hin|[]]]; [now apply Hat|discriminate]. }
  unfold splitHTMLByPlaceholder. rewrite Hsplit.
  assert (Hends : endsWith token (lit ";") = true).
  { rewrite Htok. change ("@"%char :: body ++ [";"%char])
      with (("@"%char :: body) ++ [";"%char]). apply endsWith_last. }
  rewrite Hends. f_equal.
  assert (Hsub : substring token 0 (length token - 1) = removelast token).
  { rewrite Hshort, Htok. change ("@"%char :: body ++ [";"%char])
      with (("@"%char :: body) ++ [";"%char]). apply substring_front. }
  rewrite Hsub.
  pose proof (spliceLoop_flat_map (removelast token) segments []) as Hloop.
  rewrite !app_nil_r in Hloop. rewrite Hloop.
  apply flat_map_singleton. eapply Forall_impl; [|exact Hfree].
  intros segment Hs. apply split_absent; [|exact Hs].
  rewrite Hshort. discriminate.
Qed.

Lemma interleave_repeat (token : str) (segments : list str) :
  interleave segments (repeat token (length segments - 1)) = join segments token.
Proof.
  induction segments as [|segment segments IH]; [reflexivity|].
  destruct segments as [|segment' segments]; [reflexivity|].
  rewrite join_cons by discriminate. rewrite <- IH.
  cbn [length Nat.sub repeat interleave]. rewrite Nat.sub_0_r. reflexivity.
Qed.

(** Multi-token mode on segments with the tokens between them: every token
    is found, at the latest where it was put. *)
Lemma scanTokens_interleave (html : str) (tokens : list str) :
  forall (segments : list str) (pos at_ : nat) (acc : list str),
    length segments = length tokens + 1 ->
    pos <= at_ -> at_ <= length html ->
    skipn at_ html = interleave segments tokens ->
    exists result,
      scanTokens html tokens pos acc = Ok result
      /\ length result = length acc + length tokens + 1.
Proof.
  induction tokens as [|ph tokens IH]; intros segments pos at_ acc Hlen Hpos Hat Hskip.
  - eexists. split; [reflexivity|]. rewrite length_app. simpl. lia.
  - destruct segments as [|segment segments]; [simpl in Hlen; lia|].
    cbn [interleave] in Hskip.
    assert (Hocc : occursAt html ph (at_ + length segment)).
    { exists (firstn at_ html ++ segment), (interleave segments tokens). split.
      - rewrite <- app_assoc, <- Hskip. symmetry. apply firstn_skipn.
      - rewrite length_app, firstn_length_le by exact Hat. reflexivity. }
    cbn [scanTokens].
    destruct (indexOf html ph pos) as [i|] eqn:E.
    + assert (Hp : pos <= length html) by lia.
      destruct (indexOf_Some _ _ _ _ Hp E) as (Hi & Hocci & Hmin).
      assert (Hle : i <= at_ + length segment).
      { destruct (Nat.le_gt_cases i (at_ + length segment)) as [H|H]; [exact H|].
        exfalso. apply (Hmin (at_ + length segment)); [lia|exact H|exact Hocc]. }
      pose proof (occursAt_bound _ _ _ Hocc) as Hb.
      destruct (IH segments (i + length ph) (at_ + length segment + length ph)
                  (acc ++ [slice html pos i])) as (result & Hres & Hl).
      * simpl in Hlen. lia.
      * lia.
      * lia.
      * rewrite <- !skipn_skipn_add, Hskip.
        rewrite skipn_app, skipn_all, Nat.sub_diag, skipn_O. cbn [app].
        rewrite skipn_app, skipn_all, Nat.sub_diag, skipn_O. reflexivity.
      * exists result. split; [exact Hres|].
        rewrite Hl, length_app. simpl. lia.
    + exfalso.
      apply (indexOf_None html ph pos ltac:(lia) E (at_ + length segment)); [lia|exact Hocc].
Qed.

Lemma combine_multi_interleave (tokens : list str) (parts : list TemplatePart) :
  forall i,
    parts <> [] ->
    length (skipn i tokens) = length parts - 1 ->
    join (mapi (fun part j => text part ++ nth j tokens []) i parts) []
    = interleave (List.map text parts) (skipn i tokens).
Proof.
  induction parts as [|part parts IH]; intros i Hne Hlen; [congruence|].
  destruct parts as [|part' parts].
  - cbn [mapi join List.map interleave].
    simpl in Hlen. apply length_zero_iff_nil in Hlen.
    assert (Hi : length tokens <= i).
    { destruct (Nat.le_gt_cases (length tokens) i) as [H|H]; [exact H|].
      apply (f_equal (@length str)) in Hlen. rewrite length_skipn in Hlen.
      simpl in Hlen. lia. }
    rewrite nth_overflow by exact Hi. rewrite Hlen, app_nil_r.
    destruct (skipn i tokens); reflexivity.
  - set (f := fun (part : TemplatePart) (j : nat) => text part ++ nth j tokens []) in *.
    change (mapi f i (part :: part' :: parts))
      with (f part i :: mapi f (S i) (part' :: parts)).
    rewrite join_cons by (cbn [mapi]; discriminate).
    cbn [app]. rewrite (IH (S i)); [|discriminate|]. unfold f.
    + destruct (skipn i tokens) as [|ph rest] eqn:E.
      { simpl in Hlen. lia. }
      assert (Hnth : nth i tokens [] = ph).
      { rewrite <- (firstn_skipn i tokens) at 1.
        assert (i < length tokens).
        { apply (f_equal (@length str)) in E. rewrite length_skipn in E. simpl in E. lia. }
        rewrite app_nth2; rewrite firstn_length_le by lia; [|lia].
        rewrite Nat.sub_diag, E. reflexivity. }
      assert (Hrest : skipn (S i) tokens = rest).
      { change (S i) with (1 + i). rewrite Nat.add_comm, <- skipn_skipn_add, E.
        reflexivity. }
      rewrite Hnth, Hrest. cbn [List.map interleave].
      rewrite <- app_assoc. reflexivity.
    + change (S i) with (1 + i). rewrite Nat.add_comm, <- skipn_skipn_add.
      rewrite length_skipn, Hlen. simpl. lia.
Qed.

Lemma hexDigit_not_at (d : N) : hexDigit d <> "@"%char.
Proof.
  assert (Hin : forall c, In c (lit "0123456789abcdef") -> c <> "@"%char).
  { intros c H E. subst c. simpl in H.
    repeat (destruct H as [H|H]; [discriminate|]). exact H. }
  unfold hexDigit.
  destruct (nth_in_or_default (N.to_nat d) (lit "0123456789abcdef") "0"%char) as [H|H].
  - now apply Hin.
  - rewrite H. discriminate.
Qed.

Lemma toHex_no_at (bytes : list Byte.byte) : ~ In "@"%char (toHex bytes).
Proof.
  unfold toHex. intros H. apply in_flat_map in H as (b & _ & Hb).
  simpl in Hb. destruct Hb as [Hb|[Hb|[]]]; now apply hexDigit_not_at in Hb.
Qed.

(** The single token the generator returns is call-style, in both modes. *)
Lemma getPlaceholder_Single_callToken (rnd : Entropy) (parts : list TemplatePart)
    (tag : option str) (token : str) :
  getPlaceholder rnd parts tag = Ok (Single token) -> callToken token.
Proof.
  intros H. destruct (isCssTag tag) eqn:Hcss.
  - unfold getPlaceholder in H. rewrite Hcss in H.
    destruct parts as [|first rest]; [discriminate|].
    apply cssLoop_Single in H as [-> _].
    exists (lit "tmp_" ++ toHex (randomBytes rnd) ++ lit "()"). split.
    + cbn [lit list_ascii_of_string app]. rewrite <- !app_assoc. reflexivity.
    + intros Hin. apply in_app_or in Hin as [Hin|Hin].
      * simpl in Hin. repeat (destruct Hin as [Hin|Hin]; [discriminate|]). exact Hin.
      * apply in_app_or in Hin as [Hin|Hin]; [now apply toHex_no_at in Hin|].
        simpl in Hin. repeat (destruct Hin as [Hin|Hin]; [discriminate|]). exact Hin.
  - destruct (getPlaceholder_markup rnd parts tag Hcss) as (k & Hk & _).
    rewrite Hk in H. injection H as <-.
    exists (lit "TEMPLATE_EXPRESSION" ++ repeat "_"%char k ++ lit "()"). split.
    + cbn [lit list_ascii_of_string app]. rewrite <- !app_assoc. reflexivity.
    + intros Hin. apply in_app_or in Hin as [Hin|Hin].
      * simpl in Hin. repeat (destruct Hin as [Hin|Hin]; [discriminate|]). exact Hin.
      * apply in_app_or in Hin as [Hin|Hin].
        -- apply repeat_spec in Hin. discriminate.
        -- simpl in Hin. repeat (destruct Hin as [Hin|Hin]; [discriminate|]). exact Hin.
Qed.

Lemma getPlaceholder_Multi_length (rnd : Entropy) (parts : list TemplatePart)
    (tag : option str) (tokens : list str) :
  getPlaceholder rnd parts tag = Ok (Multi tokens) ->
  length tokens = length parts - 1.
Proof.
  intros H. destruct (isCssTag tag) eqn:Hcss.
  - unfold getPlaceholder in H. rewrite Hcss in H.
    destruct parts as [|first rest]; [now injection H as <-|].
    apply cssLoop_Multi in H as (fresh & -> & Hlen & _).
    simpl. lia.
  - destruct (getPlaceholder_markup rnd parts tag Hcss) as (k & Hk & _).
    rewrite Hk in H. discriminate.
Qed.

(** The combined string is the parts' texts with the inserted tokens
    between them. *)
Lemma combineHTMLStrings_interleave (rnd : Entropy) (parts : list TemplatePart)
    (tag : option str) (placeholder : Placeholder) :
  parts <> [] ->
  getPlaceholder rnd parts tag = Ok placeholder ->
  combineHTMLStrings parts placeholder
  = interleave (List.map text parts) (insertedTokens placeholder (length parts)).
Proof.
  intros Hne H. destruct placeholder as [token|tokens]; simpl.
  - rewrite <- (length_map text parts). symmetry. apply interleave_repeat.
  - apply getPlaceholder_Multi_length in H.
    apply (combine_multi_interleave tokens parts 0 Hne). exact H.
Qed.

(** The round trip the code does ensure.  For a template with at least one
    part and the placeholder the generator returns for it: when the
    minified string is as many segments as there are parts with the
    inserted tokens between them, in their order, and, in single-token
    mode, no segment holds the token without its final semicolon, the
    splitter returns as many segments as there are parts; so it does on the
    combined string itself when, in single-token mode, no part holds the
    token without its final semicolon. *)
Theorem split_round_trip (rnd : Entropy) (parts : list TemplatePart)
    (tag : option str) (placeholder : Placeholder) :
  parts <> [] ->
  getPlaceholder rnd parts tag = Ok placeholder ->
  (forall segments,
      length segments = length parts ->
      (forall token, placeholder = Single token ->
         Forall (fun segment => ~ occursIn segment (removelast token)) segments) ->
      exists result,
        splitHTMLByPlaceholder
          (interleave segments (insertedTokens placeholder (length parts))) placeholder
        = Ok result
        /\ length result = length parts)
  /\ ((forall token, placeholder = Single token ->
         Forall (fun part => ~ occursIn (text part) (removelast token)) parts) ->
      exists result,
        splitHTMLByPlaceholder (combineHTMLStrings parts placeholder) placeholder
        = Ok result
        /\ length result = length parts).
Proof.
  intros Hne Hget.
  assert (Hgeneral : forall segments,
      length segments = length parts ->
      (forall token, placeholder = Single token ->
         Forall (fun segment => ~ occursIn segment (removelast token)) segments) ->
      exists result,
        splitHTMLByPlaceholder
          (interleave segments (insertedTokens placeholder (length parts))) placeholder
        = Ok result
        /\ length result = length parts).
  { intros segments Hlen Hfree.
    assert (Hpos : 0 < length parts) by (destruct parts; [congruence|simpl; lia]).
    destruct placeholder as [token|tokens]; cbn [insertedTokens].
    - exists segments. split; [|exact Hlen].
      rewrite <- Hlen, interleave_repeat.
      apply splitHTMLByPlaceholder_join.
      + exact (getPlaceholder_Single_callToken _ _ _ _ Hget).
      + destruct segments; [simpl in Hlen; lia|discriminate].
      + now apply Hfree.
    - pose proof (getPlaceholder_Multi_length _ _ _ _ Hget) as Hl.
      destruct (scanTokens_interleave
                  (interleave segments tokens) tokens segments 0 0 [])
        as (result & Hres & Hrl); try lia; [reflexivity|].
      exists result. split; [exact Hres|]. simpl in Hrl. lia. }
  split; [exact Hgeneral|].
  intros Hfree. rewrite (combineHTMLStrings_interleave rnd parts tag placeholder Hne Hget).
  apply Hgeneral; [apply length_map|].
  intros token Htok. apply Forall_map. now apply Hfree.
Qed.

(** C1 at a failing input.  The text of [semicolonlessTemplate] holds the
    base token without its semicolon.  The combined string holds the one
    inserted token exactly once, and the splitter returns three segments
    for the two parts. *)
Theorem split_round_trip_semicolonless_text :
  getPlaceholder zeroEntropy semicolonlessTemplate (Some (lit "html"))
  = Ok (Single (lit "@TEMPLATE_EXPRESSION();"))
  /\ combineHTMLStrings semicolonlessTemplate (Single (lit "@TEMPLATE_EXPRESSION();"))
     = lit "<code>@TEMPLATE_EXPRESSION()</code>@TEMPLATE_EXPRESSION();"
  /\ countOccurrences
       (lit "<code>@TEMPLATE_EXPRESSION()</code>@TEMPLATE_EXPRESSION();")
       (lit "@TEMPLATE_EXPRESSION();") = 1
  /\ splitHTMLByPlaceholder
       (lit "<code>@TEMPLATE_EXPRESSION()</code>@TEMPLATE_EXPRESSION();")
       (Single (lit "@TEMPLATE_EXPRESSION();"))
     = Ok [lit "<code>"; lit "</code>"; []]
  /\ length [lit "<code>"; lit "</code>"; []] <> length semicolonlessTemplate.
Proof.
  repeat split; try reflexivity. simpl. discriminate.
Qed.

Lemma split_round_trip_witness :
  valueTemplate <> []
  /\ getPlaceholder zeroEntropy valueTemplate (Some (lit "css"))
     = Ok (Multi [lit "var(--tmp_000000000000)"])
  /\ exists result,
       splitHTMLByPlaceholder
         (combineHTMLStrings valueTemplate (Multi [lit "var(--tmp_000000000000)"]))
         (Multi [lit "var(--tmp_000000000000)"])
       = Ok result
       /\ length result = length valueTemplate.
Proof.
  split; [discriminate|]. split; [reflexivity|].
  apply (split_round_trip zeroEntropy valueTemplate (Some (lit "css"))
           (Multi [lit "var(--tmp_000000000000)"])).
  - discriminate.
  - reflexivity.
  - intros token H. discriminate.
Defined.

Lemma minifyHTMLLiterals_no_change_witness :
  exists result,
    minifyHTMLLiterals tt spaceDroppingMinify warningCleanCSS plainBuffer exampleParse
      (fun _ => zeroEntropy) exampleSource exampleOptions
    = Ok (Some result)
    /\ code result = lit "render(html`<p>hi</p>`)"
    /\ code result <> exampleSource.
Proof.
  eexists. split; [vm_compute; reflexivity|]. split; [reflexivity|].
  apply (proj2 (proj2 (minifyHTMLLiterals_no_change unit tt spaceDroppingMinify
           warningCleanCSS unit unit plainBuffer exampleParse
           (fun _ => zeroEntropy) exampleSource exampleOptions))).
  vm_compute. reflexivity.
Defined.

(* ================================================================== *)
(** * What does hold of the tokens and of the warning path *)
(* ================================================================== *)

Lemma decimal_nonempty (n : N) : decimal n <> [].
Proof.
  unfold decimal, DecimalString.NilZero.string_of_uint.
  destruct (N.to_uint n); simpl; discriminate.
Qed.

Lemma drawNum_Ok (ints : list N) (beforeFull num : str) (ints' : list N) :
  drawNum ints beforeFull = Ok (num, ints') ->
  num <> [] /\ ~ occursIn beforeFull num.
Proof.
  induction ints as [|n ints IH]; simpl; [discriminate|].
  destruct (includes beforeFull (decimal n)) eqn:E; simpl.
  - exact IH.
  - intros H. injection H as <- <-. split; [apply decimal_nonempty|].
    intros Hocc. apply includes_occursIn in Hocc. congruence.
Qed.

Lemma cssLoop_nonempty (random : str) (rest : list TemplatePart) :
  forall (ints : list N) (before : TemplatePart) (acc : list str)
         (placeholder : Placeholder),
    ~ In [] acc ->
    cssLoop random ints before rest acc = Ok placeholder ->
    ~ hasEmptyToken placeholder.
Proof.
  induction rest as [|after rest IH]; intros ints before acc placeholder Hacc H.
  - simpl in H. injection H as <-. exact Hacc.
  - css_step H.
    assert (Hgo : forall ints' tok,
              tok <> [] ->
              cssLoop random ints' after rest (acc ++ [tok]) = Ok placeholder ->
              ~ hasEmptyToken placeholder).
    { intros ints' tok Htok Hloop. refine (IH _ _ _ _ _ Hloop).
      intros Hin. apply in_app_or in Hin as [Hin|[Hin|[]]]; [now apply Hacc|].
      now apply Htok. }
    destruct (test selectorRe (stripped after)); [(eapply Hgo; [|exact H]; simpl; discriminate)|].
    destruct (test keyRe (stripped after)); [(eapply Hgo; [|exact H]; simpl; discriminate)|].
    destruct (test ruleRe (stripped before) || (length (trim (stripped before)) =? 0)).
    { injection H as <-. discriminate. }
    destruct (test unitRe (stripped after)).
    { unfold bind in H.
      destruct (drawNum ints (text before)) as [[num ints']| |] eqn:E; try discriminate.
      apply drawNum_Ok in E as [Hnum _]. exact (Hgo _ _ Hnum H). }
    destruct (test valueRe (stripped before)); (eapply Hgo; [|exact H]; simpl; discriminate).
Qed.

(** Every token the generator returns is non-empty, in both modes: the
    validator accepts the placeholder. *)
Lemma getPlaceholder_tokens_nonempty (rnd : Entropy) (parts : list TemplatePart)
    (tag : option str) (placeholder : Placeholder) :
  getPlaceholder rnd parts tag = Ok placeholder ->
  ensurePlaceholderValid defaultValidation placeholder = Ok tt.
Proof.
  intros H. apply ensurePlaceholderValid_nonempty.
  destruct (isCssTag tag) eqn:Hcss.
  - unfold getPlaceholder in H. rewrite Hcss in H.
    destruct parts as [|first rest].
    + injection H as <-. simpl. tauto.
    + apply cssLoop_nonempty in H; [exact H|]. simpl. tauto.
  - destruct (getPlaceholder_markup rnd parts tag Hcss) as (k & Hk & _).
    rewrite Hk in H. injection H as <-. simpl. discriminate.
Qed.

Lemma exec_chars (pat : str) :
  forall (ms : list nat) (i : nat) (s : str),
    exec (List.map Chr pat) ms i s
    = if startsWith s pat then Some (i + length pat, ms) else None.
Proof.
  induction pat as [|b pat IH]; intros ms i s; simpl.
  - now rewrite Nat.add_0_r.
  - destruct s as [|a s]; [reflexivity|].
    destruct (Ascii.eqb a b); simpl; [|reflexivity].
    rewrite IH. now rewrite Nat.add_succ_r.
Qed.

Lemma searchFrom_chars_absent (pat : str) (s : str) :
  ~ occursIn s pat -> forall i, searchFrom (List.map Chr pat) i s = None.
Proof.
  intros Hfree i.
  destruct (searchFrom (List.map Chr pat) i s) eqn:E; [|reflexivity].
  exfalso.
  assert (Hsome : searchFrom (List.map Chr pat) i s <> None) by congruence.
  apply searchFrom_some in Hsome as (k & Hk & Hexec).
  rewrite exec_chars in Hexec.
  destruct (startsWith (skipn k s) pat) eqn:Es; [|congruence].
  apply Hfree. exists k. apply occursAt_iff. auto.
Qed.

(** A rewrite of a literal shape leaves a text without the shape alone. *)
Lemma replace_chars_absent (pat : str) (rep s : str) :
  ~ occursIn s pat -> replace (List.map Chr pat) rep s = s.
Proof.
  intros Hfree. unfold replace. cbn [replaceFrom].
  now rewrite searchFrom_chars_absent.
Qed.

Lemma searchFrom_class (p : ascii -> bool) (s : str) :
  forall i,
    match searchFrom [Cls p] i s with
    | None => filter (fun c => negb (p c)) s = s
    | Some m =>
        exists k c,
          index m = i + k /\ stop m = S (i + k)
          /\ filter (fun c => negb (p c)) (firstn k s) = firstn k s
          /\ skipn k s = c :: skipn (S k) s /\ p c = true
    end.
Proof.
  induction s as [|a s IH]; intros i; cbn [searchFrom exec].
  - reflexivity.
  - destruct (p a) eqn:Ea.
    + exists 0, a. simpl. rewrite Nat.add_0_r. auto.
    + specialize (IH (S i)). destruct (searchFrom [Cls p] (S i) s) as [m|].
      * destruct IH as (k & c & Hi & Hs & Hf & Hk & Hc).
        exists (S k), c. simpl. rewrite Ea. simpl.
        rewrite Hf, Hi, Hs, Nat.add_succ_r. auto.
      * simpl. rewrite Ea. simpl. now rewrite IH.
Qed.

(** Replacing every code unit of a class by nothing filters the class
    out. *)
Lemma replaceFrom_class (p : ascii -> bool) (fuel : nat) :
  forall (i : nat) (s : str),
    length s < fuel ->
    replaceFrom fuel [Cls p] [] i s = filter (fun c => negb (p c)) s.
Proof.
  induction fuel as [|fuel IH]; intros i s Hfuel; [lia|].
  cbn [replaceFrom]. pose proof (searchFrom_class p s i) as Hs.
  destruct (searchFrom [Cls p] i s) as [m|]; [|now rewrite Hs].
  destruct Hs as (k & c & Hi & Hstop & Hf & Hk & Hc).
  rewrite Hi, Hstop.
  replace (S (i + k) =? i + k) with false by (symmetry; apply Nat.eqb_neq; lia).
  replace (i + k - i) with k by lia.
  replace (S (i + k) - i) with (S k) by lia.
  assert (Hlen : k < length s).
  { destruct (Nat.le_gt_cases (length s) k) as [H|H]; [|exact H].
    rewrite skipn_all2 in Hk by exact H. discriminate. }
  rewrite IH by (rewrite length_skipn; lia).
  replace (filter (fun c => negb (p c)) s)
    with (filter (fun c => negb (p c)) (firstn k s ++ skipn k s))
    by (now rewrite firstn_skipn).
  rewrite filter_app, Hf, Hk.
  simpl. rewrite Hc. reflexivity.
Qed.

Lemma replace_lineBreaks (s : str) : replace lineBreakRe [] s = withoutLineBreaks s.
Proof. unfold replace, lineBreakRe. apply replaceFrom_class. lia. Qed.

Section WarningPath.

Variable C : Type.
Variable emptyCSSOptions : C.
Variable cleanCSS : AdjustedCSSOptions C -> str -> Result CleanCSSOutput.

(** For an input without the [@TEMPLATE_EXPRESSION();:] shape, the warning
    path does return the input without its line breaks. *)
Lemma minifyCSS_warnings_plain (css : str) (options : option C) (output : CleanCSSOutput) :
  ~ occursIn css (lit "@TEMPLATE_EXPRESSION();:") ->
  cleanCSS (adjustMinifyCSSOptions (orDefault options emptyCSSOptions)) css = Ok output ->
  errors output = [] ->
  warnings output <> [] ->
  minifyCSS emptyCSSOptions cleanCSS css options = Ok (withoutLineBreaks css).
Proof.
  intros Hfree Hout Herr Hwarn.
  assert (Hsame : replace templateKeyRe (lit "--TEMPLATE-EXPRESSION:") css = css)
    by (apply replace_chars_absent; exact Hfree).
  rewrite (minifyCSS_warnings C emptyCSSOptions cleanCSS css options output);
    rewrite ?Hsame; try assumption.
  now rewrite replace_lineBreaks.
Qed.

End WarningPath.

(** The multi-token splitter on an example: the tokens in their order are
    found, in the other order the second one is missing behind the first. *)
Example splitHTMLByPlaceholder_multi_ordered :
  splitHTMLByPlaceholder (lit "a{--t:1;b:var(--t)}") (Multi [lit "--t"; lit "var(--t)"])
  = Ok [lit "a{"; lit ":1;b:"; lit "}"]
  /\ splitHTMLByPlaceholder (lit "a{--t:1;b:var(--t)}") (Multi [lit "var(--t)"; lit "--t"])
     = Throw (lit "placeholder --t not found in html a{--t:1;b:var(--t)}").
Proof. split; reflexivity. Qed.

Example ensurePlaceholderValid_examples :
  ensurePlaceholderValid defaultValidation (Single (lit "@TEMPLATE_EXPRESSION();")) = Ok tt
  /\ ensurePlaceholderValid defaultValidation (Multi [lit "#t"; []])
     = Throw (lit "getPlaceholder() must return a non-empty string | string[]").
Proof. split; reflexivity. Qed.

(* ================================================================== *)
(** * More on the placeholder generator *)
(* ================================================================== *)

Lemma markupLoop_first (parts : list TemplatePart) (suffix : str) (fuel : nat) :
  forall placeholder result,
    markupLoop fuel parts placeholder suffix = Ok result ->
    exists k,
      result = placeholder ++ repeat "_"%char k
      /\ existsb (fun part => includes (text part) (result ++ suffix)) parts = false
      /\ forall j, j < k ->
           existsb (fun part =>
                      includes (text part) ((placeholder ++ repeat "_"%char j) ++ suffix))
                   parts = true.
Proof.
  induction fuel as [|fuel IH]; intros placeholder result H; cbn [markupLoop] in H.
  - discriminate.
  - destruct (existsb _ parts) eqn:E.
    + apply IH in H as (k & -> & Hfree & Hbefore).
      exists (S k). split; [now rewrite <- app_assoc|]. split; [exact Hfree|].
      intros [|j] Hj.
      * simpl. rewrite app_nil_r. exact E.
      * replace (placeholder ++ repeat "_"%char (S j))
          with ((placeholder ++ lit "_") ++ repeat "_"%char j)
          by (rewrite <- app_assoc; reflexivity).
        apply Hbefore. lia.
    + injection H as <-. exists 0. rewrite app_nil_r.
      split; [reflexivity|]. split; [exact E|]. intros j Hj. lia.
Qed.

(** Markup mode.  Whatever the random source, the generator returns the
    first candidate, in the order of the number of filler characters, that
    occurs in no part: every shorter candidate occurs in some part. *)
Theorem getPlaceholder_markup_first (rnd : Entropy) (parts : list TemplatePart)
    (tag : option str) :
  isCssTag tag = false ->
  exists k,
    getPlaceholder rnd parts tag = Ok (Single (markupCandidate k))
    /\ (forall part, In part parts -> ~ occursIn (text part) (markupCandidate k))
    /\ (forall j, j < k ->
          exists part, In part parts /\ occursIn (text part) (markupCandidate j)).
Proof.
  intros Hcss. unfold getPlaceholder. rewrite Hcss.
  destruct (markupLoop_returns parts (lit "();") (longest parts)
              (lit "@TEMPLATE_EXPRESSION")) as [result Hres].
  { rewrite length_app. simpl. lia. }
  unfold markupFuel. fold (longest parts). rewrite Hres. cbn [bind].
  apply markupLoop_first in Hres as (k & -> & Hfree & Hbefore).
  exists k. unfold markupCandidate. rewrite <- app_assoc.
  split; [reflexivity|]. split.
  - intros part Hin Hocc. apply includes_occursIn in Hocc.
    assert (existsb (fun part => includes (text part)
              ((lit "@TEMPLATE_EXPRESSION" ++ repeat "_"%char k) ++ lit "();")) parts = true).
    { apply existsb_exists. exists part. rewrite <- app_assoc. auto. }
    congruence.
  - intros j Hj. specialize (Hbefore j Hj).
    apply existsb_exists in Hbefore as (part & Hin & Hinc).
    exists part. split; [exact Hin|].
    apply includes_occursIn. rewrite <- app_assoc in Hinc. exact Hinc.
Qed.

Lemma getPlaceholder_markup_first_witness :
  isCssTag (Some (lit "html")) = false
  /\ exists k,
       getPlaceholder zeroEntropy
         [Part (lit "<p>@TEMPLATE_EXPRESSION();</p>") 5 35; Part [] 48 48]
         (Some (lit "html"))
       = Ok (Single (markupCandidate k))
       /\ (forall part,
             In part [Part (lit "<p>@TEMPLATE_EXPRESSION();</p>") 5 35; Part [] 48 48] ->
             ~ occursIn (text part) (markupCandidate k))
       /\ (forall j, j < k ->
             exists part,
               In part [Part (lit "<p>@TEMPLATE_EXPRESSION();</p>") 5 35; Part [] 48 48]
               /\ occursIn (text part) (markupCandidate j)).
Proof.
  split; [reflexivity|].
  apply (getPlaceholder_markup_first zeroEntropy
           [Part (lit "<p>@TEMPLATE_EXPRESSION();</p>") 5 35; Part [] 48 48]
           (Some (lit "html"))).
  reflexivity.
Defined.

Lemma getPlaceholder_tokens_nonempty_witness :
  getPlaceholder fiveEntropy unitTemplate (Some (lit "css")) = Ok (Multi [lit "5"])
  /\ ensurePlaceholderValid defaultValidation (Multi [lit "5"]) = Ok tt.
Proof.
  split; [reflexivity|].
  apply (getPlaceholder_tokens_nonempty fiveEntropy unitTemplate (Some (lit "css"))).
  reflexivity.
Defined.

(** [/^\w+/] *)
Lemma test_unit (s : str) : test unitRe s = true <-> startsWithWord s.
Proof.
  rewrite test_some. unfold unitRe, startsWithWord. split.
  - intros (k & Hk & H). cbn [exec] in H.
    destruct k as [|k]; simpl in H; [|congruence].
    destruct s as [|c rest]; [congruence|].
    destruct (isWord c) eqn:E; [|congruence]. now exists c, rest.
  - intros (c & rest & -> & Hc). exists 0. split; [lia|].
    cbn [exec skipn]. simpl. rewrite Hc. apply star_some.
    exists [], rest. split; [reflexivity|]. split; [constructor|]. simpl. discriminate.
Qed.

Lemma drawNum_draw (ints : list N) (beforeFull num : str) (ints' : list N) :
  drawNum ints beforeFull = Ok (num, ints') ->
  (exists n, In n ints /\ num = decimal n)
  /\ ~ occursIn beforeFull num
  /\ forall m, In m ints' -> In m ints.
Proof.
  induction ints as [|n ints IH]; simpl; [discriminate|].
  destruct (includes beforeFull (decimal n)) eqn:E; simpl.
  - intros H. destruct (IH H) as ((m & Hm & ->) & Hfree & Hsub).
    split; [exists m; auto|]. split; [exact Hfree|]. auto.
  - intros H. injection H as <- <-. split; [exists n; auto|]. split; [|auto].
    intros Hocc. apply includes_occursIn in Hocc. congruence.
Qed.

(** The token of every boundary of the returned array, by the tests of the
    loop. *)
Lemma cssLoop_tokens (random : str) (rest : list TemplatePart) :
  forall (ints : list N) (before : TemplatePart) (acc tokens : list str),
    cssLoop random ints before rest acc = Ok (Multi tokens) ->
    exists fresh,
      tokens = acc ++ fresh /\ length fresh = length rest
      /\ forall j b a,
           nth_error (before :: rest) j = Some b ->
           nth_error rest j = Some a ->
           exists tok,
             nth_error fresh j = Some tok
             /\ (test selectorRe (stripped a) = true -> tok = lit "#" ++ random)
             /\ (test selectorRe (stripped a) = false ->
                 test keyRe (stripped a) = true -> tok = lit "--" ++ random)
             /\ (test selectorRe (stripped a) = false ->
                 test keyRe (stripped a) = false ->
                 isRuleTest b = false
                 /\ (test unitRe (stripped a) = true ->
                     (exists n, In n ints /\ tok = decimal n)
                     /\ ~ occursIn (text b) tok)
                 /\ (test unitRe (stripped a) = false ->
                     tok = lit "var(--" ++ random ++ lit ")")).
Proof.
  induction rest as [|after rest IH]; intros ints before acc tokens H.
  - simpl in H. injection H as <-. exists []. rewrite app_nil_r.
    split; [reflexivity|]. split; [reflexivity|]. intros [|j] b a _ Ha; discriminate.
  - css_step H.
    assert (Hgo : forall ints' tok,
              (forall m, In m ints' -> In m ints) ->
              cssLoop random ints' after rest (acc ++ [tok]) = Ok (Multi tokens) ->
              (test selectorRe (stripped after) = true -> tok = lit "#" ++ random)
              /\ (test selectorRe (stripped after) = false ->
                  test keyRe (stripped after) = true -> tok = lit "--" ++ random)
              /\ (test selectorRe (stripped after) = false ->
                  test keyRe (stripped after) = false ->
                  isRuleTest before = false
                  /\ (test unitRe (stripped after) = true ->
                      (exists n, In n ints /\ tok = decimal n)
                      /\ ~ occursIn (text before) tok)
                  /\ (test unitRe (stripped after) = false ->
                      tok = lit "var(--" ++ random ++ lit ")")) ->
              exists fresh,
                tokens = acc ++ fresh /\ length fresh = length (after :: rest)
                /\ forall j b a,
                     nth_error (before :: after :: rest) j = Some b ->
                     nth_error (after :: rest) j = Some a ->
                     exists tok',
                       nth_error fresh j = Some tok'
                       /\ (test selectorRe (stripped a) = true -> tok' = lit "#" ++ random)
                       /\ (test selectorRe (stripped a) = false ->
                           test keyRe (stripped a) = true -> tok' = lit "--" ++ random)
                       /\ (test selectorRe (stripped a) = false ->
                           test keyRe (stripped a) = false ->
                           isRuleTest b = false
                           /\ (test unitRe (stripped a) = true ->
                               (exists n, In n ints /\ tok' = decimal n)
                               /\ ~ occursIn (text b) tok')
                           /\ (test unitRe (stripped a) = false ->
                               tok' = lit "var(--" ++ random ++ lit ")"))).
    { intros ints' tok Hsub Hloop Htok.
      destruct (IH _ _ _ _ Hloop) as (fresh & -> & Hlen & Hall).
      exists (tok :: fresh). rewrite <- app_assoc. split; [reflexivity|].
      split; [simpl; congruence|].
      intros [|j] b a Hb Ha; simpl in Hb, Ha.
      - injection Hb as <-. injection Ha as <-. exists tok. split; [reflexivity|exact Htok].
      - destruct (Hall j b a Hb Ha) as (tok' & Hnth & H1 & H2 & H3).
        exists tok'. split; [exact Hnth|]. split; [exact H1|]. split; [exact H2|].
        intros Hs Hk. destruct (H3 Hs Hk) as (Hr & Hu & Hv).
        split; [exact Hr|]. split; [|exact Hv].
        intros Hunit. destruct (Hu Hunit) as ((n & Hn & ->) & Hfree).
        split; [exists n; auto|exact Hfree]. }
    unfold isRuleTest in Hgo.
    destruct (test selectorRe (stripped after)) eqn:Esel.
    { apply (Hgo _ _ (fun m Hm => Hm) H).
      split; [reflexivity|]. split; discriminate. }
    destruct (test keyRe (stripped after)) eqn:Ekey.
    { apply (Hgo _ _ (fun m Hm => Hm) H).
      split; [discriminate|]. split; [reflexivity|discriminate]. }
    destruct (test ruleRe (stripped before) || (length (trim (stripped before)) =? 0))
      eqn:Erule.
    { discriminate. }
    destruct (test unitRe (stripped after)) eqn:Eunit.
    { unfold bind in H.
      destruct (drawNum ints (text before)) as [[num ints']| |] eqn:Edraw;
        try discriminate.
      apply drawNum_draw in Edraw as (Hn & Hfree & Hsub).
      apply (Hgo _ _ Hsub H).
      split; [discriminate|]. split; [discriminate|].
      intros _ _. split; [reflexivity|]. split; [auto|discriminate]. }
    assert (Hvar : cssLoop random ints after rest
                     (acc ++ [lit "var(--" ++ random ++ lit ")"]) = Ok (Multi tokens))
      by (destruct (test valueRe (stripped before)); exact H).
    apply (Hgo _ _ (fun m Hm => Hm) Hvar).
    split; [discriminate|]. split; [discriminate|].
    intros _ _. split; [reflexivity|]. split; [discriminate|reflexivity].
Qed.

Lemma unit_test_position (parts : list TemplatePart) (i : nat) (a : TemplatePart) :
  nth_error parts i = Some a ->
  test unitRe (stripped a) = true <-> unitPosition parts i.
Proof.
  intros Ha. unfold unitPosition, afterCssAt.
  rewrite (nth_error_nth _ _ _ Ha). apply test_unit.
Qed.

Lemma not_true_iff_false' (b : bool) (P : Prop) :
  (b = true <-> P) -> ~ P -> b = false.
Proof. intros H Hn. destruct b; [exfalso; apply Hn, H; reflexivity|reflexivity]. Qed.

(** Stylesheet mode, the returned array.  Boundary by boundary, the token
    is decided by what follows the expression, comments stripped: [--] and
    the random base before a colon, a numeral drawn from the random source
    that is not in the text of the part before it when a word character
    follows, and [var(--], the random base and [)] otherwise; no boundary of
    a returned array is in rule position unless it is in selector or key
    position. *)
Theorem getPlaceholder_css_tokens (rnd : Entropy) (parts : list TemplatePart)
    (tag : option str) (tokens : list str) :
  isCssTag tag = true ->
  getPlaceholder rnd parts tag = Ok (Multi tokens) ->
  forall i, 1 <= i < length parts ->
    ~ selectorPosition parts i ->
    exists tok,
      nth_error tokens (i - 1) = Some tok
      /\ (keyPosition parts i -> tok = lit "--" ++ cssRandom rnd)
      /\ (~ keyPosition parts i ->
          ~ rulePosition parts i
          /\ (unitPosition parts i ->
              (exists n, In n (randomInt rnd) /\ tok = decimal n)
              /\ ~ occursIn (text (nth (i - 1) parts (Part [] 0 0))) tok)
          /\ (~ unitPosition parts i ->
              tok = lit "var(--" ++ cssRandom rnd ++ lit ")")).
Proof.
  intros Hcss H i Hi Hnsel. unfold getPlaceholder in H. rewrite Hcss in H.
  fold (cssRandom rnd) in H.
  destruct parts as [|first rest]; [simpl in Hi; lia|].
  apply cssLoop_tokens in H as (fresh & -> & Hlen & Hall). simpl app.
  destruct i as [|j]; [lia|]. simpl in Hi.
  replace (S j - 1) with j by lia.
  destruct (nth_error rest j) as [a|] eqn:Ha;
    [|apply nth_error_None in Ha; lia].
  destruct (nth_error (first :: rest) j) as [b|] eqn:Hb;
    [|apply nth_error_None in Hb; simpl in Hb; lia].
  destruct (Hall j b a Hb Ha) as (tok & Hnth & _ & Hkey & Hother).
  assert (Ha' : nth_error (first :: rest) (S j) = Some a) by exact Ha.
  assert (Esel : test selectorRe (stripped a) = false)
    by (apply (not_true_iff_false' _ _ (selector_test_position _ _ _ Ha') Hnsel)).
  exists tok. split; [exact Hnth|]. split.
  - intros Hk. apply Hkey; [exact Esel|].
    now apply (key_test_position _ _ _ Ha').
  - intros Hnk.
    assert (Ekey : test keyRe (stripped a) = false)
      by (apply (not_true_iff_false' _ _ (key_test_position _ _ _ Ha') Hnk)).
    destruct (Hother Esel Ekey) as (Hrule & Hunit & Hvar). split; [|split].
    + intros Hr. unfold rulePosition, beforeCssAt in Hr.
      replace (S j - 1) with j in Hr by lia.
      rewrite (nth_error_nth _ _ _ Hb) in Hr. fold (stripped b) in Hr.
      unfold isRuleTest in Hrule. apply orb_false_iff in Hrule as [Hr1 Hr2].
      destruct Hr as [Hr|Hr].
      * apply test_precededBy in Hr. unfold ruleRe in Hr1. congruence.
      * apply trim_blank in Hr. congruence.
    + intros Hu. apply (unit_test_position _ _ _ Ha') in Hu.
      rewrite (nth_error_nth _ _ _ Hb). now apply Hunit.
    + intros Hnu. apply Hvar.
      apply (not_true_iff_false' _ _ (unit_test_position _ _ _ Ha') Hnu).
Qed.

Lemma getPlaceholder_css_tokens_witness :
  isCssTag (Some (lit "css")) = true
  /\ getPlaceholder fiveEntropy unitTemplate (Some (lit "css")) = Ok (Multi [lit "5"])
  /\ exists tok,
       nth_error [lit "5"] (1 - 1) = Some tok
       /\ (keyPosition unitTemplate 1 -> tok = lit "--" ++ cssRandom fiveEntropy)
       /\ (~ keyPosition unitTemplate 1 ->
           ~ rulePosition unitTemplate 1
           /\ (unitPosition unitTemplate 1 ->
               (exists n, In n (randomInt fiveEntropy) /\ tok = decimal n)
               /\ ~ occursIn (text (nth (1 - 1) unitTemplate (Part [] 0 0))) tok)
           /\ (~ unitPosition unitTemplate 1 ->
               tok = lit "var(--" ++ cssRandom fiveEntropy ++ lit ")")).
Proof.
  split; [reflexivity|]. split; [reflexivity|].
  apply (getPlaceholder_css_tokens fiveEntropy unitTemplate (Some (lit "css")) [lit "5"]).
  - reflexivity.
  - reflexivity.
  - simpl. lia.
  - intros Hsel.
    apply (selector_test_position unitTemplate 1
             (Part (lit "px; height: 5px; }") 23 41) eq_refl) in Hsel.
    vm_compute in Hsel. discriminate.
Defined.

Lemma cssLoop_rule (random : str) (pre : list TemplatePart) :
  forall (ints : list N) (before : TemplatePart) (acc : list str)
         (a : TemplatePart) (post : list TemplatePart),
    Forall (fun p => test selectorRe (stripped p) = true
                     \/ test keyRe (stripped p) = true) pre ->
    test selectorRe (stripped a) = false ->
    test keyRe (stripped a) = false ->
    isRuleTest (last (before :: pre) before) = true ->
    cssLoop random ints before (pre ++ a :: post) acc
    = Ok (Single (lit "@" ++ random ++ lit "();")).
Proof.
  induction pre as [|p pre IH]; intros ints before acc a post Hpre Hsel Hkey Hrule.
  - cbn [app cssLoop]. cbv zeta. unfold stripped in Hsel, Hkey.
    rewrite Hsel, Hkey. unfold isRuleTest, stripped in Hrule. simpl in Hrule.
    rewrite Hrule. reflexivity.
  - inversion Hpre as [|p' pre' Hp Hpre']; subst.
    assert (Hlast : last (before :: p :: pre) before = last (p :: pre) p).
    { clear. revert before p. induction pre as [|q pre IH]; intros before p; [reflexivity|].
      change (last (before :: p :: q :: pre) before) with (last (p :: q :: pre) before).
      change (last (p :: q :: pre) p) with (last (q :: pre) p).
      change (last (p :: q :: pre) before) with (last (q :: pre) before).
      clear IH. revert q. induction pre as [|r pre IH]; intros q; [reflexivity|].
      change (last (q :: r :: pre) before) with (last (r :: pre) before).
      change (last (q :: r :: pre) p) with (last (r :: pre) p). apply IH. }
    rewrite Hlast in Hrule.
    cbn [app cssLoop]. cbv zeta. unfold stripped in Hp.
    destruct (test selectorRe (replace comment [] (text p))) eqn:Es.
    + now apply IH.
    + destruct Hp as [Hp|Hp]; [discriminate|]. rewrite Hp. now apply IH.
Qed.

(** Stylesheet mode, the early return.  When the boundaries before
    boundary [i] are all in selector or key position and boundary [i] is in
    rule position and in neither of those, the generator returns the single
    call-style token, whatever follows and whatever the random integers. *)
Theorem getPlaceholder_css_rule (rnd : Entropy) (parts : list TemplatePart)
    (tag : option str) (i : nat) :
  isCssTag tag = true ->
  1 <= i < length parts ->
  (forall j, 1 <= j < i -> selectorPosition parts j \/ keyPosition parts j) ->
  rulePosition parts i ->
  ~ selectorPosition parts i ->
  ~ keyPosition parts i ->
  getPlaceholder rnd parts tag = Ok (Single (lit "@" ++ cssRandom rnd ++ lit "();")).
Proof.
  intros Hcss Hi Hbefore Hrule Hnsel Hnkey.
  unfold getPlaceholder. rewrite Hcss. fold (cssRandom rnd).
  destruct parts as [|first rest]; [simpl in Hi; lia|]. simpl in Hi.
  destruct i as [|k]; [lia|].
  destruct (nth_error rest k) as [a|] eqn:Ha; [|apply nth_error_None in Ha; lia].
  destruct (nth_error_split rest k Ha) as (pre & post & Hrest & Hlen).
  rewrite Hrest.
  assert (Ha' : nth_error (first :: rest) (S k) = Some a) by exact Ha.
  apply cssLoop_rule.
  - apply Forall_forall. intros p Hin. apply In_nth_error in Hin as [j Hj].
    assert (Hjk : j < k) by (rewrite <- Hlen; apply nth_error_Some; congruence).
    assert (Hp : nth_error (first :: rest) (S j) = Some p).
    { simpl. rewrite Hrest, nth_error_app1 by lia. exact Hj. }
    destruct (Hbefore (S j) ltac:(lia)) as [H|H].
    + left. now apply (selector_test_position _ _ _ Hp).
    + right. now apply (key_test_position _ _ _ Hp).
  - apply (not_true_iff_false' _ _ (selector_test_position _ _ _ Ha') Hnsel).
  - apply (not_true_iff_false' _ _ (key_test_position _ _ _ Ha') Hnkey).
  - assert (Hb : nth_error (first :: rest) k = Some (last (first :: pre) first)).
    { rewrite Hrest. change (first :: pre ++ a :: post) with ((first :: pre) ++ a :: post).
      rewrite nth_error_app1 by (simpl; lia).
      rewrite <- Hlen. clear. revert first.
      induction pre as [|p pre IH]; intros first; [reflexivity|].
      change (nth_error (first :: p :: pre) (length (p :: pre)))
        with (nth_error (p :: pre) (length pre)).
      rewrite IH. f_equal.
      clear IH. revert p. induction pre as [|q pre IH]; intros p; [reflexivity|].
      change (last (p :: q :: pre) p) with (last (q :: pre) p).
      change (last (first :: p :: q :: pre) first) with (last (q :: pre) first).
      specialize (IH q).
      change (last (first :: q :: pre) first) with (last (q :: pre) first) in IH.
      destruct pre as [|r pre]; [reflexivity|].
      change (last (q :: r :: pre) p) with (last (r :: pre) p).
      change (last (q :: r :: pre) first) with (last (r :: pre) first).
      change (last (q :: r :: pre) q) with (last (r :: pre) q) in IH.
      change (last (q :: r :: pre) first) with (last (r :: pre) first) in IH.
      clear IH. revert r. induction pre as [|t pre IH]; intros r; [reflexivity|].
      change (last (r :: t :: pre) p) with (last (t :: pre) p).
      change (last (r :: t :: pre) first) with (last (t :: pre) first). apply IH. }
    unfold rulePosition, beforeCssAt in Hrule.
    replace (S k - 1) with k in Hrule by lia.
    rewrite (nth_error_nth _ _ _ Hb) in Hrule.
    fold (stripped (last (first :: pre) first)) in Hrule.
    unfold isRuleTest. apply orb_true_iff. destruct Hrule as [H|H].
    + left. now apply test_precededBy.
    + right. now apply trim_blank.
Qed.

Lemma getPlaceholder_css_rule_witness :
  isCssTag (Some (lit "css")) = true
  /\ getPlaceholder zeroEntropy [Part [] 4 4; Part (lit " a { color: red; }") 11 29]
       (Some (lit "css"))
     = Ok (Single (lit "@" ++ cssRandom zeroEntropy ++ lit "();")).
Proof.
  split; [reflexivity|].
  apply (getPlaceholder_css_rule zeroEntropy
           [Part [] 4 4; Part (lit " a { color: red; }") 11 29] (Some (lit "css")) 1).
  - reflexivity.
  - simpl. lia.
  - intros j Hj. lia.
  - right. constructor.
  - intros H.
    apply (selector_test_position [Part [] 4 4; Part (lit " a { color: red; }") 11 29] 1
             (Part (lit " a { color: red; }") 11 29) eq_refl) in H.
    vm_compute in H. discriminate.
  - intros H.
    apply (key_test_position [Part [] 4 4; Part (lit " a { color: red; }") 11 29] 1
             (Part (lit " a { color: red; }") 11 29) eq_refl) in H.
    vm_compute in H. discriminate.
Defined.

Lemma cssLoop_returns (random : str) (rest : list TemplatePart) :
  forall (ints : list N) (before : TemplatePart) (acc : list str),
    length rest <= length ints ->
    (forall n part, In n ints -> In part (before :: rest) ->
                    ~ occursIn (text part) (decimal n)) ->
    exists placeholder, cssLoop random ints before rest acc = Ok placeholder.
Proof.
  induction rest as [|after rest IH]; intros ints before acc Hlen Hfree.
  - eexists. reflexivity.
  - cbn [cssLoop]. cbv zeta.
    assert (Hgo : forall ints' tok,
              length rest <= length ints' ->
              (forall n, In n ints' -> In n ints) ->
              exists placeholder,
                cssLoop random ints' after rest (acc ++ [tok]) = Ok placeholder).
    { intros ints' tok Hl Hsub. apply IH; [exact Hl|].
      intros n part Hn Hp. apply Hfree; [now apply Hsub|now right]. }
    simpl in Hlen.
    destruct (test selectorRe _); [apply Hgo; [lia|auto]|].
    destruct (test keyRe _); [apply Hgo; [lia|auto]|].
    destruct (_ || _); [eexists; reflexivity|].
    destruct (test unitRe _).
    { destruct ints as [|n ints]; [simpl in Hlen; lia|].
      cbn [drawNum]. cbv zeta.
      assert (Hn : includes (text before) (decimal n) = false).
      { apply not_true_is_false. intros H. apply includes_occursIn in H.
        apply (Hfree n before); [now left|now left|exact H]. }
      rewrite Hn. cbn [negb bind fst snd].
      apply Hgo; [simpl in Hlen; lia|]. intros m Hm. now right. }
    destruct (test valueRe _); apply Hgo; try lia; auto.
Qed.

(** Stylesheet mode returns.  With one random integer at hand for every
    boundary and no numeral of those integers in any part, the generator
    returns a placeholder: the loop on the random integers ends at its
    first draw. *)
Theorem getPlaceholder_css_returns (rnd : Entropy) (parts : list TemplatePart)
    (tag : option str) :
  isCssTag tag = true ->
  length parts - 1 <= length (randomInt rnd) ->
  (forall n part, In n (randomInt rnd) -> In part parts ->
                  ~ occursIn (text part) (decimal n)) ->
  exists placeholder, getPlaceholder rnd parts tag = Ok placeholder.
Proof.
  intros Hcss Hlen Hfree. unfold getPlaceholder. rewrite Hcss.
  destruct parts as [|first rest]; [eexists; reflexivity|].
  apply cssLoop_returns; [simpl in Hlen; lia|exact Hfree].
Qed.

Lemma getPlaceholder_css_returns_witness :
  isCssTag (Some (lit "css")) = true
  /\ exists placeholder,
       getPlaceholder {| randomBytes := zeroBytes; randomInt := [7%N] |}
         unitTemplate (Some (lit "css"))
       = Ok placeholder.
Proof.
  split; [reflexivity|].
  apply (getPlaceholder_css_returns {| randomBytes := zeroBytes; randomInt := [7%N] |}
           unitTemplate (Some (lit "css"))).
  - reflexivity.
  - simpl. lia.
  - intros n part [<-|[]] Hpart Hocc. apply includes_occursIn in Hocc.
    destruct Hpart as [<-|[<-|[]]]; vm_compute in Hocc; discriminate.
Defined.

(* ================================================================== *)
(** * More on the combiner and the splitter *)
(* ================================================================== *)

(** The combined string is the texts of the parts with the tokens between
    them and no token behind the last part: the single token between all
    parts, or the tokens of an array that has one token for each
    boundary. *)
Theorem combineHTMLStrings_interleaved (parts : list TemplatePart)
    (placeholder : Placeholder) :
  parts <> [] ->
  (forall tokens, placeholder = Multi tokens -> length tokens = length parts - 1) ->
  combineHTMLStrings parts placeholder
  = interleave (List.map text parts) (insertedTokens placeholder (length parts)).
Proof.
  intros Hne Hlen. destruct placeholder as [token|tokens]; simpl.
  - rewrite <- (length_map text parts). symmetry. apply interleave_repeat.
  - apply (combine_multi_interleave tokens parts 0 Hne). now apply Hlen.
Qed.

Lemma combineHTMLStrings_interleaved_witness :
  combineHTMLStrings valueTemplate (Multi [lit "var(--t)"])
  = interleave (List.map text valueTemplate)
      (insertedTokens (Multi [lit "var(--t)"]) (length valueTemplate)).
Proof.
  apply (combineHTMLStrings_interleaved valueTemplate (Multi [lit "var(--t)"])).
  - discriminate.
  - intros tokens H. injection H as <-. reflexivity.
Defined.

Lemma substring_removelast (token : str) :
  substring token 0 (length token - 1) = removelast token.
Proof.
  unfold substring, slice. cbn [Nat.min Nat.max skipn].
  rewrite Nat.sub_0_r, removelast_firstn_len. f_equal. lia.
Qed.

(** Single-token mode never throws.  With a token that ends in a semicolon
    it returns, in their order, the pieces of every piece of the split at
    the token, split again at the token without its semicolon; with another
    token, the split at the token. *)
Theorem splitHTMLByPlaceholder_single_pieces (html token : str) :
  splitHTMLByPlaceholder html (Single token)
  = Ok (if endsWith token (lit ";")
        then flat_map (fun piece => split piece (removelast token)) (split html token)
        else split html token).
Proof.
  unfold splitHTMLByPlaceholder. destruct (endsWith token (lit ";")); [|reflexivity].
  f_equal. rewrite substring_removelast.
  pose proof (spliceLoop_flat_map (removelast token) (split html token) []) as H.
  now rewrite !app_nil_r in H.
Qed.

Lemma splitHTMLByPlaceholder_single_shape (html token : str) :
  splitHTMLByPlaceholder html (Single token)
  = Ok (if endsWith token (lit ";")
        then flat_map (fun piece => split piece (removelast token)) (split html token)
        else split html token).
Proof.
  unfold splitHTMLByPlaceholder. destruct (endsWith token (lit ";")); [|reflexivity].
  f_equal. rewrite substring_removelast.
  pose proof (spliceLoop_flat_map (removelast token) (split html token) []) as H.
  now rewrite !app_nil_r in H.
Qed.

Lemma firstn_app_exact (segment rest : str) :
  firstn (length segment) (segment ++ rest) = segment.
Proof. now rewrite firstn_app, firstn_all, Nat.sub_diag, firstn_0, app_nil_r. Qed.

Lemma skipn_app_exact (segment rest : str) :
  skipn (length segment) (segment ++ rest) = rest.
Proof. now rewrite skipn_app, skipn_all, Nat.sub_diag, skipn_O. Qed.

Lemma scanTokens_exact (html : str) (tokens : list str) :
  forall (segments : list str) (pos : nat) (acc : list str),
    length segments = length tokens + 1 ->
    FirstAtEnds segments tokens ->
    pos <= length html ->
    skipn pos html = interleave segments tokens ->
    scanTokens html tokens pos acc = Ok (acc ++ segments).
Proof.
  induction tokens as [|ph tokens IH]; intros segments pos acc Hlen Hfirst Hpos Hskip.
  - destruct segments as [|segment [|]]; simpl in Hlen; try lia.
    simpl in *. unfold sliceFrom. now rewrite Hskip.
  - destruct segments as [|segment segments]; [simpl in Hlen; lia|].
    inversion Hfirst as [|s ss p ts Hfst Hrest]; subst.
    cbn [interleave] in Hskip. cbn [scanTokens].
    assert (Hocc : occursAt html ph (pos + length segment)).
    { exists (firstn pos html ++ segment), (interleave segments tokens). split.
      - rewrite <- app_assoc, <- Hskip. symmetry. apply firstn_skipn.
      - rewrite length_app, firstn_length_le by exact Hpos. reflexivity. }
    assert (Hnext : nextOccurrence html ph pos (pos + length segment)).
    { split; [lia|]. split; [exact Hocc|].
      intros j Hj1 Hj2 Hj. apply occursAt_iff in Hj as [_ Hj].
      replace j with (pos + (j - pos)) in Hj by lia.
      rewrite <- skipn_skipn_add, Hskip in Hj.
      apply (Hfst (j - pos)); [lia|].
      apply occursAt_iff. split; [rewrite length_app; lia|].
      rewrite app_assoc, skipn_app in Hj.
      replace (j - pos - length (segment ++ ph)) with 0 in Hj
        by (rewrite length_app; lia).
      rewrite skipn_O in Hj.
      apply (startsWith_app_long _ _ _ Hj).
      rewrite length_skipn, length_app. lia. }
    rewrite (indexOf_complete _ _ _ _ Hnext).
    assert (Hslice : slice html pos (pos + length segment) = segment).
    { unfold slice. replace (pos + length segment - pos) with (length segment) by lia.
      rewrite Hskip. apply firstn_app_exact. }
    rewrite Hslice.
    pose proof (occursAt_bound _ _ _ Hocc) as Hb.
    rewrite (IH segments (pos + length segment + length ph) (acc ++ [segment])).
    + now rewrite <- app_assoc.
    + simpl in Hlen. lia.
    + exact Hrest.
    + lia.
    + rewrite <- !skipn_skipn_add, Hskip, skipn_app_exact. apply skipn_app_exact.
Qed.

(** Multi-token mode gives the segments back.  When no token occurs in
    its segment followed by the token before the place it was put, the
    split of the segments with the tokens between them is the segments. *)
Theorem splitHTMLByPlaceholder_multi_exact (segments tokens : list str) :
  length segments = length tokens + 1 ->
  FirstAtEnds segments tokens ->
  splitHTMLByPlaceholder (interleave segments tokens) (Multi tokens) = Ok segments.
Proof.
  intros Hlen Hfirst. unfold splitHTMLByPlaceholder.
  apply (scanTokens_exact (interleave segments tokens) tokens segments 0 []);
    try assumption; [lia|reflexivity].
Qed.

Lemma splitHTMLByPlaceholder_multi_exact_witness :
  splitHTMLByPlaceholder
    (interleave [lit "a{width:"; lit "px;height:5px}"] [lit "5"]) (Multi [lit "5"])
  = Ok [lit "a{width:"; lit "px;height:5px}"].
Proof.
  apply (splitHTMLByPlaceholder_multi_exact
           [lit "a{width:"; lit "px;height:5px}"] [lit "5"]).
  - reflexivity.
  - constructor; [|constructor].
    intros j Hj Hocc. apply occursAt_iff in Hocc as [_ Hocc].
    simpl in Hj.
    do 8 (destruct j as [|j]; [vm_compute in Hocc; discriminate|]). lia.
Defined.

Lemma split_join (token : str) (c : ascii) (body : str) (segments : list str) :
  token = c :: body -> ~ In c body ->
  Forall (fun segment => ~ occursIn segment token) segments ->
  segments <> [] ->
  split (join segments token) token = segments.
Proof.
  intros Htok Hc Hfree Hne. subst token. unfold split.
  apply (splitFrom_join (c :: body) c body segments eq_refl Hc Hfree Hne). lia.
Qed.

Lemma startsWith_app_same (a r b : str) :
  startsWith (a ++ r) (a ++ b) = startsWith r b.
Proof.
  induction a as [|x a IH]; simpl; [reflexivity|]. now rewrite Ascii.eqb_refl, IH.
Qed.

Lemma startsWith_prefix (s t u : str) :
  startsWith s (t ++ u) = true -> startsWith s t = true.
Proof.
  intros H. apply startsWith_inv in H as [after ->].
  rewrite <- app_assoc. apply startsWith_app.
Qed.

Section SemicolonTolerance.

(** A call-style token [whole], and [short], the token without its
    semicolon. *)
Variable body : str.
Hypothesis body_no_at : ~ In "@"%char body.

Let short : str := "@"%char :: body.
Let whole : str := short ++ [";"%char].

Lemma short_not_before (segment rest : str) (j : nat) :
  ~ occursIn segment short -> j < length segment ->
  ~ occursAt (segment ++ short ++ rest) short j.
Proof.
  intros Hfree Hj.
  pose proof (indexOf_first_token segment short rest "@"%char body eq_refl
                body_no_at Hfree) as Hidx.
  apply indexOf_Some in Hidx; [|lia].
  destruct Hidx as (_ & _ & Hmin). apply Hmin; lia.
Qed.

Lemma join_not_semicolon (next : str) (group : list str) :
  startsWith next (lit ";") = false ->
  startsWith (join (next :: group) short) (lit ";") = false.
Proof.
  intros Hnext. destruct group as [|s group]; [exact Hnext|].
  rewrite join_cons by discriminate.
  destruct next as [|c next]; [reflexivity|].
  simpl in *. destruct (Ascii.eqb c ";"); [discriminate|reflexivity].
Qed.

(** Segments joined by the short token hold the whole token nowhere, when
    no segment holds the short token and no segment behind a short token
    starts with a semicolon. *)
Lemma group_no_whole (group : list str) :
  group <> [] ->
  Forall (fun segment => ~ occursIn segment short) group ->
  Forall (fun segment => startsWith segment (lit ";") = false) (tl group) ->
  ~ occursIn (join group short) whole.
Proof.
  induction group as [|segment group IH]; intros Hne Hfree Hsemi; [congruence|].
  destruct group as [|next group].
  - simpl. intros Hocc. inversion Hfree; subst.
    apply occursIn_prefix in Hocc. contradiction.
  - rewrite join_cons by discriminate.
    inversion Hfree as [|s ss Hseg Hfree']; subst.
    simpl in Hsemi. inversion Hsemi as [|s ss Hnext Hsemi']; subst.
    set (R := join (next :: group) short) in *.
    intros [j Hocc]. apply occursAt_iff in Hocc as [Hlen Hocc].
    destruct (Nat.lt_ge_cases j (length segment)) as [Hj|Hj].
    + apply (short_not_before segment R j Hseg Hj).
      apply occursAt_iff. split; [exact Hlen|].
      now apply (startsWith_prefix _ short [";"%char]).
    + rewrite skipn_app, skipn_all2 in Hocc by lia. cbn [app] in Hocc.
      remember (j - length segment) as k eqn:Hk.
      destruct (Nat.eq_dec k 0) as [->|Hk0].
      * rewrite skipn_O in Hocc. unfold whole in Hocc.
        rewrite startsWith_app_same in Hocc.
        pose proof (join_not_semicolon next group Hnext) as Hns.
        fold R in Hns. change (lit ";") with [";"%char] in Hns. congruence.
      * destruct (Nat.lt_ge_cases k (length short)) as [Hks|Hks].
        -- rewrite skipn_app in Hocc.
           replace (k - length short) with 0 in Hocc by lia.
           rewrite skipn_O in Hocc.
           destruct k as [|k]; [lia|]. unfold short in Hocc at 1. cbn [skipn] in Hocc.
           assert (Hkb : k < length body) by (unfold short in Hks; simpl in Hks; lia).
           destruct (skipn k body) as [|c rest] eqn:Hs.
           { apply (f_equal (@length ascii)) in Hs. rewrite length_skipn in Hs.
             simpl in Hs. lia. }
           unfold whole, short in Hocc. simpl in Hocc.
           apply andb_true_iff in Hocc as [Hc _]. apply Ascii.eqb_eq in Hc. subst c.
           apply body_no_at.
           rewrite <- (firstn_skipn k body), Hs. apply in_or_app. right. now left.
        -- rewrite skipn_app, skipn_all2 in Hocc by lia. cbn [app] in Hocc.
           apply (IH ltac:(discriminate) Hfree' Hsemi').
           exists (k - length short). apply occursAt_iff. split; [|exact Hocc].
           rewrite !length_app in Hlen. fold R. lia.
Qed.

(** The segments, grouped: a group is a run of segments with short tokens
    between them; whole tokens are between the groups. *)
Lemma Stripped_groups (segments separators : list str) :
  Stripped whole segments separators ->
  removelast whole = short ->
  exists group groups,
    interleave segments separators
    = join (List.map (fun g => join g short) (group :: groups)) whole
    /\ concat (group :: groups) = segments
    /\ Forall (fun g => g <> []
                        /\ Forall (fun s => startsWith s (lit ";") = false) (tl g))
              (group :: groups).
Proof.
  intros H Hshort.
  induction H as [segment|segment segments separators H IH
                 |segment next segments separators H IH Hnext].
  - exists [segment], []. simpl. split; [reflexivity|]. split; [reflexivity|].
    constructor; [|constructor]. split; [discriminate|constructor].
  - destruct IH as (group & groups & Hjoin & Hcat & Hgood).
    exists [segment], (group :: groups).
    split; [|split].
    + change (interleave (segment :: segments) (whole :: separators))
        with (segment ++ whole ++ interleave segments separators).
      rewrite Hjoin.
      change (List.map (fun g => join g short) ([segment] :: group :: groups))
        with (segment :: List.map (fun g => join g short) (group :: groups)).
      rewrite join_cons by discriminate. reflexivity.
    + simpl. simpl in Hcat. now rewrite Hcat.
    + constructor; [|exact Hgood]. split; [discriminate|constructor].
  - destruct IH as (group & groups & Hjoin & Hcat & Hgood).
    inversion Hgood as [|g gs [Hne Htl] Hgood']; subst.
    destruct group as [|first group]; [congruence|].
    simpl in Hcat. injection Hcat as -> Hcat.
    exists (segment :: next :: group), groups.
    split; [|split].
    + rewrite Hshort.
      change (interleave (segment :: next :: segments) (short :: separators))
        with (segment ++ short ++ interleave (next :: segments) separators).
      rewrite Hjoin.
      cbn [List.map]. rewrite (join_cons segment) by discriminate.
      destruct groups as [|g groups].
      * reflexivity.
      * cbn [List.map].
        rewrite (join_cons (segment ++ short ++ join (next :: group) short))
          by discriminate.
        rewrite (join_cons (join (next :: group) short)) by discriminate.
        now rewrite <- !app_assoc.
    + simpl. now rewrite Hcat.
    + constructor; [|exact Hgood']. split; [discriminate|].
      simpl. constructor; [exact Hnext|exact Htl].
Qed.

Lemma whole_shape : whole = "@"%char :: (body ++ [";"%char]).
Proof. reflexivity. Qed.

Lemma whole_no_at : ~ In "@"%char (body ++ [";"%char]).
Proof.
  intros H. apply in_app_or in H as [H|[H|[]]]; [now apply body_no_at|discriminate].
Qed.

Lemma concat_groups_free (groups : list (list str)) :
  Forall (fun s => ~ occursIn s short) (concat groups) ->
  Forall (fun g => Forall (fun s => ~ occursIn s short) g) groups.
Proof.
  induction groups as [|g groups IH]; intros H; [constructor|].
  simpl in H. apply Forall_app in H as [Hg Hrest]. constructor; auto.
Qed.

Lemma split_stripped (segments separators : list str) :
  Stripped whole segments separators ->
  Forall (fun segment => ~ occursIn segment short) segments ->
  splitHTMLByPlaceholder (interleave segments separators) (Single whole) = Ok segments.
Proof.
  intros Hstripped Hfree.
  assert (Hshort : removelast whole = short) by apply removelast_last.
  destruct (Stripped_groups _ _ Hstripped Hshort)
    as (group & groups & Hjoin & Hcat & Hgood).
  assert (Hends : endsWith whole (lit ";") = true) by apply endsWith_last.
  rewrite splitHTMLByPlaceholder_single_shape, Hends, Hshort, Hjoin.
  assert (Hfrees : Forall (fun g => Forall (fun s => ~ occursIn s short) g)
                          (group :: groups)).
  { apply concat_groups_free. now rewrite Hcat. }
  assert (Hsplit : split (join (List.map (fun g => join g short) (group :: groups)) whole)
                         whole
                   = List.map (fun g => join g short) (group :: groups)).
  { apply (split_join whole "@"%char (body ++ [";"%char]) _ whole_shape whole_no_at);
      [|discriminate].
    apply Forall_map.
    assert (Hboth : Forall (fun g => (g <> []
                      /\ Forall (fun s => startsWith s (lit ";") = false) (tl g))
                      /\ Forall (fun s => ~ occursIn s short) g) (group :: groups)).
    { clear - Hgood Hfrees. induction Hgood; inversion Hfrees; subst; constructor; auto. }
    eapply Forall_impl; [|exact Hboth].
    intros g [[Hne Htl] Hg]. now apply group_no_whole. }
  rewrite Hsplit. f_equal. rewrite <- Hcat.
  assert (Hboth : Forall (fun g => g <> [] /\ Forall (fun s => ~ occursIn s short) g)
                         (group :: groups)).
  { clear - Hgood Hfrees. induction Hgood as [|g gs [Hne _] _ IH];
      inversion Hfrees; subst; constructor; auto. }
  clear - Hboth body_no_at. induction Hboth as [|g gs [Hne Hg] _ IH]; [reflexivity|].
  cbn [List.map flat_map concat]. rewrite IH. f_equal.
  apply (split_join short "@"%char body g eq_refl body_no_at Hg Hne).
Qed.

End SemicolonTolerance.

Lemma callToken_parts (token : str) :
  callToken token ->
  exists body, ~ In "@"%char body
               /\ token = ("@"%char :: body) ++ [";"%char]
               /\ removelast token = "@"%char :: body.
Proof.
  intros (body & -> & Hat). exists body. split; [exact Hat|]. split; [reflexivity|].
  change ("@"%char :: body ++ [";"%char]) with (("@"%char :: body) ++ [";"%char]).
  apply removelast_last.
Qed.

(** The lost semicolon.  When a minifier has left each inserted call-style
    token whole or without its final semicolon (the text behind a shortened
    token not starting with a semicolon), and no segment holds the token
    without its semicolon, single-token mode returns the segments: as many
    as before, each unchanged. *)
Theorem splitHTMLByPlaceholder_semicolon_tolerant (token : str)
    (segments separators : list str) :
  callToken token ->
  Stripped token segments separators ->
  Forall (fun segment => ~ occursIn segment (removelast token)) segments ->
  splitHTMLByPlaceholder (interleave segments separators) (Single token) = Ok segments.
Proof.
  intros Hcall Hstripped Hfree.
  destruct (callToken_parts token Hcall) as (body & Hat & Htok & Hshort).
  rewrite Hshort in Hfree. subst token.
  apply (split_stripped body Hat); assumption.
Qed.

Lemma splitHTMLByPlaceholder_semicolon_tolerant_witness :
  splitHTMLByPlaceholder
    (lit "<p style=color:@TEMPLATE_EXPRESSION()>@TEMPLATE_EXPRESSION();</p>")
    (Single (lit "@TEMPLATE_EXPRESSION();"))
  = Ok [lit "<p style=color:"; lit ">"; lit "</p>"].
Proof.
  apply (splitHTMLByPlaceholder_semicolon_tolerant (lit "@TEMPLATE_EXPRESSION();")
           [lit "<p style=color:"; lit ">"; lit "</p>"]
           [removelast (lit "@TEMPLATE_EXPRESSION();"); lit "@TEMPLATE_EXPRESSION();"]).
  - exists (lit "TEMPLATE_EXPRESSION()"). split; [reflexivity|].
    intros H. simpl in H. repeat (destruct H as [H|H]; [discriminate|]). exact H.
  - apply Stripped_short; [|reflexivity]. apply Stripped_whole. apply Stripped_last.
  - repeat constructor; intros H; apply includes_occursIn in H;
      vm_compute in H; discriminate.
Defined.

(* ================================================================== *)
(** * The older variant *)
(* ================================================================== *)

Lemma legacy_getPlaceholder_agrees (rnd : Entropy) (parts : list TemplatePart)
    (tag : option str) :
  isCssTag tag = false ->
  getPlaceholder rnd parts tag
  = (token <- Legacy.getPlaceholder parts ;; Ok (Single token)).
Proof.
  intros Hcss. unfold getPlaceholder, Legacy.getPlaceholder. rewrite Hcss.
  destruct (markupLoop (markupFuel parts) parts (lit "@TEMPLATE_EXPRESSION") (lit "();"));
    reflexivity.
Qed.

(** The older strategy, end to end.  Its generator always returns, and the
    split of what its combiner builds gives the texts of the parts back
    when no part holds the token without its semicolon. *)
Theorem legacy_round_trip (parts : list TemplatePart) :
  parts <> [] ->
  exists k,
    Legacy.getPlaceholder parts = Ok (markupCandidate k)
    /\ (forall part, In part parts -> ~ occursIn (text part) (markupCandidate k))
    /\ (Forall (fun part => ~ occursIn (text part) (removelast (markupCandidate k))) parts ->
        Legacy.splitHTMLByPlaceholder
          (Legacy.combineHTMLStrings parts (markupCandidate k)) (markupCandidate k)
        = List.map text parts).
Proof.
  intros Hne.
  destruct (getPlaceholder_markup zeroEntropy parts None eq_refl) as (k & Hget & Hfree).
  exists k. split; [|split].
  - rewrite (legacy_getPlaceholder_agrees zeroEntropy parts None eq_refl) in Hget.
    destruct (Legacy.getPlaceholder parts) as [token| |]; try discriminate.
    injection Hget as ->. reflexivity.
  - exact Hfree.
  - intros Hshort.
    assert (Hcall : callToken (markupCandidate k)).
    { apply (getPlaceholder_Single_callToken zeroEntropy parts None). exact Hget. }
    pose proof (splitHTMLByPlaceholder_join (markupCandidate k) (List.map text parts) Hcall)
      as Hsplit.
    unfold splitHTMLByPlaceholder in Hsplit.
    unfold Legacy.splitHTMLByPlaceholder, Legacy.combineHTMLStrings.
    destruct (endsWith (markupCandidate k) (lit ";")).
    + assert (H : Ok (spliceLoop
                        (length (split (join (List.map text parts) (markupCandidate k))
                                       (markupCandidate k)))
                        (split (join (List.map text parts) (markupCandidate k))
                               (markupCandidate k))
                        (substring (markupCandidate k) 0 (length (markupCandidate k) - 1)))
                  = Ok (List.map text parts)).
      { apply Hsplit; [destruct parts; [congruence|discriminate]|].
        apply Forall_map. exact Hshort. }
      now injection H.
    + assert (H : Ok (split (join (List.map text parts) (markupCandidate k))
                            (markupCandidate k))
                  = Ok (List.map text parts)).
      { apply Hsplit; [destruct parts; [congruence|discriminate]|].
        apply Forall_map. exact Hshort. }
      now injection H.
Qed.

Lemma legacy_round_trip_witness :
  exists k,
    Legacy.getPlaceholder [Part (lit "<p>") 5 8; Part (lit "</p>") 12 16]
    = Ok (markupCandidate k)
    /\ (forall part, In part [Part (lit "<p>") 5 8; Part (lit "</p>") 12 16] ->
          ~ occursIn (text part) (markupCandidate k))
    /\ (Forall (fun part => ~ occursIn (text part) (removelast (markupCandidate k)))
               [Part (lit "<p>") 5 8; Part (lit "</p>") 12 16] ->
        Legacy.splitHTMLByPlaceholder
          (Legacy.combineHTMLStrings [Part (lit "<p>") 5 8; Part (lit "</p>") 12 16]
             (markupCandidate k))
          (markupCandidate k)
        = List.map text [Part (lit "<p>") 5 8; Part (lit "</p>") 12 16]).
Proof.
  apply (legacy_round_trip [Part (lit "<p>") 5 8; Part (lit "</p>") 12 16]).
  discriminate.
Defined.

(* ================================================================== *)
(** * More on the minifier adapter *)
(* ================================================================== *)




Lemma Forall_slice (P : ascii -> Prop) (s : str) (a b : nat) :
  Forall P s -> Forall P (slice s a b).
Proof.
  intros H. unfold slice.
  rewrite <- (firstn_skipn a s) in H. apply Forall_app in H as [_ H].
  rewrite <- (firstn_skipn (b - a) (skipn a s)) in H. now apply Forall_app in H as [H _].
Qed.

Lemma test_space_none (s : str) :
  Forall (fun c => isSpace c = false) s -> test spaceRe s = false.
Proof.
  intros H. apply not_true_is_false. intros Ht.
  apply test_some in Ht as (k & _ & Hexec). unfold spaceRe in Hexec. cbn [exec] in Hexec.
  rewrite <- (firstn_skipn k s) in H. apply Forall_app in H as [_ H].
  destruct (skipn k s) as [|c rest]; [congruence|].
  inversion H; subst. destruct (isSpace c); congruence.
Qed.

Lemma search_pseudoClass_colon (original : str) (lastIndex : nat) :
  ~ In ":"%char original -> search pseudoClassRe original lastIndex = None.
Proof.
  intros Hno. unfold search. destruct (lastIndex <=? length original); [|reflexivity].
  destruct (searchFrom pseudoClassRe lastIndex (skipn lastIndex original)) eqn:E;
    [|reflexivity].
  exfalso.
  assert (Hs : searchFrom pseudoClassRe lastIndex (skipn lastIndex original) <> None)
    by congruence.
  apply searchFrom_some in Hs as (k & _ & Hexec).
  unfold pseudoClassRe in Hexec. cbn [exec] in Hexec.
  rewrite skipn_skipn_add in Hexec.
  destruct (skipn (lastIndex + k) original) as [|c rest] eqn:Hskip; [congruence|].
  destruct (Ascii.eqb c ":") eqn:Ec; [|congruence].
  apply Ascii.eqb_eq in Ec. subst c. apply Hno.
  rewrite <- (firstn_skipn (lastIndex + k) original), Hskip.
  apply in_or_app. right. now left.
Qed.

Lemma tidyLoop_unchanged (original : str) :
  ~ In ":"%char original \/ Forall (fun c => isSpace c = false) original ->
  forall (fuel lastIndex : nat) (result : str),
    tidyLoop fuel original lastIndex result = result.
Proof.
  intros Hcase. induction fuel as [|fuel IH]; intros lastIndex result; [reflexivity|].
  cbn [tidyLoop]. destruct Hcase as [Hno|Hns].
  - now rewrite search_pseudoClass_colon.
  - destruct (search pseudoClassRe original lastIndex) as [m|]; [|reflexivity].
    cbv zeta. rewrite test_space_none by (apply Forall_slice; exact Hns).
    apply IH.
Qed.

(** The pseudo-class fix-up leaves the result alone when the original
    holds no colon, and when it holds no white space: there is then no
    pseudo-class with spaced parameters to restore. *)
Theorem fixCleanCssTidySelectors_unchanged (original result : str) :
  ~ In ":"%char original \/ Forall (fun c => isSpace c = false) original ->
  fixCleanCssTidySelectors original result = result.
Proof. intros H. unfold fixCleanCssTidySelectors. now apply tidyLoop_unchanged. Qed.

Lemma fixCleanCssTidySelectors_unchanged_witness :
  fixCleanCssTidySelectors (lit "a:not(.b){c:d}") (lit "a:not(.b){c:d}")
  = lit "a:not(.b){c:d}".
Proof.
  apply (fixCleanCssTidySelectors_unchanged (lit "a:not(.b){c:d}") (lit "a:not(.b){c:d}")).
  right. repeat constructor.
Defined.

(** What the fix-up is for: the spaces of the parameters come back. *)
Example fixCleanCssTidySelectors_restores :
  fixCleanCssTidySelectors (lit "li:nth-child(2n + 1) { color: red; }")
                           (lit "li:nth-child(2n+1){color:red}")
  = lit "li:nth-child(2n + 1){color:red}".
Proof. reflexivity. Qed.

Lemma searchFrom_found (r : regex) (s : str) :
  forall (i : nat) (m : found),
    searchFrom r i s = Some m ->
    exists k, k <= length s /\ index m = i + k
              /\ exec r [] (i + k) (skipn k s) = Some (stop m, marks m).
Proof.
  induction s as [|c s IH]; intros i m H; cbn [searchFrom] in H.
  - destruct (exec r [] i []) as [[e ms]|] eqn:E; [|discriminate].
    injection H as <-. exists 0. simpl. rewrite Nat.add_0_r. auto.
  - destruct (exec r [] i (c :: s)) as [[e ms]|] eqn:E.
    + injection H as <-. exists 0. simpl. rewrite Nat.add_0_r. split; [lia|auto].
    + apply IH in H as (k & Hk & Hi & Hexec). exists (S k).
      rewrite Nat.add_succ_r. simpl. split; [lia|auto].
Qed.

Lemma exec_newline (ms : list nat) (i : nat) (s : str) (e : nat) (ms' : list nat) :
  exec newlineRe ms i s = Some (e, ms') ->
  (exists rest, s = LF :: rest /\ e = S i)
  \/ (exists rest, s = CR :: LF :: rest /\ e = S (S i)).
Proof.
  unfold newlineRe. cbn [exec]. destruct s as [|c s]; [discriminate|].
  assert (Hlf : forall j t, (match t with
                             | [] => None
                             | c' :: s' => if Ascii.eqb c' LF then Some (S j, ms) else None
                             end) = Some (e, ms') ->
                            exists rest, t = LF :: rest /\ e = S j).
  { intros j [|c' t]; [discriminate|]. destruct (Ascii.eqb c' LF) eqn:Ec; [|discriminate].
    intros H. injection H as <- _. apply Ascii.eqb_eq in Ec. subst c'. now exists t. }
  destruct (Ascii.eqb c CR) eqn:Ecr.
  - apply Ascii.eqb_eq in Ecr. subst c. unfold orElse.
    destruct s as [|c' s'].
    + simpl. discriminate.
    + destruct (Ascii.eqb c' LF) eqn:Ec.
      * intros H. injection H as <- _. apply Ascii.eqb_eq in Ec. subst c'.
        right. now exists s'.
      * simpl. discriminate.
  - intros H. left. apply (Hlf i (c :: s)). exact H.
Qed.

Lemma withoutLineBreaks_app (s t : str) :
  withoutLineBreaks (s ++ t) = withoutLineBreaks s ++ withoutLineBreaks t.
Proof. apply filter_app. Qed.

(** Removing the newlines removes line breaks and nothing else. *)
Lemma replaceFrom_newline (fuel : nat) :
  forall (i : nat) (s : str),
    withoutLineBreaks (replaceFrom fuel newlineRe [] i s) = withoutLineBreaks s.
Proof.
  induction fuel as [|fuel IH]; intros i s; [reflexivity|].
  cbn [replaceFrom]. destruct (searchFrom newlineRe i s) as [m|] eqn:E; [|reflexivity].
  apply searchFrom_found in E as (k & Hk & Hi & Hexec).
  rewrite Hi. replace (i + k - i) with k by lia.
  apply exec_newline in Hexec as [(rest & Hs & He)|(rest & Hs & He)]; rewrite He.
  - replace (S (i + k) =? i + k) with false by (symmetry; apply Nat.eqb_neq; lia).
    replace (S (i + k) - i) with (k + 1) by lia.
    assert (Hrest : skipn (k + 1) s = rest)
      by (rewrite <- skipn_skipn_add, Hs; reflexivity).
    assert (Hwhole : withoutLineBreaks s
                     = withoutLineBreaks (firstn k s) ++ withoutLineBreaks rest).
    { rewrite <- (firstn_skipn k s) at 1. rewrite withoutLineBreaks_app, Hs. reflexivity. }
    rewrite Hrest, Hwhole, !withoutLineBreaks_app, IH. reflexivity.
  - replace (S (S (i + k)) =? i + k) with false by (symmetry; apply Nat.eqb_neq; lia).
    replace (S (S (i + k)) - i) with (k + 2) by lia.
    assert (Hrest : skipn (k + 2) s = rest)
      by (rewrite <- skipn_skipn_add, Hs; reflexivity).
    assert (Hwhole : withoutLineBreaks s
                     = withoutLineBreaks (firstn k s) ++ withoutLineBreaks rest).
    { rewrite <- (firstn_skipn k s) at 1. rewrite withoutLineBreaks_app, Hs. reflexivity. }
    rewrite Hrest, Hwhole, !withoutLineBreaks_app, IH. reflexivity.
Qed.

Lemma substring_pieces (result : str) (a b : nat) :
  a <= b ->
  substring result 0 a ++ substring result a b ++ substringFrom result b = result.
Proof.
  intros Hab. unfold substring, substringFrom, slice.
  rewrite (Nat.min_l a b), (Nat.max_r a b) by exact Hab. cbn [Nat.min Nat.max skipn].
  rewrite Nat.sub_0_r.
  replace (skipn b result) with (skipn (b - a) (skipn a result))
    by (rewrite skipn_skipn_add; f_equal; lia).
  now rewrite firstn_skipn, firstn_skipn.
Qed.

(** The pass over the [<svg] elements deletes line breaks and nothing
    else: whatever the start indices, the result without its line breaks is
    the input without its line breaks. *)
Theorem svgLoop_line_breaks_only (matches : list nat) (result : str) :
  withoutLineBreaks (svgLoop matches result) = withoutLineBreaks result.
Proof.
  unfold svgLoop. revert result.
  induction matches as [|startTagIndex matches IH]; intros result; [reflexivity|].
  cbn [fold_left]. rewrite IH.
  destruct (indexOf result (lit "</svg") startTagIndex) as [closeTagIndex|] eqn:E;
    [|reflexivity].
  assert (Hle : startTagIndex <= closeTagIndex).
  { destruct (Nat.le_gt_cases startTagIndex (length result)) as [Hin|Hout].
    - now destruct (indexOf_Some _ _ _ _ Hin E) as (H & _).
    - unfold indexOf in E. rewrite Nat.min_r in E by lia.
      rewrite skipn_all in E. simpl in E. discriminate. }
  rewrite <- (substring_pieces result startTagIndex closeTagIndex Hle) at 4.
  rewrite !withoutLineBreaks_app. unfold replace. now rewrite replaceFrom_newline.
Qed.

Lemma exec_chars_app (pat : str) (r : regex) :
  forall (ms : list nat) (i : nat) (s : str),
    exec (List.map Chr pat ++ r) ms i s
    = if startsWith s pat then exec r ms (i + length pat) (skipn (length pat) s)
      else None.
Proof.
  induction pat as [|b pat IH]; intros ms i s.
  - simpl. now rewrite Nat.add_0_r.
  - cbn [List.map app exec startsWith]. destruct s as [|a s]; [reflexivity|].
    destruct (Ascii.eqb a b); cbn [andb]; [|reflexivity].
    rewrite IH. cbn [length skipn]. now rewrite Nat.add_succ_r.
Qed.

Lemma startsWith_split (s t : str) :
  startsWith s t = true -> s = t ++ skipn (length t) s.
Proof.
  intros H. apply startsWith_inv in H as [after ->]. now rewrite skipn_app_exact.
Qed.

(** The pre-flight test at an index: the regular expression matches the
    input from there exactly when the input starts with a comment opening,
    the base token and a comment closing, with no line terminator between
    them. *)
Lemma exec_commentExpression (ms : list nat) (i : nat) (s : str) :
  exec commentExpressionRe ms i s <> None
  <-> exists inner inner' back,
        s = lit "<!--" ++ inner ++ lit "@TEMPLATE_EXPRESSION();"
                ++ inner' ++ lit "-->" ++ back
        /\ oneLine inner /\ oneLine inner'.
Proof.
  unfold commentExpressionRe, chars. rewrite exec_chars_app. split.
  - destruct (startsWith s (lit "<!--")) eqn:E1; [|congruence].
    apply startsWith_split in E1. intros H. cbn [app exec] in H.
    apply star_some in H as (inner & rest & Hrest & Hinner & H).
    cbn [exec] in H. rewrite exec_chars_app in H.
    destruct (startsWith rest (lit "@TEMPLATE_EXPRESSION();")) eqn:E2; [|congruence].
    apply startsWith_split in E2. cbn [app exec] in H.
    apply star_some in H as (inner' & rest' & Hrest' & Hinner' & H).
    cbn [exec] in H. rewrite exec_chars in H.
    destruct (startsWith rest' (lit "-->")) eqn:E3; [|congruence].
    apply startsWith_split in E3.
    exists inner, inner', (skipn (length (lit "-->")) rest').
    split; [|split; assumption].
    rewrite E1, Hrest, E2, Hrest', E3 at 1. reflexivity.
  - intros (inner & inner' & back & -> & Hinner & Hinner').
    rewrite startsWith_app, skipn_app_exact. cbn [app exec].
    apply star_some. exists inner, (lit "@TEMPLATE_EXPRESSION();" ++ inner' ++ lit "-->" ++ back).
    split; [reflexivity|]. split; [exact Hinner|].
    cbn [exec]. rewrite exec_chars_app, startsWith_app, skipn_app_exact. cbn [app exec].
    apply star_some. exists inner', (lit "-->" ++ back).
    split; [reflexivity|]. split; [exact Hinner'|].
    cbn [exec]. rewrite exec_chars, startsWith_app. discriminate.
Qed.

Lemma test_commentExpression (html : str) :
  test commentExpressionRe html = true <-> commentOnOneLine html.
Proof.
  rewrite test_some. unfold commentOnOneLine. split.
  - intros (k & Hk & H). apply exec_commentExpression in H
      as (inner & inner' & back & Hs & Hinner & Hinner').
    exists (firstn k html), inner, inner', back. split; [|split; assumption].
    rewrite <- Hs. symmetry. apply firstn_skipn.
  - intros (front & inner & inner' & back & -> & Hinner & Hinner').
    exists (length front). split; [rewrite length_app; lia|].
    rewrite skipn_app_exact. apply exec_commentExpression.
    now exists inner, inner', back.
Qed.

Section Preflight.

Variable C : Type.
Variable emptyCSSOptions : C.
Variable minify : str -> HTMLOptions C -> option (AdjustedCSSOptions C) -> Result str.

(** The pre-flight of [minifyHTML].  When the base token stands in a
    comment with no line terminator between the opening, the token and the
    closing, the input comes back as it is, whatever the minifier and the
    options: the minifier is not consulted. *)
Theorem minifyHTML_skips_comment (html : str) (options : HTMLOptions C) :
  commentOnOneLine html ->
  minifyHTML emptyCSSOptions minify html options = Ok html.
Proof.
  intros H. apply test_commentExpression in H. unfold minifyHTML. now rewrite H.
Qed.

End Preflight.

Lemma minifyHTML_skips_comment_witness :
  minifyHTML tt commentRemovingMinify
    (lit "<p><!-- @TEMPLATE_EXPRESSION(); --></p>") (defaultMinifyOptions tt)
  = Ok (lit "<p><!-- @TEMPLATE_EXPRESSION(); --></p>").
Proof.
  apply (minifyHTML_skips_comment unit tt commentRemovingMinify
           (lit "<p><!-- @TEMPLATE_EXPRESSION(); --></p>") (defaultMinifyOptions tt)).
  exists (lit "<p>"), (lit " "), (lit " "), (lit "</p>").
  split; [reflexivity|]. split; repeat constructor.
Defined.

Lemma minifyCSS_warnings_plain_witness :
  minifyCSS tt warningCleanCSS (lit "a{color:var(--tmp_0);}") None
  = Ok (withoutLineBreaks (lit "a{color:var(--tmp_0);}")).
Proof.
  apply (minifyCSS_warnings_plain unit tt warningCleanCSS
           (lit "a{color:var(--tmp_0);}") None
           {| errors := []; warnings := [lit "Invalid property name"];
              styles := lit "a{color:var(--tmp_0);}" |}).
  - intros H. apply includes_occursIn in H. vm_compute in H. discriminate.
  - reflexivity.
  - reflexivity.
  - discriminate.
Defined.

(* ================================================================== *)
(** * More on the orchestrator *)
(* ================================================================== *)

Section Untouched.

Variable C : Type.
Variable emptyCSSOptions : C.
Variable minify : str -> HTMLOptions C -> option (AdjustedCSSOptions C) -> Result str.
Variable cleanCSS : AdjustedCSSOptions C -> str -> Result CleanCSSOutput.
Variable SourceMap : Type.
Variable P : Type.
Variable MagicString_import : MagicStringLike SourceMap.
Variable parseLiterals_import : str -> ParseLiteralsOptions P -> Result (list Template).

Abbreviation Options' := (Options C SourceMap P).
Abbreviation run' := (minifyHTMLLiterals emptyCSSOptions minify cleanCSS
                        MagicString_import parseLiterals_import).
Abbreviation bufferOf' := (resolveMagicString MagicString_import).
Abbreviation qualifies' := (templateQualifies emptyCSSOptions minify cleanCSS).

(** A run in which no template qualifies ends with the buffer it began
    with. *)
Lemma run_untouched (rnd : nat -> Entropy) (source : str) (options : Options')
    (templates : list Template) :
  parsedTemplates parseLiterals_import source options = Ok templates ->
  Forall (fun template => qualifies' source options template = false) templates ->
  toString (bufferOf' options) (new (bufferOf' options) source) = source ->
  run' rnd source options = Ok None.
Proof.
  intros Hparse Hnone Hfresh.
  unfold minifyHTMLLiterals, minifiedBuffer. rewrite Hparse. cbn [bind].
  unfold templateQualifies in Hnone.
  rewrite (minifyTemplates_none_qualifies C SourceMap _ _ _ _ _ _ _ _ _ templates Hnone).
  cbn [bind]. rewrite Hfresh.
  assert (H : strictEq source source = true) by now apply strictEq_spec.
  now rewrite H.
Qed.

(** The two escape hatches.  When the source holds [unsafeHTML] and
    [unsafeCSS] anywhere, no template is minified, whatever the templates,
    their tags and the predicates of the options: the result is [null]
    (the buffer of an untouched source reading back as the source). *)
Theorem minifyHTMLLiterals_escape_hatches (rnd : nat -> Entropy) (source : str)
    (options : Options') (templates : list Template) :
  occursIn source (lit "unsafeHTML") ->
  occursIn source (lit "unsafeCSS") ->
  parsedTemplates parseLiterals_import source options = Ok templates ->
  toString (bufferOf' options) (new (bufferOf' options) source) = source ->
  run' rnd source options = Ok None.
Proof.
  intros Hhtml Hcss Hparse Hfresh.
  apply (run_untouched rnd source options templates Hparse); [|exact Hfresh].
  apply Forall_forall. intros template _.
  apply includes_occursIn in Hhtml. apply includes_occursIn in Hcss.
  unfold templateQualifies, qualifies, skipHTMLFor, skipCSSFor.
  rewrite Hhtml, Hcss.
  destruct (Strategy.minifyCSS _); reflexivity.
Qed.

(** The default predicates.  With [shouldMinify] and [shouldMinifyCSS]
    left to their defaults, a source whose templates are untagged or carry
    tags in which none of [html], [svg] and [css] occurs, in any case of
    the letters, gives [null]. *)
Theorem minifyHTMLLiterals_unrelated_tags (rnd : nat -> Entropy) (source : str)
    (options : Options') (templates : list Template) :
  shouldMinify options = None ->
  shouldMinifyCSS options = None ->
  parsedTemplates parseLiterals_import source options = Ok templates ->
  Forall (fun template =>
            forall t, tag template = Some t ->
              ~ occursIn (toLowerCase t) (lit "html")
              /\ ~ occursIn (toLowerCase t) (lit "svg")
              /\ ~ occursIn (toLowerCase t) (lit "css")) templates ->
  toString (bufferOf' options) (new (bufferOf' options) source) = source ->
  run' rnd source options = Ok None.
Proof.
  intros Hsm Hsc Hparse Htags Hfresh.
  apply (run_untouched rnd source options templates Hparse); [|exact Hfresh].
  eapply Forall_impl; [|exact Htags]. intros template Htag.
  unfold templateQualifies, qualifies. rewrite Hsm, Hsc. cbn [orDefault].
  assert (Hm : defaultShouldMinify template = false).
  { unfold defaultShouldMinify. destruct (tag template) as [t|] eqn:Et; [|reflexivity].
    destruct (Htag t Et) as (Hh & Hs & _).
    assert (Eh : includes (toLowerCase t) (lit "html") = false)
      by (apply not_true_is_false; intros H; now apply includes_occursIn in H).
    assert (Es : includes (toLowerCase t) (lit "svg") = false)
      by (apply not_true_is_false; intros H; now apply includes_occursIn in H).
    cbv zeta. rewrite Eh, Es. apply andb_false_r. }
  assert (Hc : defaultShouldMinifyCSS template = false).
  { unfold defaultShouldMinifyCSS. destruct (tag template) as [t|] eqn:Et; [|reflexivity].
    destruct (Htag t Et) as (_ & _ & Hc).
    assert (Ec : includes (toLowerCase t) (lit "css") = false)
      by (apply not_true_is_false; intros H; now apply includes_occursIn in H).
    now rewrite Ec. }
  rewrite Hm, Hc. rewrite !andb_false_r. reflexivity.
Qed.

End Untouched.

Lemma minifyHTMLLiterals_escape_hatches_witness :
  minifyHTMLLiterals tt spaceDroppingMinify warningCleanCSS plainBuffer exampleParse
    (fun _ => zeroEntropy)
    (lit "x = html`<p>  hi  </p>`; y = unsafeHTML(a); z = unsafeCSS(b)")
    exampleOptions
  = Ok None.
Proof.
  apply (minifyHTMLLiterals_escape_hatches unit tt spaceDroppingMinify warningCleanCSS
           unit unit plainBuffer exampleParse (fun _ => zeroEntropy)
           (lit "x = html`<p>  hi  </p>`; y = unsafeHTML(a); z = unsafeCSS(b)")
           exampleOptions
           [{| parts := [Part (lit "<p>  hi  </p>") 12 25]; tag := Some (lit "html") |}]).
  - apply includes_occursIn. reflexivity.
  - apply includes_occursIn. reflexivity.
  - reflexivity.
  - reflexivity.
Defined.

Lemma minifyHTMLLiterals_unrelated_tags_witness :
  minifyHTMLLiterals tt spaceDroppingMinify warningCleanCSS plainBuffer exampleParse
    (fun _ => zeroEntropy) (lit "q = sql`select  1`")
    {| fileName := None;
       generateSourceMap := False_;
       MagicString := None;
       parseLiterals :=
         Some (fun _ _ =>
                 Ok [{| parts := [Part (lit "select  1") 8 17]; tag := Some (lit "SQL") |}]);
       parseLiteralsOptions := None;
       shouldMinify := None;
       shouldMinifyCSS := None;
       validate := Absent;
       minifyOptions := None;
       strategy := None |}
  = Ok None.
Proof.
  apply (minifyHTMLLiterals_unrelated_tags unit tt spaceDroppingMinify warningCleanCSS
           unit unit plainBuffer exampleParse (fun _ => zeroEntropy)
           (lit "q = sql`select  1`") _
           [{| parts := [Part (lit "select  1") 8 17]; tag := Some (lit "SQL") |}]).
  - reflexivity.
  - reflexivity.
  - reflexivity.
  - constructor; [|constructor]. intros t Ht. injection Ht as <-.
    repeat split; intros H; apply includes_occursIn in H; vm_compute in H; discriminate.
  - reflexivity.
Defined.
